(** * Hint overlay (Vimium style): label generation, element filter,
      layout and the selection state machine of [hints/huds/overlay.py].

    The development embeds the methods of [OverlayWindow] as Rocq functions
    over an explicit overlay state, and proves the properties the design
    document states about them.

    Modelling conventions.
    - A Python [str] is a list of Unicode code points ([char := N]).
    - A Python [dict] is an association list in insertion order whose keys
      are pairwise distinct; [d[k] = v] overwrites in place or appends.
    - Screen quantities (pixels, text extents) are exact rationals [Q];
      the rounding of IEEE doubles is not modelled.
    - A method that can raise returns a [result]; a key handler returns an
      [outcome].
    - The Unicode tables of the interpreter ([str.upper], [str.isalpha], ...)
      and the Cairo text measurement are parameters. *)

From Stdlib Require Import List Arith Bool Lia ZArith NArith QArith Qround Lqa.
From Stdlib Require Import Ascii String FinFun Finite Sorted.
From Equations Require Import Equations.
Import ListNotations.

Set Implicit Arguments.
Unset Strict Implicit.
Set Equations Transparent.

Close Scope Q_scope.
Open Scope nat_scope.

(** ** Strings *)

Abbreviation char := N (only parsing).
Abbreviation str := (list N) (only parsing).

(** A string literal of the source. *)
Definition pystr (s : string) : str := map N_of_ascii (list_ascii_of_string s).

Fixpoint str_eqb (a b : str) : bool :=
  match a, b with
  | [], [] => true
  | x :: a', y :: b' => N.eqb x y && str_eqb a' b'
  | _, _ => false
  end.

(** [a.startswith(p)] *)
Fixpoint startswith (a p : str) : bool :=
  match p, a with
  | [], _ => true
  | y :: p', x :: a' => N.eqb x y && startswith a' p'
  | _ :: _, [] => false
  end.

(** [k in s] for strings: [k] occurs in [s] as a contiguous substring. *)
Fixpoint str_contains (s k : str) : bool :=
  startswith s k ||
  match s with
  | [] => false
  | _ :: s' => str_contains s' k
  end.

(** The parts of the interpreter's Unicode database the overlay calls. *)
Class Unicode := {
  str_upper : str -> str;          (* s.upper() *)
  str_lower : str -> str;          (* s.lower() *)
  str_strip : str -> str;          (* s.strip() *)
  chr_isalpha : char -> bool;      (* ch.isalpha() for a one-character ch *)
  chr_isdigit : char -> bool;      (* ch.isdigit() for a one-character ch *)
  chr_digit : char -> option N     (* int(ch); None when int() raises *)
}.

(** ** Exceptions and results *)

Inductive exn := IndexError | KeyError | ValueError.

Inductive result (A : Type) :=
| Ok (a : A)
| Raise (e : exn).
Arguments Ok {A} a.
Arguments Raise {A} e.

(** ** Insertion-ordered dictionaries *)

Section Dict.
Variables K V : Type.
Variable eqb : K -> K -> bool.

Definition dict := list (K * V).

Definition keys (d : dict) : list K := map fst d.
Definition values (d : dict) : list V := map snd d.

(** [d[k] = v] *)
Fixpoint dict_set (d : dict) (k : K) (v : V) : dict :=
  match d with
  | [] => [(k, v)]
  | (k', v') :: d' =>
      if eqb k' k then (k', v) :: d' else (k', v') :: dict_set d' k v
  end.

(** [d.get(k)] *)
Fixpoint dict_get (d : dict) (k : K) : option V :=
  match d with
  | [] => None
  | (k', v') :: d' => if eqb k' k then Some v' else dict_get d' k
  end.

(** [k in d] *)
Definition dict_mem (d : dict) (k : K) : bool :=
  match dict_get d k with Some _ => true | None => false end.
End Dict.

Arguments dict K V : clear implicits.

(** ** Numbers *)

Definition Qltb (x y : Q) : bool := negb (Qle_bool y x).

(** [max(a, b)] and [min(a, b)] of two arguments: the first one wins ties. *)
Definition py_max (a b : Q) : Q := if Qltb a b then b else a.
Definition py_min (a b : Q) : Q := if Qltb b a then b else a.

(** [round(q)]: to the nearest integer, halves to the even neighbour. *)
Definition py_round (q : Q) : Z :=
  let f := Qfloor q in
  let r := (q - inject_Z f)%Q in
  if Qltb r (1 # 2) then f
  else if Qltb (1 # 2) r then (f + 1)%Z
  else if Z.even f then f else (f + 1)%Z.

(** ** Elements *)

(** Modelled from the spec: [hints.child.Child] is not part of the sources;
    the fields are those the overlay reads.  [role] and [name] are optional
    attributes (the filter guards them with [hasattr]). *)
Module Child.
Record t := {
  relative_position : Q * Q;
  absolute_position : Q * Q;
  width : Q;
  height : Q;
  role : option str;
  name : option str
}.
End Child.

(** ** Label generator *)

Definition chars : str := pystr "SADFJKLEWCMPGH".

(** [len(chars)] *)
Definition alphabet_size : nat := List.length chars.

(** [while len(chars)**length < count: length += 1] *)
Equations? label_length (count length : nat) : nat
  by wf (count - List.length chars ^ length) lt :=
  label_length count length with lt_dec (List.length chars ^ length) count := {
    | left _ := label_length count (S length)
    | right _ := length }.
Proof.
  change (List.length chars) with 14 in *.
  assert (0 < 14 ^ length) by (apply Nat.neq_0_lt_0, Nat.pow_nonzero; lia).
  lia.
Qed.

(** The nested helper [rec(p, l)]; the list [labels] it appends to is
    threaded through. *)
Fixpoint rec (count : nat) (l : nat) (p : str) (labels : list str)
  {struct l} : list str :=
  match l with
  | O => labels ++ [p]
  | S l' =>
      fold_left
        (fun labels c =>
           if List.length labels <? count
           then rec count l' (p ++ [c]) labels
           else labels)
        chars labels
  end.

(** [{labels[i]: child for i, child in enumerate(hints.values())}] *)
Fixpoint label_children (labels : list str) (i : nat) (children : list Child.t)
  (acc : dict str Child.t) : result (dict str Child.t) :=
  match children with
  | [] => Ok acc
  | child :: rest =>
      match nth_error labels i with
      | None => Raise IndexError
      | Some lab => label_children labels (S i) rest (dict_set str_eqb acc lab child)
      end
  end.

Definition hint_labels (count : nat) : list str :=
  let length := label_length count 1 in
  if length =? 1
  then map (fun c => [c]) (firstn count chars)
  else rec count length [] [].

Definition generate_hint_labels (hints : dict str Child.t) : result (dict str Child.t) :=
  let count := List.length hints in
  label_children (hint_labels count) 0 (values hints) [].

(** All strings of length [l] over the alphabet, in depth-first alphabet
    order (the reading of the design document, used to state the result of
    the generator). *)
Fixpoint words (l : nat) : list str :=
  match l with
  | O => [[]]
  | S l' => flat_map (fun c => map (cons c) (words l')) chars
  end.

(** The position of a character in a string ([s.index(c)]; the length when
    it is absent). *)
Fixpoint rank (s : str) (c : N) : nat :=
  match s with
  | [] => 0
  | x :: s' => if N.eqb x c then 0 else S (rank s' c)
  end.

(** Dictionary order on strings for the order of the alphabet. *)
Fixpoint alpha_lt (a b : str) : Prop :=
  match a, b with
  | _, [] => False
  | [], _ :: _ => True
  | x :: a', y :: b' =>
      rank chars x < rank chars y \/ (x = y /\ alpha_lt a' b')
  end.

(** ** Mouse action, configuration, events *)

(** Modelled from the spec: [hints.mouse_enums.MouseButton] is not part of
    the sources; only the two members the overlay names are listed. *)
Inductive MouseButton := LEFT | RIGHT.

(** The values the overlay stores under the key ["action"]. *)
Inductive ActionKind := click | hover | grab.

(** The [mouse_action] dictionary shared with the caller: a key that is
    absent is [None]. *)
Module MouseAction.
Record t := {
  action : option ActionKind;
  x : option Q;
  y : option Q;
  repeat : option N;
  button : option MouseButton
}.
Definition empty : t :=
  {| action := None; x := None; y := None; repeat := None; button := None |}.
End MouseAction.

(** The entries of [HintsConfig] the overlay reads.  The constructor reads
    them by subscript, so a configuration that lacks one of them raises
    [KeyError] there; such a configuration is no value of this record, and
    nothing below speaks of it. *)
Record HintsConfig := {
  cfg_exit_key : N;
  cfg_hover_modifier : N;
  cfg_grab_modifier : N
}.

(** A key press after the keymap translation at the head of [on_key_press]:
    the key value, its lower-case form and the modifiers left once the
    consumed ones are masked out. *)
Record EventKey := {
  keyval : N;
  key_lower : N;
  mods : N
}.

Definition KEY_Escape : N := 65307.     (* 0xff1b *)
Definition KEY_BackSpace : N := 65288.  (* 0xff08 *)

(** [chr(i)]: raises [ValueError] above U+10FFFF. *)
Definition chr (i : N) : result N :=
  if (i <=? 1114111)%N then Ok i else Raise ValueError.

(** The measurement of the Cairo context: x-bearing, y-bearing, width and
    height of a text. *)
Record TextExtents := {
  x_bearing : Q;
  y_bearing : Q;
  text_width : Q;
  text_height : Q
}.

Record Context := { text_extents : str -> TextExtents }.

(** ** The overlay window *)

Definition Rect : Type := Q * Q * Q * Q.

Record OverlayWindow := {
  width : Q;
  height : Q;
  all_hints : dict str Child.t;
  hints : dict str Child.t;
  hint_selector_state : str;
  mouse_action : MouseAction.t;
  exit_key : N;
  hover_modifier : N;
  grab_modifier : N;
  hints_drawn_offsets : dict str (Q * Q);
  (* number of [drawing_area.queue_draw()] requests issued so far *)
  queued_draws : nat
}.

(** Settings fixed by the constructor. *)
Definition hint_padding_x : Q := 3.
Definition hint_height : Q := 13.
Definition hint_upercase : bool := true.

Definition set_hints (self : OverlayWindow) (h : dict str Child.t) : OverlayWindow :=
  {| width := self.(width); height := self.(height);
     all_hints := self.(all_hints); hints := h;
     hint_selector_state := self.(hint_selector_state);
     mouse_action := self.(mouse_action); exit_key := self.(exit_key);
     hover_modifier := self.(hover_modifier);
     grab_modifier := self.(grab_modifier);
     hints_drawn_offsets := self.(hints_drawn_offsets);
     queued_draws := self.(queued_draws) |}.

Definition set_hint_selector_state (self : OverlayWindow) (s : str) : OverlayWindow :=
  {| width := self.(width); height := self.(height);
     all_hints := self.(all_hints); hints := self.(hints);
     hint_selector_state := s;
     mouse_action := self.(mouse_action); exit_key := self.(exit_key);
     hover_modifier := self.(hover_modifier);
     grab_modifier := self.(grab_modifier);
     hints_drawn_offsets := self.(hints_drawn_offsets);
     queued_draws := self.(queued_draws) |}.

Definition set_mouse_action (self : OverlayWindow) (m : MouseAction.t) : OverlayWindow :=
  {| width := self.(width); height := self.(height);
     all_hints := self.(all_hints); hints := self.(hints);
     hint_selector_state := self.(hint_selector_state);
     mouse_action := m; exit_key := self.(exit_key);
     hover_modifier := self.(hover_modifier);
     grab_modifier := self.(grab_modifier);
     hints_drawn_offsets := self.(hints_drawn_offsets);
     queued_draws := self.(queued_draws) |}.

Definition set_hints_drawn_offsets (self : OverlayWindow) (o : dict str (Q * Q)) : OverlayWindow :=
  {| width := self.(width); height := self.(height);
     all_hints := self.(all_hints); hints := self.(hints);
     hint_selector_state := self.(hint_selector_state);
     mouse_action := self.(mouse_action); exit_key := self.(exit_key);
     hover_modifier := self.(hover_modifier);
     grab_modifier := self.(grab_modifier);
     hints_drawn_offsets := o;
     queued_draws := self.(queued_draws) |}.

(** [self.drawing_area.queue_draw()] *)
Definition queue_draw (self : OverlayWindow) : OverlayWindow :=
  {| width := self.(width); height := self.(height);
     all_hints := self.(all_hints); hints := self.(hints);
     hint_selector_state := self.(hint_selector_state);
     mouse_action := self.(mouse_action); exit_key := self.(exit_key);
     hover_modifier := self.(hover_modifier);
     grab_modifier := self.(grab_modifier);
     hints_drawn_offsets := self.(hints_drawn_offsets);
     queued_draws := S self.(queued_draws) |}.

(** What a key handler leaves behind: the main loop goes on, the overlay
    quit on the exit key, the overlay was destroyed with the mouse action
    filled in, or the handler raised. *)
Inductive outcome :=
| Running (self : OverlayWindow)
| Cancelled (self : OverlayWindow)
| Resolved (self : OverlayWindow)
| Raised (e : exn) (self : OverlayWindow).

Definition state_of (o : outcome) : OverlayWindow :=
  match o with
  | Running s | Cancelled s | Resolved s | Raised _ s => s
  end.

(** ** Element filter *)

Definition skip_keywords : list str :=
  map pystr ["separator"; "filler"; "scroll bar"; "status bar"; "decoration";
             "frame"; "border"]%string.

Definition click_keywords : list str :=
  map pystr ["button"; "link"; "menu"; "tab"; "entry"; "text"; "combo";
             "check"; "radio"; "toggle"; "tool"; "item"; "cell"; "option";
             "choice"]%string.

Definition pos_eqb (a b : Z * Z) : bool :=
  Z.eqb (fst a) (fst b) && Z.eqb (snd a) (snd b).

(** [k in seen] and [seen.add(k)] on a set of position keys. *)
Definition seen_mem (k : Z * Z) (seen : list (Z * Z)) : bool :=
  existsb (pos_eqb k) seen.
Definition seen_add (k : Z * Z) (seen : list (Z * Z)) : list (Z * Z) :=
  if seen_mem k seen then seen else k :: seen.

Definition nonempty (A : Type) (l : list A) : bool :=
  match l with [] => false | _ :: _ => true end.

Section Overlay.

Context {U : Unicode}.

(** One iteration of the loop of [filter_important_hints]; a [continue]
    leaves the pair (important_hints, seen) as it is. *)
Definition filter_body (self : OverlayWindow)
  (acc : dict str Child.t * list (Z * Z)) (item : str * Child.t)
  : dict str Child.t * list (Z * Z) :=
  let '(important_hints, seen) := acc in
  let '(key, child) := item in
  if Qltb child.(Child.width) 8 || Qltb child.(Child.height) 8 then acc else
  let '(x, y) := child.(Child.relative_position) in
  if Qltb x (- child.(Child.width))
     || Qltb y (- child.(Child.height))
     || Qltb (self.(width) + child.(Child.width)) x
     || Qltb (self.(height) + child.(Child.height)) y then acc else
  let role := match child.(Child.role) with Some r => str_lower r | None => [] end in
  let name := match child.(Child.name) with Some n => str_strip n | None => [] end in
  if existsb (fun k => str_contains role k) skip_keywords then acc else
  let is_clickable :=
    if negb (nonempty role) then true
    else existsb (fun k => str_contains role k) click_keywords in
  let pos_key := (py_round (x / 10), py_round (y / 10)) in
  if seen_mem pos_key seen then acc else
  if is_clickable
     || (nonempty name && Qltb 20 child.(Child.width) && Qltb 15 child.(Child.height))
     || (Qltb 40 child.(Child.width) && Qltb 20 child.(Child.height))
  then (dict_set str_eqb important_hints key child, seen_add pos_key seen)
  else acc.

Definition filter_important_hints (self : OverlayWindow) (hints : dict str Child.t)
  : dict str Child.t :=
  fst (fold_left (filter_body self) hints ([], [])).

(** ** Layout *)

Definition calculate_vimium_position (self : OverlayWindow) (child : Child.t)
  (w h : Q) : Q * Q :=
  let '(x, y) := child.(Child.relative_position) in
  let x := (x - 5)%Q in
  let y := (y - 5)%Q in
  let x := py_max 0 (py_min x (self.(width) - w)) in
  let y := py_max 0 (py_min y (self.(height) - h)) in
  (x, y).

(** One iteration of [for dx,dy,dw,dh in drawn] on the candidate at column
    [x] of size [w] by [h]: the new value of [y]. *)
Definition avoid (self : OverlayWindow) (x w h : Q) (y : Q) (d : Rect) : Q :=
  let '(dx, dy, dw, dh) := d in
  if Qltb x (dx + dw) && Qltb dx (x + w) && Qltb y (dy + dh) && Qltb dy (y + h)
  then
    let y := (dy + dh + 2)%Q in
    if Qltb self.(height) (y + h) then (dy - h - 2)%Q else y
  else y.

(** The rectangle [on_draw] gives to the label [key] of [child], given the
    rectangles drawn before it. *)
Definition place (self : OverlayWindow) (cr : Context) (drawn : list Rect)
  (key : str) (child : Child.t) : Rect :=
  let txt := if hint_upercase then str_upper key else key in
  let e := cr.(text_extents) txt in
  let w := (e.(text_width) + 2 * hint_padding_x)%Q in
  let h := hint_height in
  let '(x, y) := calculate_vimium_position self child w h in
  let y := fold_left (avoid self x w h) drawn y in
  (x, y, w, h).

(** One iteration of the loop of [on_draw] (the painting itself is left to
    the renderer): the rectangle is appended to [drawn] and the offset of
    its centre from the element is cached under the label. *)
Definition draw_body (self : OverlayWindow) (cr : Context)
  (acc : list Rect * dict str (Q * Q)) (item : str * Child.t)
  : list Rect * dict str (Q * Q) :=
  let '(drawn, offsets) := acc in
  let '(key, child) := item in
  let '(x0, y0) := child.(Child.relative_position) in
  let '(x, y, w, h) := place self cr drawn key child in
  (drawn ++ [(x, y, w, h)],
   dict_set str_eqb offsets key ((x + w / 2 - x0)%Q, (y + h / 2 - y0)%Q)).

(** The rectangles of one draw pass, in drawing order. *)
Definition drawn_rects (self : OverlayWindow) (cr : Context) : list Rect :=
  fst (fold_left (draw_body self cr) self.(hints) ([], self.(hints_drawn_offsets))).

Definition on_draw (self : OverlayWindow) (cr : Context) : OverlayWindow :=
  set_hints_drawn_offsets self
    (snd (fold_left (draw_body self cr) self.(hints) ([], self.(hints_drawn_offsets)))).

(** ** Selection state machine *)

(** The case policy applied to labels. *)
Definition normalize (s : str) : str := if hint_upercase then str_upper s else s.

Definition update_hints (self : OverlayWindow) (next_char : str) : OverlayWindow :=
  let c := if hint_upercase then str_upper next_char else next_char in
  let new :=
    filter (fun kv => startswith (normalize (fst kv)) (self.(hint_selector_state) ++ c))
           self.(hints) in
  let self :=
    if nonempty new
    then set_hint_selector_state (set_hints self new) (self.(hint_selector_state) ++ c)
    else self in
  queue_draw self.

(** The three qualifier updates of [on_key_press]. *)
Definition qualify (self : OverlayWindow) (event : EventKey) : MouseAction.t :=
  let m := self.(mouse_action) in
  let m :=
    if (event.(mods) =? self.(hover_modifier))%N
    then {| MouseAction.action := Some hover; MouseAction.x := m.(MouseAction.x);
            MouseAction.y := m.(MouseAction.y);
            MouseAction.repeat := m.(MouseAction.repeat);
            MouseAction.button := m.(MouseAction.button) |}
    else m in
  let m :=
    if (event.(mods) =? self.(grab_modifier))%N
    then {| MouseAction.action := Some grab; MouseAction.x := m.(MouseAction.x);
            MouseAction.y := m.(MouseAction.y);
            MouseAction.repeat := m.(MouseAction.repeat);
            MouseAction.button := m.(MouseAction.button) |}
    else m in
  if negb (event.(key_lower) =? event.(keyval))%N
  then {| MouseAction.action := Some click; MouseAction.x := m.(MouseAction.x);
          MouseAction.y := m.(MouseAction.y);
          MouseAction.repeat := m.(MouseAction.repeat);
          MouseAction.button := Some RIGHT |}
  else m.

(** [int(str(self.mouse_action.get("repeat","")) + ch)] for a character [ch]
    whose value as a digit is [d]. *)
Definition append_digit (r : option N) (d : N) : N :=
  match r with
  | None => d
  | Some n => (10 * n + d)%N
  end.

(** The last statement of [on_key_press], reached once the label and the
    prefix agree: the element's absolute position is moved by the cached
    offset and the defaults fill the keys that are still absent. *)
Definition resolve (self : OverlayWindow) (hint : str) (child : Child.t) : outcome :=
  let '(x_abs, y_abs) := child.(Child.absolute_position) in
  match dict_get str_eqb self.(hints_drawn_offsets) hint with
  | None => Raised KeyError self
  | Some (x_off, y_off) =>
      let m := self.(mouse_action) in
      Resolved (set_mouse_action self
        {| MouseAction.action :=
             Some (match m.(MouseAction.action) with Some a => a | None => click end);
           MouseAction.x := Some (x_abs + x_off)%Q;
           MouseAction.y := Some (y_abs + y_off)%Q;
           MouseAction.repeat :=
             Some (match m.(MouseAction.repeat) with Some r => r | None => 1%N end);
           MouseAction.button :=
             Some (match m.(MouseAction.button) with Some b => b | None => LEFT end) |})
  end.

(** The test [len(self.hints)==1 and label == prefix] and what follows. *)
Definition check_unique (self : OverlayWindow) : outcome :=
  match self.(hints) with
  | [(hint, child)] =>
      if (hint_upercase && str_eqb (str_upper hint) self.(hint_selector_state))
         || (negb hint_upercase && str_eqb hint self.(hint_selector_state))
      then resolve self hint child
      else Running self
  | _ => Running self
  end.

Definition on_key_press (self : OverlayWindow) (event : EventKey) : outcome :=
  if (event.(keyval) =? KEY_Escape)%N || (event.(key_lower) =? self.(exit_key))%N
  then Cancelled self
  else if (event.(keyval) =? KEY_BackSpace)%N && nonempty self.(hint_selector_state)
  then
    let self := set_hint_selector_state self (removelast self.(hint_selector_state)) in
    match generate_hint_labels (filter_important_hints self self.(all_hints)) with
    | Raise e => Raised e self
    | Ok labelled => Running (queue_draw (set_hints self labelled))
    end
  else
    let self := set_mouse_action self (qualify self event) in
    match chr event.(key_lower) with
    | Raise e => Raised e self
    | Ok ch =>
        let self := if chr_isalpha ch then update_hints self [ch] else self in
        if chr_isdigit ch
        then
          match chr_digit ch with
          | None => Raised ValueError self
          | Some d =>
              let m := self.(mouse_action) in
              check_unique (set_mouse_action self
                {| MouseAction.action := m.(MouseAction.action);
                   MouseAction.x := m.(MouseAction.x);
                   MouseAction.y := m.(MouseAction.y);
                   MouseAction.repeat := Some (append_digit m.(MouseAction.repeat) d);
                   MouseAction.button := m.(MouseAction.button) |})
          end
        else check_unique self
    end.

(** ** Construction and the main loop *)

Definition init (x_pos y_pos width height : Q) (config : HintsConfig)
  (hints : dict str Child.t) (mouse_action : MouseAction.t) (is_wayland : bool)
  : result OverlayWindow :=
  let self :=
    {| width := width; height := height; all_hints := hints; hints := [];
       hint_selector_state := []; mouse_action := mouse_action;
       exit_key := config.(cfg_exit_key);
       hover_modifier := config.(cfg_hover_modifier);
       grab_modifier := config.(cfg_grab_modifier);
       hints_drawn_offsets := []; queued_draws := 0 |} in
  match generate_hint_labels (filter_important_hints self hints) with
  | Raise e => Raise e
  | Ok labelled => Ok (set_hints self labelled)
  end.

(** What the toolkit delivers to the overlay. *)
Inductive signal :=
| key_press_event (event : EventKey)
| draw (cr : Context).

(** The main loop over the signals delivered.  A handler that raises
    [ValueError] or [IndexError] is abandoned where it stood and the loop
    goes on; [KeyError] can only come from the offset lookup, which follows
    [self.destroy()], so it ends the loop as the three final outcomes do. *)
Fixpoint run (self : OverlayWindow) (signals : list signal) : outcome :=
  match signals with
  | [] => Running self
  | draw cr :: rest => run (on_draw self cr) rest
  | key_press_event event :: rest =>
      match on_key_press self event with
      | Running self' => run self' rest
      | Raised ValueError self' | Raised IndexError self' => run self' rest
      | final => final
      end
  end.

End Overlay.

(** The Unicode tables restricted to ASCII: code points below 128 behave as
    in the interpreter, the others are taken as caseless symbols. *)
Definition ascii_upper (c : N) : N :=
  if ((97 <=? c) && (c <=? 122))%N then (c - 32)%N else c.
Definition ascii_lower (c : N) : N :=
  if ((65 <=? c) && (c <=? 90))%N then (c + 32)%N else c.
Definition ascii_isspace (c : N) : bool :=
  ((9 <=? c) && (c <=? 13) || (28 <=? c) && (c <=? 32))%N.
Fixpoint lstrip (s : str) : str :=
  match s with
  | [] => []
  | c :: s' => if ascii_isspace c then lstrip s' else s
  end.

#[export] Instance ascii_tables : Unicode := {|
  str_upper := map ascii_upper;
  str_lower := map ascii_lower;
  str_strip := fun s => rev (lstrip (rev (lstrip s)));
  chr_isalpha := fun c => ((65 <=? c) && (c <=? 90) || (97 <=? c) && (c <=? 122))%N;
  chr_isdigit := fun c => ((48 <=? c) && (c <=? 57))%N;
  chr_digit := fun c => if ((48 <=? c) && (c <=? 57))%N then Some (c - 48)%N else None
|}.

(** * Readings of the design document and sample data *)

(** ** The element filter, read as a choice of the first eligible element
       of each bucket *)

(** The dedup bucket of an element. *)
Definition bucket (child : Child.t) : Z * Z :=
  let '(x, y) := child.(Child.relative_position) in
  (py_round (x / 10), py_round (y / 10)).

(** The tests of the filter that look at the element alone: size, bounds,
    skipped roles and the inclusion rule. *)
Definition eligible {U : Unicode} (self : OverlayWindow) (child : Child.t) : bool :=
  let '(x, y) := child.(Child.relative_position) in
  let role := match child.(Child.role) with Some r => str_lower r | None => [] end in
  let name := match child.(Child.name) with Some n => str_strip n | None => [] end in
  negb (Qltb child.(Child.width) 8 || Qltb child.(Child.height) 8)
  && negb (Qltb x (- child.(Child.width))
           || Qltb y (- child.(Child.height))
           || Qltb (self.(width) + child.(Child.width)) x
           || Qltb (self.(height) + child.(Child.height)) y)
  && negb (existsb (fun k => str_contains role k) skip_keywords)
  && ((if negb (nonempty role) then true
       else existsb (fun k => str_contains role k) click_keywords)
      || (nonempty name && Qltb 20 child.(Child.width) && Qltb 15 child.(Child.height))
      || (Qltb 40 child.(Child.width) && Qltb 20 child.(Child.height))).

(** The elements kept out of [items] when the buckets of [seen] are taken. *)
Fixpoint survivors {U : Unicode} (self : OverlayWindow) (seen : list (Z * Z))
  (items : dict str Child.t) : dict str Child.t :=
  match items with
  | [] => []
  | (key, child) :: rest =>
      if eligible self child && negb (seen_mem (bucket child) seen)
      then (key, child) :: survivors self (bucket child :: seen) rest
      else survivors self seen rest
  end.

Fixpoint seen_after {U : Unicode} (self : OverlayWindow) (seen : list (Z * Z))
  (items : dict str Child.t) : list (Z * Z) :=
  match items with
  | [] => seen
  | (key, child) :: rest =>
      if eligible self child && negb (seen_mem (bucket child) seen)
      then seen_after self (bucket child :: seen) rest
      else seen_after self seen rest
  end.

(** ** Layout: overlap, the collision rule, bounds *)

(** The axis-aligned overlap test between the candidate at (x, y) of size
    [w] by [h] and a placed rectangle. *)
Definition overlaps (x y w h : Q) (d : Rect) : Prop :=
  let '(dx, dy, dw, dh) := d in
  (x < dx + dw /\ x + w > dx /\ y < dy + dh /\ y + h > dy)%Q.

(** The collision rule as the design document words it: one visit of each
    placed rectangle, in placement order; [resolved H x w h ds y y'] reads
    "the pass over [ds] takes the candidate from [y] to [y']". *)
Inductive resolved (H x w h : Q) : list Rect -> Q -> Q -> Prop :=
| resolved_done y :
    resolved H x w h [] y y
| resolved_clear d ds y y' :
    ~ overlaps x y w h d ->
    resolved H x w h ds y y' ->
    resolved H x w h (d :: ds) y y'
| resolved_down dx dy dw dh ds y y' :
    overlaps x y w h (dx, dy, dw, dh) ->
    ~ (dy + dh + 2 + h > H)%Q ->
    resolved H x w h ds (dy + dh + 2)%Q y' ->
    resolved H x w h ((dx, dy, dw, dh) :: ds) y y'
| resolved_up dx dy dw dh ds y y' :
    overlaps x y w h (dx, dy, dw, dh) ->
    (dy + dh + 2 + h > H)%Q ->
    resolved H x w h ds (dy - h - 2)%Q y' ->
    resolved H x w h ((dx, dy, dw, dh) :: ds) y y'.

(** A rectangle that lies within the overlay. *)
Definition in_bounds (self : OverlayWindow) (r : Rect) : Prop :=
  let '(x, y, w, h) := r in
  (0 <= x /\ 0 <= y /\ x + w <= self.(width) /\ y + h <= self.(height))%Q.

(** The range of element positions the layout claim speaks of. *)
Definition near_overlay (self : OverlayWindow) (child : Child.t) : Prop :=
  let '(x, y) := child.(Child.relative_position) in
  (- child.(Child.width) <= x /\ x <= self.(width) + child.(Child.width)
   /\ - child.(Child.height) <= y /\ y <= self.(height) + child.(Child.height))%Q.

(** The layout claim of the design document, for one draw pass. *)
Definition layout_claim {U : Unicode} (self : OverlayWindow) (cr : Context) : Prop :=
  forall i key child r,
    nth_error self.(hints) i = Some (key, child) ->
    near_overlay self child ->
    nth_error (drawn_rects self cr) i = Some r ->
    in_bounds self r.

(** A placed rectangle of the fixed label height that lies in the overlay. *)
Definition well_placed (self : OverlayWindow) (r : Rect) : Prop :=
  in_bounds self r /\ snd r = hint_height.

(** The offset [on_draw] caches for an element whose label was drawn at the
    rectangle [r]: from the element's relative position to the centre of
    the rectangle. *)
Definition centre_offset (child : Child.t) (r : Rect) : Q * Q :=
  let '(x, y, w, h) := r in
  ((x + w / 2 - fst child.(Child.relative_position))%Q,
   (y + h / 2 - snd child.(Child.relative_position))%Q).

(** ** The selection state machine: steps, invariants, resolution *)

(** The fields no handler writes. *)
Definition frame (s s' : OverlayWindow) : Prop :=
  s'.(width) = s.(width) /\ s'.(height) = s.(height)
  /\ s'.(all_hints) = s.(all_hints) /\ s'.(exit_key) = s.(exit_key)
  /\ s'.(hover_modifier) = s.(hover_modifier)
  /\ s'.(grab_modifier) = s.(grab_modifier).

(** The labels of [d] whose normal form starts with [p]. *)
Definition narrowed {U : Unicode} (p : str) (d : dict str Child.t) : dict str Child.t :=
  filter (fun kv => startswith (normalize (fst kv)) p) d.

(** The three ways a key press acts on the live label set and the prefix:
    not at all, by a committed narrowing, or by the rebuild of a backspace. *)
Inductive selection_step {U : Unicode} (event : EventKey) (s s' : OverlayWindow) : Prop :=
| step_same :
    s'.(hints) = s.(hints) ->
    s'.(hint_selector_state) = s.(hint_selector_state) ->
    selection_step event s s'
| step_narrow c :
    s'.(hints) = narrowed (s.(hint_selector_state) ++ c) s.(hints) ->
    s'.(hints) <> [] ->
    s'.(hint_selector_state) = s.(hint_selector_state) ++ c ->
    selection_step event s s'
| step_rebuild :
    event.(keyval) = KEY_BackSpace ->
    s.(hint_selector_state) <> [] ->
    generate_hint_labels (filter_important_hints s s.(all_hints)) = Ok s'.(hints) ->
    s'.(hint_selector_state) = removelast s.(hint_selector_state) ->
    selection_step event s s'.

(** No key of the sequence is BackSpace. *)
Definition no_backspace (signals : list signal) : Prop :=
  Forall (fun sig => match sig with
                     | key_press_event event => event.(keyval) <> KEY_BackSpace
                     | draw _ => True
                     end) signals.

(** What [on_key_press] does with the character [ch] of the key, once the
    qualifiers are recorded: narrowing, repeat count, unique-match test. *)
Definition key_tail {U : Unicode} (s1 : OverlayWindow) (ch : N) : outcome :=
  let self := if chr_isalpha ch then update_hints s1 [ch] else s1 in
  if chr_isdigit ch
  then
    match chr_digit ch with
    | None => Raised ValueError self
    | Some d =>
        let m := self.(mouse_action) in
        check_unique (set_mouse_action self
          {| MouseAction.action := m.(MouseAction.action);
             MouseAction.x := m.(MouseAction.x);
             MouseAction.y := m.(MouseAction.y);
             MouseAction.repeat := Some (append_digit m.(MouseAction.repeat) d);
             MouseAction.button := m.(MouseAction.button) |})
    end
  else check_unique self.

(** The claim of the design document on the live label set after the
    signals [signals], from the constructed overlay [self0]. *)
Definition selection_claim {U : Unicode} (self0 : OverlayWindow)
  (signals : list signal) : Prop :=
  let s := state_of (run self0 signals) in
  s.(hints) = narrowed s.(hint_selector_state) self0.(hints).

(** Along a run the live set is the whole generated set or the generated
    set narrowed by the prefix. *)
Definition live_inv {U : Unicode} (self0 s : OverlayWindow) : Prop :=
  frame self0 s
  /\ generate_hint_labels (filter_important_hints self0 self0.(all_hints))
     = Ok self0.(hints)
  /\ (s.(hints) = narrowed s.(hint_selector_state) self0.(hints)
      \/ s.(hints) = self0.(hints)).

(** The key quits the overlay: Escape or the exit key. *)
Definition cancels (s : OverlayWindow) (event : EventKey) : bool :=
  (event.(keyval) =? KEY_Escape)%N || (event.(key_lower) =? s.(exit_key))%N.

(** The key is a backspace that rebuilds the live set: BackSpace, pressed
    with a non-empty prefix. *)
Definition rebuilds (s : OverlayWindow) (event : EventKey) : bool :=
  negb (cancels s event)
  && (event.(keyval) =? KEY_BackSpace)%N
  && nonempty s.(hint_selector_state).

(** The key commits a letter: its character is a letter and the prefix
    followed by that letter is the start of a live label. *)
Definition commits {U : Unicode} (s : OverlayWindow) (event : EventKey) : bool :=
  negb (cancels s event)
  && negb (rebuilds s event)
  && match chr event.(key_lower) with
     | Ok ch =>
         chr_isalpha ch
         && nonempty (narrowed (s.(hint_selector_state) ++ normalize [ch])
                               s.(hints))
     | Raise _ => false
     end.

(** The live set is stale after the signals [signals]: the last key that
    acted on the selection was a rebuilding backspace, and no letter was
    committed since.  [w] says whether it was stale before them. *)
Fixpoint stale {U : Unicode} (self : OverlayWindow) (signals : list signal)
  (w : bool) : bool :=
  match signals with
  | [] => w
  | draw cr :: rest => stale (on_draw self cr) rest w
  | key_press_event event :: rest =>
      let w' := if rebuilds self event then true
                else if commits self event then false else w in
      match on_key_press self event with
      | Running self' => stale self' rest w'
      | Raised ValueError self' | Raised IndexError self' => stale self' rest w'
      | _ => w'
      end
  end.

(** The live set is the whole generated set when it is stale, and the
    generated set narrowed by the prefix when it is not. *)
Definition exact_inv {U : Unicode} (self0 : OverlayWindow) (w : bool)
  (s : OverlayWindow) : Prop :=
  frame self0 s
  /\ generate_hint_labels (filter_important_hints self0 self0.(all_hints))
     = Ok self0.(hints)
  /\ s.(hints) = if w then self0.(hints)
                 else narrowed s.(hint_selector_state) self0.(hints).


(** The mouse action pending once a key is taken in: the qualifiers of the
    key are recorded and a digit is appended to the repeat count. *)
Definition pending_action {U : Unicode} (s : OverlayWindow) (event : EventKey)
  : MouseAction.t :=
  let m := qualify s event in
  match chr event.(key_lower) with
  | Raise _ => m
  | Ok ch =>
      if chr_isdigit ch
      then
        match chr_digit ch with
        | None => m
        | Some d =>
            {| MouseAction.action := m.(MouseAction.action);
               MouseAction.x := m.(MouseAction.x);
               MouseAction.y := m.(MouseAction.y);
               MouseAction.repeat := Some (append_digit m.(MouseAction.repeat) d);
               MouseAction.button := m.(MouseAction.button) |}
        end
      else m
  end.

(** The mouse action the design document asks for, given the action [m]
    pending at the unique match, the matched element and the cached offset
    of its label. *)
Definition resolved_action (m : MouseAction.t) (child : Child.t) (offset : Q * Q)
  : MouseAction.t :=
  {| MouseAction.action :=
       Some (match m.(MouseAction.action) with Some a => a | None => click end);
     MouseAction.x := Some (fst child.(Child.absolute_position) + fst offset)%Q;
     MouseAction.y := Some (snd child.(Child.absolute_position) + snd offset)%Q;
     MouseAction.repeat :=
       Some (match m.(MouseAction.repeat) with Some r => r | None => 1%N end);
     MouseAction.button :=
       Some (match m.(MouseAction.button) with Some b => b | None => LEFT end) |}.

(** No live label, no prefix, and the coordinates of the mouse action as
    the caller passed them. *)
Definition idle (x y : option Q) (k : N) (s : OverlayWindow) : Prop :=
  s.(hints) = [] /\ s.(hint_selector_state) = []
  /\ s.(mouse_action).(MouseAction.x) = x
  /\ s.(mouse_action).(MouseAction.y) = y
  /\ s.(exit_key) = k.

(** ** The earlier variant kept in [test.py] *)

(** [test.py] holds an earlier copy of the overlay.  It labels nothing (the
    keys of [hints] are the labels), its filter has other thresholds and no
    dedup step, and its backspace filters the live set again instead of
    going back to all the elements. *)
Module Legacy.

Definition clickable_roles : list str :=
  map pystr ["button"; "link"; "menuitem"; "tab"; "checkbox"; "radio button";
             "text field"; "entry"; "combo box"; "list item"; "tree item";
             "toolbar button"; "tool bar button"; "push button";
             "toggle button"; "menu item"]%string.

Definition skip_roles : list str :=
  map pystr ["separator"; "filler"; "scroll bar"; "status bar"; "tool tip";
             "border"; "frame"; "window"; "dialog"]%string.

(** One iteration of the loop of [filter_important_hints] of [test.py]. *)
Definition filter_body {U : Unicode} (self : OverlayWindow)
  (important_hints : dict str Child.t) (item : str * Child.t)
  : dict str Child.t :=
  let '(hint_key, child) := item in
  if Qltb child.(Child.width) 5 || Qltb child.(Child.height) 5
  then important_hints else
  let '(x_loc, y_loc) := child.(Child.relative_position) in
  if Qltb x_loc (- child.(Child.width)) || Qltb y_loc (- child.(Child.height))
  then important_hints else
  if Qltb self.(width) x_loc || Qltb self.(height) y_loc
  then important_hints else
  let element_role :=
    str_lower (match child.(Child.role) with Some r => r | None => [] end) in
  if existsb (fun role => str_contains element_role role) clickable_roles
  then dict_set str_eqb important_hints hint_key child else
  if existsb (fun role => str_contains element_role role) skip_roles
  then important_hints else
  if match child.(Child.name) with
     | Some n => nonempty n && nonempty (str_strip n)
     | None => false
     end
  then dict_set str_eqb important_hints hint_key child else
  if Qltb 20 child.(Child.width) && Qltb 15 child.(Child.height)
  then dict_set str_eqb important_hints hint_key child
  else important_hints.

Definition filter_important_hints {U : Unicode} (self : OverlayWindow)
  (hints : dict str Child.t) : dict str Child.t :=
  fold_left (filter_body self) hints [].

(** The backspace branch of [on_key_press] of [test.py]. *)
Definition backspace {U : Unicode} (self : OverlayWindow) : OverlayWindow :=
  if nonempty self.(hint_selector_state)
  then
    let self := set_hint_selector_state self (removelast self.(hint_selector_state)) in
    queue_draw (set_hints self (filter_important_hints self self.(hints)))
  else self.

(** [calculate_vimium_position] of [test.py]: the same anchor, clamped by
    comparisons instead of [max] and [min].  The sum [hint_x + hint_width]
    is exact here; the code rounds it to a double before comparing, so at
    the far edge the code can keep [hint_x] where this definition clamps.
    Nothing below depends on the point returned. *)
Definition calculate_vimium_position (self : OverlayWindow) (child : Child.t)
  (hint_width hint_height : Q) : Q * Q :=
  let '(x_loc, y_loc) := child.(Child.relative_position) in
  let hint_x := (x_loc - 5)%Q in
  let hint_y := (y_loc - 5)%Q in
  let hint_x :=
    if Qltb hint_x 0 then 0%Q
    else if Qltb self.(width) (hint_x + hint_width)
         then (self.(width) - hint_width)%Q
         else hint_x in
  let hint_y :=
    if Qltb hint_y 0 then 0%Q
    else if Qltb self.(height) (hint_y + hint_height)
         then (self.(height) - hint_height)%Q
         else hint_y in
  (hint_x, hint_y).

(** The test of [on_draw] of [test.py] on an element: a label is drawn only
    for an element in the visible area. *)
Definition visible (self : OverlayWindow) (child : Child.t) : bool :=
  let '(x_loc, y_loc) := child.(Child.relative_position) in
  negb (Qltb x_loc (- child.(Child.width)))
  && negb (Qltb y_loc (- child.(Child.height)))
  && Qltb x_loc self.(width)
  && Qltb y_loc self.(height).

(** One iteration of the loop of [on_draw] of [test.py]; the collision loop
    is the one of [overlay.py]. *)
Definition draw_body {U : Unicode} (self : OverlayWindow) (cr : Context)
  (acc : list Rect * dict str (Q * Q)) (item : str * Child.t)
  : list Rect * dict str (Q * Q) :=
  let '(drawn_positions, offsets) := acc in
  let '(hint_value, child) := item in
  let '(x_loc, y_loc) := child.(Child.relative_position) in
  if visible self child
  then
    let utf8 := if hint_upercase then str_upper hint_value else hint_value in
    let e := cr.(text_extents) utf8 in
    let hint_width := (e.(text_width) + hint_padding_x * 2)%Q in
    let '(hint_x, hint_y) :=
      calculate_vimium_position self child hint_width hint_height in
    let hint_y :=
      fold_left (avoid self hint_x hint_width hint_height) drawn_positions hint_y in
    (drawn_positions ++ [(hint_x, hint_y, hint_width, hint_height)],
     dict_set str_eqb offsets hint_value
       ((hint_x + hint_width / 2 - x_loc)%Q,
        (hint_y + hint_height / 2 - y_loc)%Q))
  else acc.

Definition drawn_rects {U : Unicode} (self : OverlayWindow) (cr : Context)
  : list Rect :=
  fst (fold_left (draw_body self cr) self.(hints) ([], self.(hints_drawn_offsets))).

Definition on_draw {U : Unicode} (self : OverlayWindow) (cr : Context)
  : OverlayWindow :=
  set_hints_drawn_offsets self
    (snd (fold_left (draw_body self cr) self.(hints) ([], self.(hints_drawn_offsets)))).

End Legacy.

(** ** Sample data *)

(** An element with no role and no name, in a window whose origin is at
    (100, 50) on the screen. *)
Definition element (x y w h : Q) : Child.t :=
  {| Child.relative_position := (x, y);
     Child.absolute_position := ((x + 100)%Q, (y + 50)%Q);
     Child.width := w; Child.height := h;
     Child.role := None; Child.name := None |}.

Definition sample_config : HintsConfig :=
  {| cfg_exit_key := 113 (* q *); cfg_hover_modifier := 4; cfg_grab_modifier := 8 |}.

(** [n] elements of 10 by 10 in a row, one per bucket, keyed e0, e1, ... *)
Definition row (n : nat) : dict str Child.t :=
  map (fun i => (pystr "e" ++ [N.of_nat i],
                 element (inject_Z (Z.of_nat (10 * i))) 20 10 10))
      (seq 0 n).

(** A blank window of the given size holding [hints] as its elements. *)
Definition blank (w h : Q) (hints : dict str Child.t) : OverlayWindow :=
  {| width := w; height := h; all_hints := hints; hints := [];
     hint_selector_state := []; mouse_action := MouseAction.empty;
     exit_key := 113; hover_modifier := 4; grab_modifier := 8;
     hints_drawn_offsets := []; queued_draws := 0 |}.

(** The overlay as the constructor leaves it. *)
Definition opened {U : Unicode} (w h : Q) (hints : dict str Child.t) : OverlayWindow :=
  match init 0 0 w h sample_config hints MouseAction.empty false with
  | Ok self => self
  | Raise _ => blank w h hints
  end.

(** A key press with no modifier held. *)
Definition plain_key (k : N) : EventKey :=
  {| keyval := k; key_lower := k; mods := 0 |}.

(** A renderer whose glyphs are 8 wide and 9 high. *)
Definition fixed_pitch : Context :=
  {| text_extents := fun s =>
       {| x_bearing := 0; y_bearing := (-9);
          text_width := inject_Z (Z.of_nat (8 * List.length s));
          text_height := 9 |} |}.

Fixpoint nodupb (l : list str) : bool :=
  match l with
  | [] => true
  | a :: l' => negb (existsb (str_eqb a) l') && nodupb l'
  end.

(** Three elements; the second shares the bucket of the first. *)
Definition stacked : dict str Child.t :=
  [(pystr "a", element 12 20 30 20);
   (pystr "b", element 14 21 25 18);
   (pystr "c", element 80 20 50 30)].

(** Two elements one above the other in a window 30 high. *)
Definition cramped : dict str Child.t :=
  [(pystr "a", element 50 10 10 10); (pystr "b", element 50 16 10 10)].

(** Three elements in a column near the bottom of a window 90 high. *)
Definition column : dict str Child.t :=
  [(pystr "a", element 50 55 10 10);
   (pystr "b", element 50 70 10 10);
   (pystr "c", element 50 75 10 10)].

(** Enough elements for labels of three letters: the last label, ASS, is
    the only one that does not start with S. *)
Definition crowd : dict str Child.t := row 197.

(** A single element of 4 by 4 is too small for the filter. *)
Definition speck : dict str Child.t := [(pystr "a", element 50 20 4 4)].

(** Three labelled elements, as [test.py] receives them, and the overlay
    once the key S has narrowed them to the two labels that start with S. *)
Definition lettered : dict str Child.t :=
  [(pystr "SA", element 10 20 30 20);
   (pystr "SD", element 60 20 30 20);
   (pystr "AF", element 110 20 30 20)].

Definition after_s : OverlayWindow :=
  set_hint_selector_state
    (set_hints (blank 200 90 lettered) (firstn 2 lettered)) (pystr "S").

Definition trio : dict str Child.t :=
  [(pystr "e0", element 10 20 30 20);
   (pystr "e1", element 60 20 25 18);
   (pystr "e2", element 110 20 50 30)].

(** * Further readings: labels as numbers, sub-dictionaries *)

(** [sub] is [full] with some entries left out, the others in their order. *)
Inductive subseq (A : Type) : list A -> list A -> Prop :=
| subseq_nil : subseq [] []
| subseq_skip x sub full : subseq sub full -> subseq sub (x :: full)
| subseq_keep x sub full : subseq sub full -> subseq (x :: sub) (x :: full).

(** The number [i] written with [l] digits in base 14, the digits being the
    characters of the alphabet. *)
Fixpoint digits_of (l i : nat) : str :=
  match l with
  | O => []
  | S l' => nth (i / alphabet_size ^ l') chars 0%N
            :: digits_of l' (i mod alphabet_size ^ l')
  end.

(** [d[k] = v] for each entry of a list, in order. *)
Definition set_all (V : Type) (o : dict str V) (kvs : dict str V) : dict str V :=
  fold_left (fun o kv => dict_set str_eqb o (fst kv) (snd kv)) kvs o.

(** The cache entries one draw pass writes, in order, given the rectangles
    [drawn] before it: for each label the offset of its rectangle's centre. *)
Fixpoint pass_writes {U : Unicode} (self : OverlayWindow) (cr : Context)
  (drawn : list Rect) (items : dict str Child.t) : dict str (Q * Q) :=
  match items with
  | [] => []
  | (key, child) :: rest =>
      let r := place self cr drawn key child in
      (key, centre_offset child r) :: pass_writes self cr (drawn ++ [r]) rest
  end.

(** The state in which [on_key_press] reaches the unique-match test: the
    qualifiers and a digit are recorded, a letter has narrowed the live
    set if it could. *)
Definition before_check {U : Unicode} (s : OverlayWindow) (event : EventKey)
  (ch : N) : OverlayWindow :=
  let s1 := set_mouse_action s (qualify s event) in
  let sa := if chr_isalpha ch then update_hints s1 [ch] else s1 in
  set_mouse_action sa (pending_action s event).



(** Some live label starts with the prefix. *)
Definition prefix_alive {U : Unicode} (s : OverlayWindow) : Prop :=
  exists key child,
    In (key, child) s.(hints)
    /\ startswith (normalize key) s.(hint_selector_state) = true.

(** What the filter of [test.py] keeps of an element. *)
Definition legacy_keeps {U : Unicode} (self : OverlayWindow) (child : Child.t) : bool :=
  let '(x_loc, y_loc) := child.(Child.relative_position) in
  let element_role :=
    str_lower (match child.(Child.role) with Some r => r | None => [] end) in
  negb (Qltb child.(Child.width) 5 || Qltb child.(Child.height) 5)
  && negb (Qltb x_loc (- child.(Child.width)) || Qltb y_loc (- child.(Child.height)))
  && negb (Qltb self.(width) x_loc || Qltb self.(height) y_loc)
  && (existsb (fun role => str_contains element_role role) Legacy.clickable_roles
      || negb (existsb (fun role => str_contains element_role role) Legacy.skip_roles)
         && (match child.(Child.name) with
             | Some n => nonempty n && nonempty (str_strip n)
             | None => false
             end
             || Qltb 20 child.(Child.width) && Qltb 15 child.(Child.height))).

(** ** The text of a label, the keyboard grab *)

(** The two font colours of the constructor (red, green, blue, alpha). *)
Definition hint_font : Q * Q * Q * Q :=
  ((188 # 1000)%Q, (145 # 1000)%Q, (20 # 1000)%Q, 1%Q).
Definition hint_pressed_font : Q * Q * Q * Q :=
  ((1 # 10)%Q, (1 # 10)%Q, (1 # 10)%Q, 1%Q).

(** One [move_to; set_source_rgba; show_text] of the draw loop. *)
Record TextRun := {
  run_x : Q;
  run_y : Q;
  run_ink : Q * Q * Q * Q;
  run_text : str
}.

(** The text calls of [on_draw] for the label [key] drawn in the box
    (x, y, w, h), in call order: the part of the label after the prefix,
    then the prefix, when the label starts with the prefix; the whole label
    otherwise.  [mw] is the first component of the extents of the prefix. *)
Definition on_draw_text {U : Unicode} (self : OverlayWindow) (cr : Context)
  (key : str) (box : Rect) : list TextRun :=
  let '(x, y, w, h) := box in
  let txt := if hint_upercase then str_upper key else key in
  let state := if hint_upercase then str_upper self.(hint_selector_state)
               else self.(hint_selector_state) in
  let e := cr.(text_extents) txt in
  let tx := (x + (w / 2) - (e.(text_width) / 2 + e.(x_bearing)))%Q in
  let ty := (y + (h / 2) - (e.(text_height) / 2 + e.(y_bearing)))%Q in
  if nonempty state && startswith txt state
  then
    let mw := (cr.(text_extents) state).(x_bearing) in
    let unmatched := skipn (List.length state) txt in
    (if nonempty unmatched
     then [{| run_x := (tx + mw)%Q; run_y := ty; run_ink := hint_font;
              run_text := unmatched |}]
     else [])
    ++ [{| run_x := tx; run_y := ty; run_ink := hint_pressed_font;
           run_text := state |}]
  else [{| run_x := tx; run_y := ty; run_ink := hint_font; run_text := txt |}].

(** The answers of [Gdk.keyboard_grab]. *)
Inductive GrabStatus :=
| SUCCESS | ALREADY_GRABBED | INVALID_TIME | NOT_VIEWABLE | FROZEN | FAILED.

Definition is_success (g : GrabStatus) : bool :=
  match g with SUCCESS => true | _ => false end.

(** The loop of [on_show]: [grab n] is the answer to the grab number [n];
    the result is the number of grabs made when the loop ends within
    [fuel] rounds, [attempt] grabs having been made before. *)
Fixpoint on_show (is_wayland : bool) (grab : nat -> GrabStatus)
  (attempt fuel : nat) : option nat :=
  match fuel with
  | O => None
  | S fuel' =>
      if negb is_wayland
      then if negb (is_success (grab attempt))
           then on_show is_wayland grab (S attempt) fuel'
           else Some (S attempt)
      else Some attempt
  end.

(** A key whose character is a letter and no digit, that normalizes to the
    character [c], and that is neither Escape, the exit key nor BackSpace. *)
Definition letter_key {U : Unicode} (exit : N) (event : EventKey) (c : N) : Prop :=
  event.(keyval) <> KEY_Escape
  /\ event.(keyval) <> KEY_BackSpace
  /\ event.(key_lower) <> exit
  /\ (event.(key_lower) <= 1114111)%N
  /\ chr_isalpha event.(key_lower) = true
  /\ chr_isdigit event.(key_lower) = false
  /\ normalize [event.(key_lower)] = [c].

(** The labels of [orig] are pairwise distinct, in normal form and of the
    length of [label]. *)
Definition fixed_labels {U : Unicode} (orig : dict str Child.t) (label : str) : Prop :=
  NoDup (keys orig)
  /\ (forall k, In k (keys orig) -> normalize k = k)
  /\ (forall k, In k (keys orig) -> List.length k = List.length label).

(** * Properties *)

(** ** Facts on strings and dictionaries *)

Lemma str_eqb_spec (a b : str) : reflect (a = b) (str_eqb a b).
Proof.
  revert b; induction a as [|x a IH]; intros [|y b]; simpl;
    try (constructor; congruence).
  destruct (N.eqb_spec x y) as [->|Hxy]; simpl.
  - destruct (IH b) as [->|Hab]; constructor; congruence.
  - constructor; congruence.
Qed.

Lemma str_eqb_refl (a : str) : str_eqb a a = true.
Proof. destruct (str_eqb_spec a a); congruence. Qed.

Lemma dict_set_fresh (V : Type) (d : dict str V) k v :
  ~ In k (keys d) -> dict_set str_eqb d k v = d ++ [(k, v)].
Proof.
  induction d as [|[k' v'] d IH]; simpl; intros Hk; [reflexivity|].
  destruct (str_eqb_spec k' k) as [->|_]; [tauto|].
  rewrite IH by tauto. reflexivity.
Qed.

(** ** The label generator yields the first [n] words *)

Section LabelFacts.

Lemma label_length_spec (count l0 : nat) :
  let r := label_length count l0 in
  l0 <= r /\ count <= alphabet_size ^ r /\ (forall l', l0 <= l' -> l' < r -> alphabet_size ^ l' < count).
Proof.
  funelim (label_length count l0); simpl.
  - clear Heqcall Heq. destruct H as (H1 & H2 & H3).
    repeat split; [lia | exact H2 |].
    intros l' Hl Hr.
    destruct (Nat.eq_dec l' length) as [->|Hne]; [assumption|].
    apply H3; lia.
  - repeat split; [lia | fold alphabet_size in n; lia | intros; lia].
Qed.

Lemma words_length (l : nat) : List.length (words l) = alphabet_size ^ l.
Proof.
  induction l as [|l IH]; [reflexivity|].
  rewrite Nat.pow_succ_r'. cbn [words].
  assert (G : forall cs, List.length (flat_map (fun c => map (cons c) (words l)) cs)
                         = List.length cs * alphabet_size ^ l).
  { induction cs as [|c cs IHc]; [reflexivity|].
    cbn [flat_map]. rewrite length_app, length_map, IHc, IH. simpl. lia. }
  apply G.
Qed.

Lemma words_each_length (l : nat) : Forall (fun w => List.length w = l) (words l).
Proof.
  induction l as [|l IH]; [repeat constructor|].
  cbn [words]. apply Forall_flat_map, Forall_forall. intros c _.
  apply Forall_map. revert IH; apply Forall_impl. intros w <-. reflexivity.
Qed.

Lemma words_complete (l : nat) (w : str) :
  In w (words l) <-> List.length w = l /\ Forall (fun c => In c chars) w.
Proof.
  revert w; induction l as [|l IH]; intros w.
  - simpl. split.
    + intros [<-|[]]. split; [reflexivity | constructor].
    + intros [Hl _]. destruct w; [now left | discriminate].
  - cbn [words]. rewrite in_flat_map. split.
    + intros (c & Hc & Hin). apply in_map_iff in Hin as (w' & <- & Hw').
      apply IH in Hw' as [Hl Hf]. split; [simpl; congruence | now constructor].
    + intros [Hl Hf]. destruct w as [|c w]; [discriminate|].
      inversion Hf; subst. exists c. split; [assumption|].
      apply in_map, IH. split; [simpl in Hl; congruence | assumption].
Qed.

Lemma chars_NoDup : NoDup chars.
Proof.
  apply (NoDup_map_inv N.to_nat). vm_compute.
  repeat (constructor; [simpl; intuition discriminate|]). constructor.
Qed.

Lemma words_NoDup (l : nat) : NoDup (words l).
Proof.
  induction l as [|l IH]; [repeat constructor; simpl; tauto|].
  cbn [words]. generalize chars_NoDup. generalize chars as cs.
  induction cs as [|c cs IHc]; intros Hnd; [constructor|].
  inversion Hnd as [|? ? Hc Hcs]; subst. cbn [flat_map].
  apply NoDup_app; [ | apply IHc; assumption | ].
  - apply Finite.Injective_map_NoDup; [intros x y; congruence | assumption].
  - intros w Hw Hw'. apply in_map_iff in Hw as (w1 & <- & _).
    apply in_flat_map in Hw' as (c' & Hc' & Hin).
    apply in_map_iff in Hin as (w2 & E & _). inversion E; subst. tauto.
Qed.

Lemma StronglySorted_app (A : Type) (R : A -> A -> Prop) (xs ys : list A) :
  StronglySorted R xs -> StronglySorted R ys ->
  (forall x y, In x xs -> In y ys -> R x y) ->
  StronglySorted R (xs ++ ys).
Proof.
  intros Hx Hy Hxy. induction Hx as [|x xs Hxs IH Hall]; [exact Hy|].
  simpl. constructor.
  - apply IH. intros a b Ha Hb. apply Hxy; [now right | exact Hb].
  - apply Forall_app. split; [exact Hall|].
    apply Forall_forall. intros b Hb. apply Hxy; [now left | exact Hb].
Qed.

Lemma StronglySorted_firstn (A : Type) (R : A -> A -> Prop) (k : nat) (xs : list A) :
  StronglySorted R xs -> StronglySorted R (firstn k xs).
Proof.
  intros Hx; revert k. induction Hx as [|x xs Hxs IH Hall]; intros [|k];
    simpl; try constructor.
  - apply IH.
  - apply Forall_forall. intros y Hy. apply (proj1 (Forall_forall _ _) Hall).
    rewrite <- (firstn_skipn k xs). apply in_or_app. now left.
Qed.

Lemma chars_ranked : StronglySorted (fun x y => rank chars x < rank chars y) chars.
Proof.
  repeat (constructor; [|repeat (constructor; [vm_compute; lia|]); constructor]).
  constructor.
Qed.

Lemma prefixed_sorted (ws : list str) (cs : str) :
  StronglySorted alpha_lt ws ->
  StronglySorted (fun x y => rank chars x < rank chars y) cs ->
  StronglySorted alpha_lt (flat_map (fun c => map (cons c) ws) cs).
Proof.
  intros Hws. induction cs as [|c cs IHc]; intros Hcs; [constructor|].
  inversion Hcs as [|? ? Hrest Hc]; subst. cbn [flat_map].
  apply StronglySorted_app; [ | apply IHc; exact Hrest | ].
  - clear - Hws. induction Hws as [|w ws Hws IHw Hall]; simpl; constructor;
      [exact IHw|].
    apply Forall_map. revert Hall. apply Forall_impl.
    intros w' Hw'. simpl. right. split; [reflexivity | exact Hw'].
  - intros a b Ha Hb. apply in_map_iff in Ha as (wa & <- & _).
    apply in_flat_map in Hb as (c' & Hc' & Hb).
    apply in_map_iff in Hb as (wb & <- & _).
    simpl. left. exact (proj1 (Forall_forall _ _) Hc c' Hc').
Qed.

(** The words of a length come in dictionary order. *)
Lemma words_sorted (l : nat) : StronglySorted alpha_lt (words l).
Proof.
  induction l as [|l IH]; [repeat constructor|].
  cbn [words]. apply prefixed_sorted; [exact IH | exact chars_ranked].
Qed.

End LabelFacts.

Lemma firstn_app_cut (A : Type) (k : nat) (xs ys : list A) :
  firstn k (xs ++ ys)
  = firstn k xs ++ firstn (k - List.length (firstn k xs)) ys.
Proof.
  rewrite firstn_app. f_equal.
  destruct (Nat.le_gt_cases (List.length xs) k) as [Hle|Hgt].
  - rewrite (@firstn_all2 _ k xs) by lia. reflexivity.
  - rewrite length_firstn, Nat.min_l by lia.
    replace (k - List.length xs) with 0 by lia.
    replace (k - k) with 0 by lia. reflexivity.
Qed.

(** The loop [for c in chars: if len(labels) < count: rec(p + c, l - 1)],
    run over any part [cs] of the alphabet. *)
Lemma rec_loop_spec (count l : nat) (p : str)
  (IH : forall q labels, List.length labels < count ->
        rec count l q labels
        = labels ++ firstn (count - List.length labels) (map (app q) (words l)))
  (cs : str) (labels : list str) :
  fold_left
    (fun labels c =>
       if List.length labels <? count then rec count l (p ++ [c]) labels else labels)
    cs labels
  = labels ++ firstn (count - List.length labels)
                (map (app p) (flat_map (fun c => map (cons c) (words l)) cs)).
Proof.
  revert labels; induction cs as [|c cs IHcs]; intros labels.
  - simpl. rewrite firstn_nil, app_nil_r. reflexivity.
  - cbn [fold_left flat_map]. rewrite map_app, firstn_app_cut, app_assoc.
    destruct (Nat.ltb_spec (List.length labels) count) as [Hlt|Hge].
    + rewrite IHcs, IH by assumption. rewrite map_map.
      rewrite (map_ext (fun w => p ++ c :: w) (app (p ++ [c])))
        by (intros w; rewrite <- app_assoc; reflexivity).
      rewrite length_app. do 2 f_equal. lia.
    + rewrite IHcs. replace (count - List.length labels) with 0 by lia.
      simpl. rewrite !app_nil_r. reflexivity.
Qed.

Lemma rec_spec (count l : nat) (p : str) (labels : list str) :
  List.length labels < count ->
  rec count l p labels
  = labels ++ firstn (count - List.length labels) (map (app p) (words l)).
Proof.
  revert p labels; induction l as [|l IH]; intros p labels Hlt.
  - simpl. destruct (count - List.length labels) as [|k] eqn:E; [lia|].
    simpl. rewrite app_nil_r, firstn_nil. reflexivity.
  - cbn [rec words]. apply rec_loop_spec. exact IH.
Qed.

(** The list [labels] the generator builds holds the first [count] words of
    the chosen length. *)
Lemma hint_labels_spec (count : nat) :
  hint_labels count = firstn count (words (label_length count 1)).
Proof.
  unfold hint_labels.
  destruct (Nat.eqb_spec (label_length count 1) 1) as [->|Hne].
  - rewrite <- firstn_map. f_equal. 
  - destruct (label_length_spec count 1) as (H1 & _ & H3).
    assert (Hc : 0 < count).
    { specialize (H3 1 (le_n _)). cbv zeta in *. lia. }
    rewrite rec_spec by assumption. simpl List.length. rewrite Nat.sub_0_r.
    rewrite (map_ext _ (fun w => w)) by reflexivity.
    rewrite map_id. reflexivity.
Qed.

Lemma hint_labels_length (count : nat) : List.length (hint_labels count) = count.
Proof.
  rewrite hint_labels_spec, length_firstn, words_length.
  destruct (label_length_spec count 1) as (_ & H2 & _). cbv zeta in H2. lia.
Qed.

Lemma NoDup_firstn (A : Type) (k : nat) (xs : list A) : NoDup xs -> NoDup (firstn k xs).
Proof.
  intros H. rewrite <- (firstn_skipn k xs) in H. now apply NoDup_app_remove_r in H.
Qed.

Lemma hint_labels_NoDup (count : nat) : NoDup (hint_labels count).
Proof. rewrite hint_labels_spec. apply NoDup_firstn, words_NoDup. Qed.

(** The dictionary comprehension pairs label [i] with the [i]-th child. *)
Lemma label_children_spec (labels : list str) (children : list Child.t) :
  forall i acc,
    i + List.length children <= List.length labels ->
    NoDup (keys acc ++ skipn i labels) ->
    label_children labels i children acc
    = Ok (acc ++ combine (skipn i labels) children).
Proof.
  induction children as [|child rest IH]; intros i acc Hlen Hnd.
  - simpl. rewrite combine_nil, app_nil_r. reflexivity.
  - simpl in Hlen. cbn [label_children].
    destruct (nth_error labels i) as [lab|] eqn:E;
      [| apply nth_error_None in E; lia].
    assert (Hs : skipn i labels = lab :: skipn (S i) labels).
    { clear - E. revert i E; induction labels as [|x xs IHx]; intros [|i] E;
        try discriminate; simpl in *; [congruence | auto]. }
    rewrite Hs in *. rewrite dict_set_fresh.
    + rewrite IH; [| lia |].
      * cbn [combine]. rewrite <- app_assoc. reflexivity.
      * unfold keys in *. rewrite map_app, <- app_assoc. exact Hnd.
    + apply NoDup_remove_2 in Hnd. intros Hin. apply Hnd, in_or_app. now left.
Qed.

Lemma keys_combine (A B : Type) (ks : list A) (vs : list B) :
  List.length ks = List.length vs -> keys (combine ks vs) = ks.
Proof.
  revert vs; induction ks as [|k ks IH]; intros [|v vs] E; try discriminate;
    [reflexivity|]. simpl in *. f_equal. apply IH. congruence.
Qed.

Lemma values_combine (A B : Type) (ks : list A) (vs : list B) :
  List.length ks = List.length vs -> values (combine ks vs) = vs.
Proof.
  revert vs; induction ks as [|k ks IH]; intros [|v vs] E; try discriminate;
    [reflexivity|]. simpl in *. f_equal. apply IH. congruence.
Qed.

Lemma generate_hint_labels_combine (hints : dict str Child.t) :
  generate_hint_labels hints
  = Ok (combine (hint_labels (List.length hints)) (values hints)).
Proof.
  unfold generate_hint_labels.
  rewrite label_children_spec.
  - reflexivity.
  - rewrite hint_labels_length. unfold values. rewrite length_map. lia.
  - simpl. apply hint_labels_NoDup.
Qed.

(** C1. For a mapping of [n] elements the generator returns the mapping that
    pairs, in insertion order, the elements with the first [n] words of
    length [L] in depth-first alphabet order; these [n] labels are pairwise
    distinct and all of length [L], where [L >= 1] is the least length with
    [14 ^ L >= n] (so [L = 1] when [n <= 14]); for [n = 0] the result is the
    empty mapping.  The words of length [L] are all the strings of that
    length over the alphabet, and they come in the dictionary order of the
    alphabet. *)
Theorem generate_hint_labels_first_words (hints : dict str Child.t) :
  let n := List.length hints in
  let L := label_length n 1 in
  let labels := firstn n (words L) in
  generate_hint_labels hints = Ok (combine labels (values hints))
  /\ keys (combine labels (values hints)) = labels
  /\ values (combine labels (values hints)) = values hints
  /\ List.length labels = n
  /\ NoDup labels
  /\ Forall (fun lab => List.length lab = L) labels
  /\ 1 <= L
  /\ n <= 14 ^ L
  /\ (forall L', 1 <= L' -> n <= 14 ^ L' -> L <= L')
  /\ (n <= 14 -> L = 1)
  /\ (n = 0 -> generate_hint_labels hints = Ok [])
  /\ StronglySorted alpha_lt labels
  /\ (forall w, In w (words L)
                <-> List.length w = L /\ Forall (fun c => In c chars) w).
Proof.
  intros n L labels.
  assert (Hlab : labels = hint_labels n) by (symmetry; apply hint_labels_spec).
  assert (Hlen : List.length labels = n) by (rewrite Hlab; apply hint_labels_length).
  assert (Hvals : List.length labels = List.length (values hints))
    by (unfold values; rewrite length_map; exact Hlen).
  destruct (label_length_spec n 1) as (H1 & H2 & H3). fold L in H1, H2, H3.
  change alphabet_size with 14 in H2, H3.
  assert (Hmin : forall L', 1 <= L' -> n <= 14 ^ L' -> L <= L').
  { intros L' HL' Hn. destruct (Nat.le_gt_cases L L') as [|Hgt]; [assumption|].
    specialize (H3 L' HL' Hgt). lia. }
  repeat match goal with |- _ /\ _ => split end.
  - rewrite Hlab. apply generate_hint_labels_combine.
  - apply keys_combine, Hvals.
  - apply values_combine, Hvals.
  - exact Hlen.
  - rewrite Hlab. apply hint_labels_NoDup.
  - apply Forall_forall. intros lab Hin.
    apply (proj1 (Forall_forall _ _) (words_each_length L)).
    rewrite <- (firstn_skipn n (words L)). apply in_or_app. now left.
  - exact H1.
  - exact H2.
  - exact Hmin.
  - intros Hn. specialize (Hmin 1 (le_n _)). rewrite Nat.pow_1_r in Hmin. lia.
  - intros Hn. rewrite generate_hint_labels_combine.
    fold n. rewrite Hn. destruct hints; [reflexivity | discriminate].
  - apply StronglySorted_firstn, words_sorted.
  - intros w. apply words_complete.
Qed.

(** ** The element filter as a selection of the first eligible element of
       each bucket *)

Section FilterSpec.

Context {U : Unicode}.

Lemma pos_eqb_spec (a b : Z * Z) : reflect (a = b) (pos_eqb a b).
Proof.
  destruct a as [a1 a2], b as [b1 b2]. unfold pos_eqb; simpl.
  destruct (Z.eqb_spec a1 b1), (Z.eqb_spec a2 b2); constructor; congruence.
Qed.

Lemma seen_mem_spec (k : Z * Z) (seen : list (Z * Z)) :
  reflect (In k seen) (seen_mem k seen).
Proof.
  unfold seen_mem. destruct (existsb (pos_eqb k) seen) eqn:E; constructor.
  - apply existsb_exists in E as (k' & Hin & Heq).
    destruct (pos_eqb_spec k k'); congruence.
  - intros Hin. assert (existsb (pos_eqb k) seen = true); [|congruence].
    apply existsb_exists. exists k. split; [assumption|].
    destruct (pos_eqb_spec k k); congruence.
Qed.

Lemma filter_body_eq (self : OverlayWindow) important_hints seen key child :
  filter_body self (important_hints, seen) (key, child)
  = if eligible self child && negb (seen_mem (bucket child) seen)
    then (dict_set str_eqb important_hints key child, bucket child :: seen)
    else (important_hints, seen).
Proof.
  unfold filter_body, eligible, bucket, seen_add.
  destruct (Child.relative_position child) as [x y].
  destruct (Qltb (Child.width child) 8 || Qltb (Child.height child) 8);
    [reflexivity|].
  destruct (Qltb x (- Child.width child) || Qltb y (- Child.height child)
            || Qltb (width self + Child.width child) x
            || Qltb (height self + Child.height child) y); [reflexivity|].
  destruct (existsb _ skip_keywords); [reflexivity|].
  cbn [negb andb].
  destruct (seen_mem _ seen); [rewrite andb_false_r; reflexivity|].
  rewrite andb_true_r.
  match goal with |- (if ?b then _ else _) = _ => destruct b end; reflexivity.
Qed.

Lemma filter_fold (self : OverlayWindow) (items : dict str Child.t) :
  forall important_hints seen,
    NoDup (keys important_hints ++ keys items) ->
    fold_left (filter_body self) items (important_hints, seen)
    = (important_hints ++ survivors self seen items, seen_after self seen items).
Proof.
  induction items as [|[key child] rest IH]; intros ih seen Hnd.
  - simpl. rewrite app_nil_r. reflexivity.
  - cbn [fold_left survivors seen_after]. rewrite filter_body_eq.
    simpl in Hnd.
    destruct (eligible self child && negb (seen_mem (bucket child) seen)).
    + rewrite dict_set_fresh.
      * rewrite IH; [rewrite <- app_assoc; reflexivity|].
        unfold keys in *. rewrite map_app, <- app_assoc. exact Hnd.
      * apply NoDup_remove_2 in Hnd. intros Hin. apply Hnd, in_or_app. now left.
    + apply IH. apply NoDup_remove_1 in Hnd. exact Hnd.
Qed.

Lemma filter_important_hints_survivors (self : OverlayWindow) (hints : dict str Child.t) :
  NoDup (keys hints) ->
  filter_important_hints self hints = survivors self [] hints.
Proof.
  intros Hnd. unfold filter_important_hints. rewrite filter_fold; [reflexivity|].
  exact Hnd.
Qed.

Lemma survivors_incl (self : OverlayWindow) (items : dict str Child.t) :
  forall seen kv, In kv (survivors self seen items) -> In kv items.
Proof.
  induction items as [|[key child] rest IH]; intros seen kv; [tauto|].
  cbn [survivors].
  destruct (eligible self child && negb (seen_mem (bucket child) seen)).
  - intros [<-|Hin]; [now left | right; eauto].
  - intros Hin. right; eauto.
Qed.

Lemma survivors_keys_NoDup (self : OverlayWindow) (items : dict str Child.t) :
  forall seen, NoDup (keys items) -> NoDup (keys (survivors self seen items)).
Proof.
  induction items as [|[key child] rest IH]; intros seen Hnd; [constructor|].
  cbn [survivors]. inversion Hnd as [|? ? Hk Hrest]; subst.
  destruct (eligible self child && negb (seen_mem (bucket child) seen)); [|auto].
  simpl. constructor; [|auto].
  intros Hin. apply Hk. apply in_map_iff in Hin as ([k c] & Hkc & Hin).
  simpl in Hkc; subst. apply survivors_incl in Hin.
  change key with (fst (key, c)). now apply in_map.
Qed.

Lemma survivors_eligible (self : OverlayWindow) (items : dict str Child.t) :
  forall seen key child,
    In (key, child) (survivors self seen items) -> eligible self child = true.
Proof.
  induction items as [|[k c] rest IH]; intros seen key child; [simpl; tauto|].
  cbn [survivors].
  destruct (eligible self c && negb (seen_mem (bucket c) seen)) eqn:E; [|eauto].
  intros [Heq|Hin]; [|eauto].
  inversion Heq; subst. apply andb_true_iff in E. tauto.
Qed.

(** The buckets of the survivors are pairwise distinct and avoid [seen]. *)
Lemma survivors_buckets (self : OverlayWindow) (items : dict str Child.t) :
  forall seen,
    NoDup (map bucket (values (survivors self seen items)))
    /\ (forall b, In b (map bucket (values (survivors self seen items))) ->
                  ~ In b seen).
Proof.
  induction items as [|[key child] rest IH]; intros seen.
  - simpl. split; [constructor | tauto].
  - cbn [survivors].
    destruct (eligible self child && negb (seen_mem (bucket child) seen)) eqn:E.
    + destruct (IH (bucket child :: seen)) as [Hnd Hout].
      apply andb_true_iff in E as [_ E]. apply negb_true_iff in E.
      destruct (seen_mem_spec (bucket child) seen) as [|Hb]; [discriminate|].
      simpl. split.
      * constructor; [|exact Hnd]. intros Hin. apply (Hout _ Hin). now left.
      * intros b [<-|Hin]; [exact Hb|]. intros Hs. apply (Hout _ Hin). now right.
    + apply IH.
Qed.

(** A list of eligible elements with fresh, pairwise distinct buckets is
    kept whole. *)
Lemma survivors_fixed (self : OverlayWindow) (items : dict str Child.t) :
  forall seen,
    Forall (fun kv => eligible self (snd kv) = true) items ->
    NoDup (map bucket (values items)) ->
    (forall b, In b (map bucket (values items)) -> ~ In b seen) ->
    survivors self seen items = items.
Proof.
  induction items as [|[key child] rest IH]; intros seen Hel Hnd Hout;
    [reflexivity|].
  cbn [survivors]. inversion Hel as [|? ? He Hrest]; subst. simpl in He.
  simpl in Hnd, Hout. inversion Hnd as [|? ? Hb Hnd']; subst.
  rewrite He. destruct (seen_mem_spec (bucket child) seen) as [Hin|_].
  - exfalso. apply (Hout (bucket child)); [now left | exact Hin].
  - simpl. f_equal. apply IH; [assumption | assumption |].
    intros b Hin [<-|Hs]; [now apply Hb | apply (Hout b); [now right | exact Hs]].
Qed.

(** The buckets taken after a pass over [items]: those taken before and
    those of the eligible elements met. *)
Lemma seen_after_spec (self : OverlayWindow) (items : dict str Child.t) :
  forall seen b,
    In b (seen_after self seen items)
    <-> In b seen
        \/ exists key child, In (key, child) items
                             /\ eligible self child = true /\ bucket child = b.
Proof.
  induction items as [|[k c] rest IH]; intros seen b.
  - simpl. split; [tauto | intros [H|(? & ? & [] & _)]; exact H].
  - cbn [seen_after].
    destruct (eligible self c) eqn:He; simpl.
    + destruct (seen_mem_spec (bucket c) seen) as [Hin|Hnin]; simpl; rewrite IH.
      * split.
        -- intros [H|(k' & c' & H1 & H2 & H3)]; [now left|].
           right. exists k', c'. tauto.
        -- intros [H|(k' & c' & [Heq|H1] & H2 & H3)]; [now left | |].
           ++ inversion Heq; subst. now left.
           ++ right. exists k', c'. tauto.
      * split.
        -- intros [[<-|H]|(k' & c' & H1 & H2 & H3)].
           ++ right. exists k, c. tauto.
           ++ now left.
           ++ right. exists k', c'. tauto.
        -- intros [H|(k' & c' & [Heq|H1] & H2 & H3)].
           ++ left. now right.
           ++ inversion Heq; subst. left. now left.
           ++ right. exists k', c'. tauto.
    + rewrite IH. split.
      * intros [H|(k' & c' & H1 & H2 & H3)]; [now left|].
        right. exists k', c'. tauto.
      * intros [H|(k' & c' & [Heq|H1] & H2 & H3)]; [now left | |].
        -- inversion Heq; subst. congruence.
        -- right. exists k', c'. tauto.
Qed.

Lemma survivors_app (self : OverlayWindow) (pre post : dict str Child.t) :
  forall seen,
    survivors self seen (pre ++ post)
    = survivors self seen pre ++ survivors self (seen_after self seen pre) post.
Proof.
  induction pre as [|[k c] pre IH]; intros seen; [reflexivity|].
  cbn [app survivors seen_after].
  destruct (eligible self c && negb (seen_mem (bucket c) seen)).
  - cbn [app]. f_equal. apply IH.
  - apply IH.
Qed.

End FilterSpec.

Lemma nodupb_sound (l : list str) : nodupb l = true -> NoDup l.
Proof.
  induction l as [|a l IH]; simpl; intros H; [constructor|].
  apply andb_true_iff in H as [Ha Hl]. constructor; [|auto].
  intros Hin. apply negb_true_iff in Ha.
  assert (existsb (str_eqb a) l = true); [|congruence].
  apply existsb_exists. exists a. split; [assumption | apply str_eqb_refl].
Qed.

Section FilterClaims.

Context {U : Unicode}.

(** C5. The element filter is idempotent: with the bounds of the overlay
    fixed, filtering the output of the filter returns that output. *)
Theorem filter_important_hints_idempotent (self : OverlayWindow)
  (hints : dict str Child.t) :
  NoDup (keys hints) ->
  filter_important_hints self (filter_important_hints self hints)
  = filter_important_hints self hints.
Proof.
  intros Hnd.
  rewrite (filter_important_hints_survivors self Hnd).
  rewrite filter_important_hints_survivors
    by (apply survivors_keys_NoDup; exact Hnd).
  destruct (survivors_buckets self hints []) as [Hb _].
  apply survivors_fixed.
  - apply Forall_forall. intros [k c] Hin. simpl.
    exact (survivors_eligible Hin).
  - exact Hb.
  - intros b _ [].
Qed.

(** C6. No two elements that survive the filter share the bucket
    (round(x/10), round(y/10)); an element survives exactly when it passes
    the other tests of the filter and no element before it in iteration
    order that passes them lies in its bucket, so the first such element of
    a bucket is the one kept. *)
Theorem filter_important_hints_dedup (self : OverlayWindow)
  (hints : dict str Child.t) :
  NoDup (keys hints) ->
  NoDup (map bucket (values (filter_important_hints self hints)))
  /\ (forall pre key child post,
        hints = pre ++ (key, child) :: post ->
        (In (key, child) (filter_important_hints self hints)
         <-> eligible self child = true
             /\ forall key' child',
                  In (key', child') pre -> eligible self child' = true ->
                  bucket child' <> bucket child)).
Proof.
  intros Hnd. rewrite (filter_important_hints_survivors self Hnd). split.
  - apply survivors_buckets.
  - intros pre key child post ->.
    rewrite survivors_app. cbn [survivors].
    assert (Hpre : ~ In (key, child) (survivors self [] pre)).
    { intros Hin. apply survivors_incl in Hin.
      unfold keys in Hnd. rewrite map_app in Hnd. simpl in Hnd.
      apply NoDup_remove_2 in Hnd. apply Hnd, in_or_app. left.
      change key with (fst (key, child)). now apply in_map. }
    assert (Hpost : forall seen, ~ In (key, child) (survivors self seen post)).
    { intros seen Hin. apply survivors_incl in Hin.
      unfold keys in Hnd. rewrite map_app in Hnd. simpl in Hnd.
      apply NoDup_app_remove_l in Hnd. inversion Hnd as [|? ? Hk _]; subst.
      apply Hk. change key with (fst (key, child)). now apply in_map. }
    destruct (eligible self child) eqn:He; simpl.
    + destruct (seen_mem_spec (bucket child) (seen_after self [] pre)) as [Hs|Hs];
        simpl.
      * apply seen_after_spec in Hs as [[]|(k' & c' & H1 & H2 & H3)].
        split.
        -- intros Hin. apply in_app_or in Hin as [Hin|Hin]; [tauto|].
           exfalso. exact (Hpost _ Hin).
        -- intros [_ Hall]. exfalso. exact (Hall k' c' H1 H2 H3).
      * split.
        -- intros _. split; [reflexivity|].
           intros k' c' H1 H2 H3. apply Hs, seen_after_spec. right.
           exists k', c'. tauto.
        -- intros _. apply in_or_app. right. now left.
    + split.
      * intros Hin. apply in_app_or in Hin as [Hin|Hin]; [tauto|].
        exfalso. exact (Hpost _ Hin).
      * intros [Hf _]. discriminate.
Qed.

End FilterClaims.

Lemma filter_important_hints_idempotent_witness :
  NoDup (keys stacked)
  /\ filter_important_hints (blank 200 100 stacked)
       (filter_important_hints (blank 200 100 stacked) stacked)
     = filter_important_hints (blank 200 100 stacked) stacked.
Proof.
  split.
  - apply nodupb_sound. vm_compute. reflexivity.
  - apply filter_important_hints_idempotent.
    apply nodupb_sound. vm_compute. reflexivity.
Defined.

Lemma filter_important_hints_dedup_witness :
  let self := blank 200 100 stacked in
  NoDup (keys stacked)
  /\ NoDup (map bucket (values (filter_important_hints self stacked)))
  /\ (forall pre key child post,
        stacked = pre ++ (key, child) :: post ->
        (In (key, child) (filter_important_hints self stacked)
         <-> eligible self child = true
             /\ forall key' child',
                  In (key', child') pre -> eligible self child' = true ->
                  bucket child' <> bucket child)).
Proof.
  intros self.
  assert (Hnd : NoDup (keys stacked))
    by (apply nodupb_sound; vm_compute; reflexivity).
  split; [exact Hnd|].
  exact (@filter_important_hints_dedup ascii_tables self stacked Hnd).
Defined.

(** The second element of [stacked] falls in the bucket of the first and is
    dropped. *)
Example filter_stacked :
  keys (filter_important_hints (blank 200 100 stacked) stacked)
  = [pystr "a"; pystr "c"].
Proof. vm_compute. reflexivity. Qed.

(** ** Layout: the collision pass *)

Lemma Qltb_spec (x y : Q) : reflect (x < y)%Q (Qltb x y).
Proof.
  unfold Qltb. destruct (Qle_bool y x) eqn:E; constructor.
  - apply Qle_bool_iff in E. apply Qle_not_lt. exact E.
  - apply Qnot_le_lt. intros Hle. apply Qle_bool_iff in Hle. congruence.
Qed.

Lemma overlaps_spec (x y w h : Q) (dx dy dw dh : Q) :
  reflect (overlaps x y w h (dx, dy, dw, dh))
          (Qltb x (dx + dw) && Qltb dx (x + w) && Qltb y (dy + dh) && Qltb dy (y + h)).
Proof.
  unfold overlaps.
  destruct (Qltb_spec x (dx + dw)), (Qltb_spec dx (x + w)),
           (Qltb_spec y (dy + dh)), (Qltb_spec dy (y + h));
    constructor; tauto.
Qed.

Section LayoutFacts.

Context {U : Unicode}.

Lemma avoid_pass_resolved (self : OverlayWindow) (x w h : Q) (drawn : list Rect) :
  forall y, resolved self.(height) x w h drawn y (fold_left (avoid self x w h) drawn y).
Proof.
  induction drawn as [|[[[dx dy] dw] dh] ds IH]; intros y; [constructor|].
  cbn [fold_left]. unfold avoid at 2.
  destruct (overlaps_spec x y w h dx dy dw dh) as [Ho|Ho].
  - destruct (Qltb_spec (height self) (dy + dh + 2 + h)) as [Hb|Hb].
    + apply resolved_up; [exact Ho | exact Hb | apply IH].
    + apply resolved_down; [exact Ho | exact Hb | apply IH].
  - apply resolved_clear; [exact Ho | apply IH].
Qed.

Lemma resolved_functional (H x w h : Q) (ds : list Rect) (y y1 y2 : Q) :
  resolved H x w h ds y y1 -> resolved H x w h ds y y2 -> y1 = y2.
Proof.
  intros R1; revert y2; induction R1; intros y2 R2; inversion R2; subst;
    try tauto; auto.
Qed.

(** The draw loop appends one rectangle per label, placed against the
    rectangles that precede it. *)
Lemma draw_body_fst (self : OverlayWindow) (cr : Context) drawn offsets key child :
  fst (draw_body self cr (drawn, offsets) (key, child))
  = drawn ++ [place self cr drawn key child].
Proof.
  unfold draw_body. destruct (Child.relative_position child) as [x0 y0].
  destruct (place self cr drawn key child) as [[[x y] w] h]. reflexivity.
Qed.

End LayoutFacts.

(** ** Layout: staying within the overlay *)

Lemma clamp_bounds (v hi : Q) :
  (0 <= hi)%Q ->
  (0 <= py_max 0 (py_min v hi) /\ py_max 0 (py_min v hi) <= hi)%Q.
Proof.
  intros Hhi. unfold py_max, py_min.
  destruct (Qltb_spec hi v); destruct (Qltb_spec 0 hi); try lra.
  - destruct (Qltb_spec 0 v); lra.
  - destruct (Qltb_spec 0 v); lra.
Qed.

Section LayoutBounds.

Context {U : Unicode}.

Lemma avoid_keeps_y (self : OverlayWindow) (x w : Q) (d : Rect) (y : Q) :
  (43 <= self.(height))%Q ->
  well_placed self d ->
  (0 <= y /\ y + hint_height <= self.(height))%Q ->
  (0 <= avoid self x w hint_height y d
   /\ avoid self x w hint_height y d + hint_height <= self.(height))%Q.
Proof.
  destruct d as [[[dx dy] dw] dh]. unfold well_placed, in_bounds, avoid.
  cbn [snd]. unfold hint_height. intros HH [(Hx & Hy & Hw & Hh) ->] [Hy0 Hy1].
  destruct (Qltb x (dx + dw) && Qltb dx (x + w) && Qltb y (dy + 13) && Qltb dy (y + 13));
    [|lra].
  destruct (Qltb_spec (height self) (dy + 13 + 2 + 13)); lra.
Qed.

Lemma avoid_pass_keeps_y (self : OverlayWindow) (x w : Q) (drawn : list Rect) :
  (43 <= self.(height))%Q ->
  Forall (well_placed self) drawn ->
  forall y,
    (0 <= y /\ y + hint_height <= self.(height))%Q ->
    (0 <= fold_left (avoid self x w hint_height) drawn y
     /\ fold_left (avoid self x w hint_height) drawn y + hint_height
        <= self.(height))%Q.
Proof.
  intros HH Hd. induction Hd as [|d ds Hgood _ IH]; intros y Hy; [exact Hy|].
  cbn [fold_left]. apply IH. apply avoid_keeps_y; assumption.
Qed.

Lemma place_well_placed (self : OverlayWindow) (cr : Context)
  (drawn : list Rect) (key : str) (child : Child.t) :
  (43 <= self.(height))%Q ->
  ((cr.(text_extents) (str_upper key)).(text_width) + 2 * hint_padding_x
   <= self.(width))%Q ->
  Forall (well_placed self) drawn ->
  well_placed self (place self cr drawn key child).
Proof.
  intros HH HW Hd. unfold place, calculate_vimium_position.
  cbn [hint_upercase].
  destruct (Child.relative_position child) as [x0 y0].
  set (w := (text_width (text_extents cr (str_upper key)) + 2 * hint_padding_x)%Q) in *.
  destruct (clamp_bounds (x0 - 5) (hi := width self - w)) as [Hx0 Hx1]; [lra|].
  destruct (clamp_bounds (y0 - 5) (hi := height self - hint_height)) as [Hy0 Hy1];
    [unfold hint_height; lra|].
  destruct (@avoid_pass_keeps_y self
              (py_max 0 (py_min (x0 - 5) (width self - w))) w drawn HH Hd
              (py_max 0 (py_min (y0 - 5) (height self - hint_height))))
    as [Ha Hb]; [lra|].
  split; [|reflexivity]. unfold in_bounds. repeat split; lra.
Qed.

Lemma draw_loop_well_placed (self : OverlayWindow) (cr : Context)
  (items : dict str Child.t) :
  (43 <= self.(height))%Q ->
  (forall key child, In (key, child) items ->
     ((cr.(text_extents) (str_upper key)).(text_width) + 2 * hint_padding_x
      <= self.(width))%Q) ->
  forall acc,
    Forall (well_placed self) (fst acc) ->
    Forall (well_placed self) (fst (fold_left (draw_body self cr) items acc))
    /\ List.length (fst (fold_left (draw_body self cr) items acc))
       = List.length (fst acc) + List.length items.
Proof.
  intros HH. induction items as [|[key child] rest IH]; intros HW acc Hacc.
  - simpl. split; [exact Hacc | lia].
  - cbn [fold_left]. destruct acc as [drawn offsets].
    destruct (IH (fun k c Hin => HW k c (or_intror Hin))
                 (draw_body self cr (drawn, offsets) (key, child))) as [H1 H2].
    + rewrite draw_body_fst. apply Forall_app. split; [exact Hacc|].
      constructor; [|constructor].
      apply place_well_placed;
        [exact HH | apply (HW key child); now left | exact Hacc].
    + split; [exact H1|]. rewrite H2, draw_body_fst, length_app. simpl. lia.
Qed.

(** C7 (amended). When the overlay is at least 43 high and every label box
    (measured text width plus the two paddings) is at most as wide as the
    overlay, every label of a draw pass gets a rectangle, and that
    rectangle, after base positioning, clamping and the collision pass, has
    non-negative x and y and ends within the overlay's width and height,
    wherever the element lies. *)
Theorem drawn_rects_in_bounds (self : OverlayWindow) (cr : Context) :
  (43 <= self.(height))%Q ->
  (forall key child, In (key, child) self.(hints) ->
     ((cr.(text_extents) (str_upper key)).(text_width) + 2 * hint_padding_x
      <= self.(width))%Q) ->
  List.length (drawn_rects self cr) = List.length self.(hints)
  /\ forall i r, nth_error (drawn_rects self cr) i = Some r -> in_bounds self r.
Proof.
  intros HH HW.
  destruct (draw_loop_well_placed (items := hints self) HH HW
              (acc := ([], hints_drawn_offsets self))) as [H1 H2];
    [constructor|].
  split; [exact H2|].
  intros i r Hi. apply nth_error_In in Hi.
  exact (proj1 (proj1 (Forall_forall _ _) H1 r Hi)).
Qed.

End LayoutBounds.

(** C7, at a concrete input: in a window of 100 by 30 the label of the
    second of two stacked elements is pushed above the first one, to
    y = -10. *)
Lemma cramped_layout_out_of_bounds :
  init 0 0 100 30 sample_config cramped MouseAction.empty false
  = Ok (opened 100 30 cramped)
  /\ ~ layout_claim (opened 100 30 cramped) fixed_pitch.
Proof.
  split; [vm_compute; reflexivity|].
  intros Hclaim.
  pose (r := nth 1 (drawn_rects (opened 100 30 cramped) fixed_pitch) (0, 0, 0, 0)%Q).
  assert (Hin : in_bounds (opened 100 30 cramped) r).
  { apply (Hclaim 1 (pystr "A") (element 50 16 10 10) r).
    - vm_compute. reflexivity.
    - vm_compute. repeat split; discriminate.
    - vm_compute. reflexivity. }
  vm_compute in Hin. destruct Hin as (_ & Hy & _). apply Hy. reflexivity.
Qed.

Lemma drawn_rects_in_bounds_witness :
  let s := opened 200 90 column in
  (43 <= s.(height))%Q
  /\ List.length (drawn_rects s fixed_pitch) = List.length s.(hints)
  /\ forall i r, nth_error (drawn_rects s fixed_pitch) i = Some r -> in_bounds s r.
Proof.
  intros s.
  assert (HH : (43 <= s.(height))%Q) by (vm_compute; discriminate).
  split; [exact HH|].
  apply (@drawn_rects_in_bounds ascii_tables s fixed_pitch HH).
  intros key child Hin.
  assert (E : List.length key = 1).
  { vm_compute in Hin.
    destruct Hin as [E|[E|[E|[]]]]; inversion E; reflexivity. }
  destruct key as [|c [|? ?]]; discriminate.
Defined.

(** ** Layout: each label is placed against the rectangles before it *)

Section DrawPass.

Context {U : Unicode}.

Lemma draw_loop_fst_app (self : OverlayWindow) (cr : Context)
  (pre post : dict str Child.t) (acc : list Rect * dict str (Q * Q)) :
  exists tail,
    fst (fold_left (draw_body self cr) (pre ++ post) acc)
    = fst (fold_left (draw_body self cr) pre acc) ++ tail
    /\ List.length tail = List.length post
    /\ (forall key child rest, post = (key, child) :: rest ->
          nth_error tail 0
          = Some (place self cr (fst (fold_left (draw_body self cr) pre acc))
                        key child)).
Proof.
  rewrite fold_left_app.
  generalize (fold_left (draw_body self cr) pre acc) as mid. clear pre acc.
  induction post as [|[key child] rest IH]; intros [drawn offsets].
  - exists []. simpl. rewrite app_nil_r. repeat split. intros; discriminate.
  - cbn [fold_left].
    destruct (IH (draw_body self cr (drawn, offsets) (key, child)))
      as (tail & E & Hlen & _).
    rewrite draw_body_fst in E.
    exists (place self cr drawn key child :: tail). repeat split.
    + rewrite E, <- app_assoc. reflexivity.
    + simpl. congruence.
    + intros k c r Heq. inversion Heq; subst. reflexivity.
Qed.

Lemma draw_loop_length (self : OverlayWindow) (cr : Context)
  (items : dict str Child.t) :
  forall acc,
    List.length (fst (fold_left (draw_body self cr) items acc))
    = List.length (fst acc) + List.length items.
Proof.
  induction items as [|[key child] rest IH]; intros [drawn offsets];
    [simpl; lia|].
  cbn [fold_left]. rewrite IH, draw_body_fst, length_app. simpl. lia.
Qed.

(** The rectangle of the label at position [length pre] of the live set is
    [place] applied to the rectangles of the labels before it. *)
Lemma drawn_rects_nth (self : OverlayWindow) (cr : Context)
  (pre post : dict str Child.t) (key : str) (child : Child.t) :
  self.(hints) = pre ++ (key, child) :: post ->
  let before := firstn (List.length pre) (drawn_rects self cr) in
  List.length before = List.length pre
  /\ nth_error (drawn_rects self cr) (List.length pre)
     = Some (place self cr before key child).
Proof.
  intros Hh. cbv zeta. unfold drawn_rects. rewrite Hh.
  destruct (draw_loop_fst_app self cr pre ((key, child) :: post)
              ([], hints_drawn_offsets self)) as (tail & E & Hlen & Hhead).
  pose proof (draw_loop_length self cr pre ([], hints_drawn_offsets self)) as Hpre.
  simpl in Hpre. rewrite E.
  assert (Hb : firstn (List.length pre)
                 (fst (fold_left (draw_body self cr) pre ([], hints_drawn_offsets self))
                  ++ tail)
               = fst (fold_left (draw_body self cr) pre ([], hints_drawn_offsets self))).
  { rewrite firstn_app, Hpre, Nat.sub_diag, firstn_O, app_nil_r.
    apply firstn_all2. lia. }
  rewrite Hb. split; [exact Hpre|].
  rewrite nth_error_app2 by lia. rewrite Hpre, Nat.sub_diag.
  apply (Hhead key child post eq_refl).
Qed.

(** C8. In a draw pass the candidate rectangle of a label starts from its
    clamped base position and visits the rectangles placed before it once,
    in placement order: when it overlaps one of them under the axis-aligned
    test its y becomes other.y + other.height + 2, or other.y - height - 2
    when that would pass the overlay's height.  The visit is not repeated:
    in the sample column the third label ends on top of the first. *)
Theorem collision_pass_single (self : OverlayWindow) (cr : Context) :
  (forall x w h drawn y,
     resolved self.(height) x w h drawn y (fold_left (avoid self x w h) drawn y))
  /\ (forall x w h drawn y y1 y2,
        resolved self.(height) x w h drawn y y1 ->
        resolved self.(height) x w h drawn y y2 -> y1 = y2)
  /\ (forall pre key child post,
        self.(hints) = pre ++ (key, child) :: post ->
        let before := firstn (List.length pre) (drawn_rects self cr) in
        let w := ((cr.(text_extents) (normalize key)).(text_width)
                  + 2 * hint_padding_x)%Q in
        let base := calculate_vimium_position self child w hint_height in
        exists y',
          nth_error (drawn_rects self cr) (List.length pre)
          = Some (fst base, y', w, hint_height)
          /\ resolved self.(height) (fst base) w hint_height before (snd base) y')
  /\ (let placed :=
        drawn_rects (U := ascii_tables)
          (opened (U := ascii_tables) 200 90 column) fixed_pitch in
      exists a x y w h,
        nth_error placed 0 = Some a
        /\ nth_error placed 2 = Some (x, y, w, h)
        /\ overlaps x y w h a).
Proof.
  split; [intros; apply avoid_pass_resolved|].
  split; [intros x w h drawn y y1 y2; apply resolved_functional|].
  split.
  - intros pre key child post Hh. cbv zeta.
    destruct (drawn_rects_nth cr Hh) as [_ Hn]. cbv zeta in Hn.
    rewrite Hn. unfold place, normalize.
    destruct (calculate_vimium_position self child _ hint_height) as [x y].
    eexists. split; [reflexivity | apply avoid_pass_resolved].
  - exists (45, 50, 14, 13)%Q, 45%Q, 50%Q, 14%Q, 13%Q.
    split; [vm_compute; reflexivity|].
    split; [vm_compute; reflexivity|].
    vm_compute. repeat split; reflexivity.
Qed.

End DrawPass.

(** ** The selection state machine: what a signal can change *)

Lemma nonempty_spec (A : Type) (l : list A) : reflect (l <> []) (nonempty l).
Proof. destruct l; constructor; congruence. Qed.

Lemma set_mouse_action_same (s : OverlayWindow) :
  set_mouse_action s s.(mouse_action) = s.
Proof. destruct s; reflexivity. Qed.

Section Machine.

Context {U : Unicode}.

Lemma filter_body_frame (s s' : OverlayWindow) acc item :
  s'.(width) = s.(width) -> s'.(height) = s.(height) ->
  filter_body s' acc item = filter_body s acc item.
Proof. intros Hw Hh. unfold filter_body. rewrite Hw, Hh. reflexivity. Qed.

(** The filter reads the overlay's width and height only. *)
Lemma filter_important_hints_frame (s s' : OverlayWindow) (d : dict str Child.t) :
  s'.(width) = s.(width) -> s'.(height) = s.(height) ->
  filter_important_hints s' d = filter_important_hints s d.
Proof.
  intros Hw Hh. unfold filter_important_hints. f_equal.
  generalize (@nil (list N * Child.t), @nil (Z * Z)).
  induction d as [|item d IH]; intros acc; [reflexivity|].
  cbn [fold_left]. rewrite (filter_body_frame acc item Hw Hh). apply IH.
Qed.

(** [check_unique] touches the mouse action only. *)
Lemma check_unique_state (s : OverlayWindow) :
  exists m, state_of (check_unique s) = set_mouse_action s m.
Proof.
  unfold check_unique.
  destruct (hints s) as [|[hint child] [|? ?]];
    try (exists (mouse_action s); rewrite set_mouse_action_same; reflexivity).
  destruct (_ || _);
    [|exists (mouse_action s); rewrite set_mouse_action_same; reflexivity].
  unfold resolve. destruct (Child.absolute_position child) as [x_abs y_abs].
  destruct (dict_get str_eqb (hints_drawn_offsets s) hint) as [[x_off y_off]|].
  - eexists. reflexivity.
  - exists (mouse_action s). rewrite set_mouse_action_same. reflexivity.
Qed.

Lemma update_hints_step (s : OverlayWindow) (next_char : str) (event : EventKey) :
  frame s (update_hints s next_char)
  /\ selection_step event s (update_hints s next_char)
  /\ (update_hints s next_char).(mouse_action) = s.(mouse_action)
  /\ (update_hints s next_char).(hints_drawn_offsets) = s.(hints_drawn_offsets).
Proof.
  unfold update_hints. cbn [hint_upercase].
  destruct (nonempty_spec
              (filter (fun kv => startswith (normalize (fst kv))
                                   (hint_selector_state s ++ str_upper next_char))
                      (hints s))) as [Hne|He].
  - repeat split. apply step_narrow with (c := str_upper next_char);
      [reflexivity | exact Hne | reflexivity].
  - repeat split. apply step_same; reflexivity.
Qed.

Lemma on_key_press_unfold (s : OverlayWindow) (event : EventKey) :
  on_key_press s event
  = if (event.(keyval) =? KEY_Escape)%N || (event.(key_lower) =? s.(exit_key))%N
    then Cancelled s
    else if (event.(keyval) =? KEY_BackSpace)%N && nonempty s.(hint_selector_state)
    then
      let s' := set_hint_selector_state s (removelast s.(hint_selector_state)) in
      match generate_hint_labels (filter_important_hints s' s'.(all_hints)) with
      | Raise e => Raised e s'
      | Ok labelled => Running (queue_draw (set_hints s' labelled))
      end
    else
      match chr event.(key_lower) with
      | Raise e => Raised e (set_mouse_action s (qualify s event))
      | Ok ch => key_tail (set_mouse_action s (qualify s event)) ch
      end.
Proof. reflexivity. Qed.

Lemma key_tail_state (s1 : OverlayWindow) (ch : N) :
  exists m,
    state_of (key_tail s1 ch)
    = set_mouse_action (if chr_isalpha ch then update_hints s1 [ch] else s1) m.
Proof.
  unfold key_tail.
  set (s2 := if chr_isalpha ch then update_hints s1 [ch] else s1).
  destruct (chr_isdigit ch); [destruct (chr_digit ch) as [d|]|].
  - match goal with
    | |- context [check_unique ?x] => destruct (check_unique_state x) as [m ->]
    end.
    exists m. reflexivity.
  - exists (mouse_action s2). rewrite set_mouse_action_same. reflexivity.
  - apply check_unique_state.
Qed.

Lemma selection_step_mouse_action (event : EventKey) (s s' : OverlayWindow) m m' :
  selection_step event (set_mouse_action s m) s' ->
  selection_step event s (set_mouse_action s' m').
Proof.
  intros [H1 H2|c H1 H2 H3|H1 H2 H3 H4].
  - apply step_same; assumption.
  - apply step_narrow with (c := c); assumption.
  - apply step_rebuild; assumption.
Qed.

Lemma frame_mouse_action (s s' : OverlayWindow) m m' :
  frame (set_mouse_action s m) s' -> frame s (set_mouse_action s' m').
Proof. intros H. exact H. Qed.

(** Every key press leaves the frame alone and acts on the selection in one
    of the three ways; without BackSpace it is not a rebuild. *)
Lemma on_key_press_step (s : OverlayWindow) (event : EventKey) :
  frame s (state_of (on_key_press s event))
  /\ selection_step event s (state_of (on_key_press s event)).
Proof.
  rewrite on_key_press_unfold.
  destruct (_ || _); [split; [repeat split | apply step_same; reflexivity]|].
  destruct (N.eqb_spec (keyval event) KEY_BackSpace) as [Hk|Hk]; cbn [andb].
  1: destruct (nonempty_spec (hint_selector_state s)) as [Hp|Hp].
  1: { cbv zeta. rewrite generate_hint_labels_combine. cbn [state_of].
       split; [repeat split|].
       apply step_rebuild; [exact Hk | exact Hp | | reflexivity].
       cbn [queue_draw set_hints hints all_hints].
       rewrite <- generate_hint_labels_combine. reflexivity. }
  all: destruct (chr (key_lower event)) as [ch|e];
    [|split; [repeat split | apply step_same; reflexivity]].
  all: destruct (key_tail_state (set_mouse_action s (qualify s event)) ch)
        as [m ->].
  all: destruct (update_hints_step (set_mouse_action s (qualify s event)) [ch] event)
        as (Hf & Hs & _).
  all: destruct (chr_isalpha ch).
  all: try (split; [eapply frame_mouse_action; exact Hf
                   | eapply selection_step_mouse_action; exact Hs]).
  all: split; [repeat split | apply step_same; reflexivity].
Qed.

Lemma on_draw_step (s : OverlayWindow) (cr : Context) :
  frame s (on_draw s cr)
  /\ (on_draw s cr).(hints) = s.(hints)
  /\ (on_draw s cr).(hint_selector_state) = s.(hint_selector_state)
  /\ (on_draw s cr).(mouse_action) = s.(mouse_action)
  /\ (on_draw s cr).(queued_draws) = s.(queued_draws).
Proof. repeat split. Qed.

(** A property kept by every handler holds at the end of the main loop. *)
Lemma run_invariant (P : OverlayWindow -> Prop) (allowed : signal -> Prop) :
  (forall s cr, P s -> allowed (draw cr) -> P (on_draw s cr)) ->
  (forall s event, P s -> allowed (key_press_event event) ->
                   P (state_of (on_key_press s event))) ->
  forall signals s,
    Forall allowed signals -> P s -> P (state_of (run s signals)).
Proof.
  intros Hdraw Hkey. induction signals as [|sig rest IH]; intros s Hall Hs;
    [exact Hs|].
  inversion Hall as [|? ? Hsig Hrest]; subst.
  destruct sig as [event|cr]; cbn [run].
  - specialize (Hkey s event Hs Hsig).
    destruct (on_key_press s event) as [s'|s'|s'|[] s']; cbn [state_of] in *;
      auto.
  - apply IH; auto.
Qed.

End Machine.

(** ** The live label set along a run *)

Lemma startswith_nil (a : str) : startswith a [] = true.
Proof. destruct a; reflexivity. Qed.

Lemma startswith_app (a p c : str) :
  startswith a (p ++ c) = true -> startswith a p = true.
Proof.
  revert a; induction p as [|y p IH]; intros a H; [apply startswith_nil|].
  destruct a as [|x a]; [discriminate|]. simpl in *.
  apply andb_true_iff in H as [H1 H2]. rewrite H1. simpl. apply IH, H2.
Qed.

Section LiveLabels.

Context {U : Unicode}.

Lemma narrowed_nil (d : dict str Child.t) : narrowed [] d = d.
Proof.
  unfold narrowed. induction d as [|kv d IH]; [reflexivity|].
  simpl. rewrite startswith_nil. f_equal. exact IH.
Qed.

Lemma narrowed_narrowed (p c : str) (d : dict str Child.t) :
  narrowed (p ++ c) (narrowed p d) = narrowed (p ++ c) d.
Proof.
  unfold narrowed. induction d as [|kv d IH]; [reflexivity|].
  simpl. destruct (startswith (normalize (fst kv)) p) eqn:Ep.
  - simpl. rewrite IH. reflexivity.
  - rewrite IH.
    destruct (startswith (normalize (fst kv)) (p ++ c)) eqn:Epc; [|reflexivity].
    apply startswith_app in Epc. congruence.
Qed.

Lemma narrowed_incl (p : str) (d : dict str Child.t) : incl (narrowed p d) d.
Proof. intros kv Hin. apply filter_In in Hin. tauto. Qed.

Lemma frame_trans (a b c : OverlayWindow) : frame a b -> frame b c -> frame a c.
Proof. unfold frame. intuition congruence. Qed.

Lemma rebuild_original (self0 s : OverlayWindow) (labelled : dict str Child.t) :
  frame self0 s ->
  generate_hint_labels (filter_important_hints self0 self0.(all_hints))
  = Ok self0.(hints) ->
  generate_hint_labels (filter_important_hints s s.(all_hints)) = Ok labelled ->
  labelled = self0.(hints).
Proof.
  intros (Hw & Hh & Ha & _) H0 Hs.
  rewrite Ha, (filter_important_hints_frame _ Hw Hh), H0 in Hs. congruence.
Qed.

Lemma live_inv_key (self0 s : OverlayWindow) (event : EventKey) :
  live_inv self0 s -> live_inv self0 (state_of (on_key_press s event)).
Proof.
  intros (Hf & Hg & Hl).
  destruct (on_key_press_step s event) as [Hf' Hs].
  split; [exact (frame_trans Hf Hf')|]. split; [exact Hg|].
  destruct Hs as [H1 H2|c H1 H2 H3|H1 H2 H3 H4].
  - rewrite H1, H2. exact Hl.
  - left. rewrite H1, H3. destruct Hl as [->| ->];
      [apply narrowed_narrowed | reflexivity].
  - right. exact (rebuild_original Hf Hg H3).
Qed.

(** What a key does to the live set and the prefix, by the kind of the
    key: a rebuilding backspace, a committed letter, or any other key. *)
Lemma key_selection (s : OverlayWindow) (event : EventKey) :
  let s' := state_of (on_key_press s event) in
  (rebuilds s event = true ->
   generate_hint_labels (filter_important_hints s s.(all_hints)) = Ok s'.(hints)
   /\ s'.(hint_selector_state) = removelast s.(hint_selector_state))
  /\ (commits s event = true ->
      s'.(hints)
      = narrowed (s.(hint_selector_state) ++ normalize [event.(key_lower)])
                 s.(hints)
      /\ s'.(hint_selector_state)
         = s.(hint_selector_state) ++ normalize [event.(key_lower)])
  /\ (rebuilds s event = false -> commits s event = false ->
      s'.(hints) = s.(hints)
      /\ s'.(hint_selector_state) = s.(hint_selector_state)).
Proof.
  cbv zeta. rewrite on_key_press_unfold. unfold commits, rebuilds, cancels.
  destruct (_ || _); cbn [negb andb state_of];
    [repeat split; discriminate|].
  destruct ((keyval event =? KEY_BackSpace)%N
            && nonempty (hint_selector_state s)) eqn:Eb; cbn [negb andb].
  - cbv zeta.
    change (filter_important_hints
              (set_hint_selector_state s (removelast (hint_selector_state s)))
              (all_hints
                 (set_hint_selector_state s (removelast (hint_selector_state s)))))
      with (filter_important_hints s (all_hints s)).
    rewrite generate_hint_labels_combine. cbn [state_of].
    repeat split; discriminate.
  - unfold chr.
    destruct (key_lower event <=? 1114111)%N;
      [|cbn [state_of]; repeat split; discriminate].
    destruct (key_tail_state (set_mouse_action s (qualify s event))
                (key_lower event)) as [m ->].
    destruct (chr_isalpha (key_lower event)); cbn [andb];
      [|repeat split; discriminate].
    unfold update_hints, narrowed, normalize.
    cbn [hint_upercase set_mouse_action hints hint_selector_state].
    destruct (nonempty (filter _ _)); repeat split; discriminate.
Qed.

Lemma exact_inv_key (self0 s : OverlayWindow) (w : bool) (event : EventKey) :
  exact_inv self0 w s ->
  exact_inv self0
    (if rebuilds s event then true else if commits s event then false else w)
    (state_of (on_key_press s event)).
Proof.
  intros (Hf & Hg & Hl).
  destruct (on_key_press_step s event) as [Hf' _].
  destruct (key_selection s event) as (Hr & Hc & Ho). cbv zeta in Hr, Hc, Ho.
  split; [exact (frame_trans Hf Hf')|]. split; [exact Hg|].
  destruct (rebuilds s event).
  - destruct (Hr eq_refl) as [Hlab _]. exact (rebuild_original Hf Hg Hlab).
  - destruct (commits s event).
    + destruct (Hc eq_refl) as [-> ->]. rewrite Hl.
      destruct w; [reflexivity | apply narrowed_narrowed].
    + destruct (Ho eq_refl eq_refl) as [-> ->]. exact Hl.
Qed.

Lemma exact_inv_run (self0 : OverlayWindow) (signals : list signal) :
  forall s w,
    exact_inv self0 w s ->
    exact_inv self0 (stale s signals w) (state_of (run s signals)).
Proof.
  induction signals as [|[event|cr] rest IH]; intros s w Hs; cbn [run stale].
  - exact Hs.
  - pose proof (exact_inv_key event Hs) as Hk.
    destruct (on_key_press s event) as [s'|s'|s'|[] s']; cbn [state_of] in *;
      auto.
  - apply IH. destruct Hs as (Hf & Hg & Hl).
    destruct (on_draw_step s cr) as (Hf' & Hh & Hp & _).
    split; [exact (frame_trans Hf Hf')|]. split; [exact Hg|].
    rewrite Hh, Hp. exact Hl.
Qed.

Lemma stale_no_backspace (signals : list signal) :
  no_backspace signals -> forall s, stale s signals false = false.
Proof.
  induction signals as [|[event|cr] rest IH]; intros Hnb s; cbn [stale];
    [reflexivity| |apply IH; inversion Hnb; assumption].
  inversion Hnb as [|? ? Hk Hrest]; subst.
  assert (Hr : rebuilds s event = false).
  { unfold rebuilds.
    destruct (N.eqb_spec (keyval event) KEY_BackSpace); [contradiction|].
    rewrite andb_false_r. reflexivity. }
  rewrite Hr.
  assert (Hw : (if commits s event then false else false) = false)
    by (destruct (commits s event); reflexivity).
  rewrite Hw.
  destruct (on_key_press s event) as [s'|s'|s'|[] s']; auto.
Qed.

Lemma init_state (x_pos y_pos w h : Q) (config : HintsConfig)
  (elements : dict str Child.t) (m : MouseAction.t) (wl : bool)
  (self0 : OverlayWindow) :
  init x_pos y_pos w h config elements m wl = Ok self0 ->
  self0.(hint_selector_state) = []
  /\ self0.(all_hints) = elements
  /\ self0.(width) = w /\ self0.(height) = h
  /\ self0.(mouse_action) = m
  /\ self0.(hints_drawn_offsets) = []
  /\ generate_hint_labels (filter_important_hints self0 self0.(all_hints))
     = Ok self0.(hints).
Proof.
  unfold init.
  set (blank0 := {| width := w; height := h; all_hints := elements; hints := [];
                    hint_selector_state := []; mouse_action := m;
                    exit_key := cfg_exit_key config;
                    hover_modifier := cfg_hover_modifier config;
                    grab_modifier := cfg_grab_modifier config;
                    hints_drawn_offsets := []; queued_draws := 0 |}).
  destruct (generate_hint_labels (filter_important_hints blank0 elements))
    as [labelled|e] eqn:E; [|discriminate].
  intros Heq. inversion Heq; subst self0. cbn.
  repeat split. exact E.
Qed.

(** The backspace of a non-empty prefix: the prefix loses its last
    character and the live set is generated anew from all the elements. *)
Lemma backspace_rebuilds (s : OverlayWindow) (event : EventKey) :
  event.(keyval) = KEY_BackSpace ->
  event.(key_lower) <> s.(exit_key) ->
  s.(hint_selector_state) <> [] ->
  exists labelled,
    generate_hint_labels (filter_important_hints s s.(all_hints)) = Ok labelled
    /\ on_key_press s event
       = Running (queue_draw
                    (set_hints
                       (set_hint_selector_state s (removelast s.(hint_selector_state)))
                       labelled)).
Proof.
  intros Hk He Hp. rewrite on_key_press_unfold, Hk.
  destruct (N.eqb_spec (key_lower event) (exit_key s)) as [|_]; [contradiction|].
  destruct (nonempty_spec (hint_selector_state s)) as [_|]; [|contradiction].
  cbn [orb andb N.eqb KEY_BackSpace KEY_Escape Pos.eqb]. cbv zeta.
  eexists. split; [apply generate_hint_labels_combine|].
  rewrite generate_hint_labels_combine. reflexivity.
Qed.


End LiveLabels.

Section LiveLabelClaims.

Context {U : Unicode}.

(** A key that is not a letter, and not the backspace of a non-empty
    prefix, leaves the live set and the prefix as they are. *)
Lemma other_key_keeps_selection (s : OverlayWindow) (event : EventKey) (ch : N) :
  chr event.(key_lower) = Ok ch ->
  chr_isalpha ch = false ->
  event.(keyval) <> KEY_BackSpace \/ s.(hint_selector_state) = [] ->
  (state_of (on_key_press s event)).(hints) = s.(hints)
  /\ (state_of (on_key_press s event)).(hint_selector_state)
     = s.(hint_selector_state)
  /\ (state_of (on_key_press s event)).(hints_drawn_offsets)
     = s.(hints_drawn_offsets)
  /\ (state_of (on_key_press s event)).(queued_draws) = s.(queued_draws).
Proof.
  intros Hch Ha Hnb. rewrite on_key_press_unfold.
  destruct (_ || _); [repeat split|].
  assert (Hb : (keyval event =? KEY_BackSpace)%N
               && nonempty (hint_selector_state s) = false).
  { destruct Hnb as [Hk|Hp].
    - destruct (N.eqb_spec (keyval event) KEY_BackSpace); [contradiction|].
      reflexivity.
    - rewrite Hp. apply andb_false_r. }
  rewrite Hb, Hch.
  destruct (key_tail_state (set_mouse_action s (qualify s event)) ch) as [m' ->].
  rewrite Ha. repeat split.
Qed.

Lemma frame_refl (s : OverlayWindow) : frame s s.
Proof. repeat split. Qed.

Lemma live_inv_run (self0 : OverlayWindow) (signals : list signal) :
  live_inv self0 self0 -> live_inv self0 (state_of (run self0 signals)).
Proof.
  intros H0.
  apply (@run_invariant U (live_inv self0) (fun _ => True)).
  - intros s cr (Hf & Hg & Hl) _.
    destruct (on_draw_step s cr) as (Hf' & Hh & Hp & _).
    split; [exact (frame_trans Hf Hf')|]. split; [exact Hg|].
    rewrite Hh, Hp. exact Hl.
  - intros s event Hs _. apply live_inv_key, Hs.
  - apply Forall_forall. intros; exact I.
  - exact H0.
Qed.

(** C2 (amended). Along every run from the constructed overlay the live
    label set is the originally generated set filtered by "the normalized
    label starts with the prefix", except while it is stale, that is from a
    backspace on a non-empty prefix up to the next committed letter: there
    it is the whole originally generated set.  So it is the filtered set as
    long as no BackSpace key was pressed, and again after every committed
    letter, whatever came before; a key that neither rebuilds nor commits
    changes neither the live set nor the prefix.  A backspace on a
    non-empty prefix drops the last character of the prefix and makes the
    live set the whole original set, whatever prefix is left; after any
    backspace the live set contains the set before it. *)
Theorem live_label_set (x_pos y_pos w h : Q) (config : HintsConfig)
  (elements : dict str Child.t) (m : MouseAction.t) (wl : bool)
  (self0 : OverlayWindow) :
  init x_pos y_pos w h config elements m wl = Ok self0 ->
  forall signals,
    let s := state_of (run self0 signals) in
    s.(hints) = (if stale self0 signals false then self0.(hints)
                 else narrowed s.(hint_selector_state) self0.(hints))
    /\ (no_backspace signals ->
        s.(hints) = narrowed s.(hint_selector_state) self0.(hints))
    /\ (forall event,
          commits s event = true ->
          let s' := state_of (on_key_press s event) in
          s'.(hint_selector_state)
          = s.(hint_selector_state) ++ normalize [event.(key_lower)]
          /\ s'.(hints) = narrowed s'.(hint_selector_state) self0.(hints)
          /\ s'.(hints) <> [])
    /\ (forall event,
          rebuilds s event = false ->
          commits s event = false ->
          let s' := state_of (on_key_press s event) in
          s'.(hints) = s.(hints)
          /\ s'.(hint_selector_state) = s.(hint_selector_state))
    /\ (forall event,
          event.(keyval) = KEY_BackSpace ->
          event.(key_lower) <> s.(exit_key) ->
          s.(hint_selector_state) <> [] ->
          exists s',
            on_key_press s event = Running s'
            /\ s'.(hints) = self0.(hints)
            /\ s'.(hint_selector_state) = removelast s.(hint_selector_state))
    /\ (forall event,
          event.(keyval) = KEY_BackSpace ->
          event.(key_lower) = KEY_BackSpace ->
          chr_isalpha KEY_BackSpace = false ->
          incl s.(hints) (state_of (on_key_press s event)).(hints)).
Proof.
  intros Hinit signals s.
  destruct (init_state Hinit) as (Hp0 & _ & _ & _ & _ & _ & Hg).
  assert (H0 : live_inv self0 self0).
  { split; [apply frame_refl|]. split; [exact Hg|].
    left. rewrite Hp0, narrowed_nil. reflexivity. }
  assert (E0 : exact_inv self0 false self0).
  { split; [apply frame_refl|]. split; [exact Hg|].
    rewrite Hp0, narrowed_nil. reflexivity. }
  destruct (live_inv_run signals H0) as (Hf & _ & Hl). fold s in Hf, Hl.
  destruct (exact_inv_run signals E0) as (_ & _ & He). fold s in He.
  assert (Hrebuild : forall event,
            event.(keyval) = KEY_BackSpace ->
            event.(key_lower) <> s.(exit_key) ->
            s.(hint_selector_state) <> [] ->
            exists s',
              on_key_press s event = Running s'
              /\ s'.(hints) = self0.(hints)
              /\ s'.(hint_selector_state) = removelast s.(hint_selector_state)).
  { intros event Hk He' Hp.
    destruct (backspace_rebuilds Hk He' Hp) as (labelled & Hlab & ->).
    eexists. split; [reflexivity|]. split; [|reflexivity].
    exact (rebuild_original Hf Hg Hlab). }
  assert (Hsub : incl (hints s) (hints self0)).
  { destruct Hl as [-> | ->]; [apply narrowed_incl | apply incl_refl]. }
  split; [exact He|].
  split; [intros Hnb; rewrite (stale_no_backspace Hnb) in He; exact He|].
  split.
  { intros event Hc s'.
    destruct (key_selection s event) as (_ & Hkc & _). cbv zeta in Hkc.
    destruct (Hkc Hc) as [Hh Hp]. fold s' in Hh, Hp.
    split; [exact Hp|].
    assert (Hn : hints s' = narrowed (hint_selector_state s') (hints self0)).
    { rewrite Hh, Hp.
      destruct Hl as [-> | ->]; [apply narrowed_narrowed | reflexivity]. }
    split; [exact Hn|].
    rewrite Hh. unfold commits in Hc.
    rewrite !andb_true_iff in Hc. destruct Hc as [_ Hc].
    unfold chr in Hc.
    destruct (key_lower event <=? 1114111)%N; [|discriminate].
    apply andb_true_iff in Hc as [_ Hc].
    destruct (nonempty_spec
                (narrowed (hint_selector_state s ++ normalize [key_lower event])
                          (hints s))); [assumption | discriminate]. }
  split.
  { intros event Hr Hc s'.
    destruct (key_selection s event) as (_ & _ & Hko). exact (Hko Hr Hc). }
  split; [exact Hrebuild|].
  intros event Hk Hlow Ha.
  destruct (N.eq_dec (key_lower event) (exit_key s)) as [Hx|Hx].
  + rewrite on_key_press_unfold, Hx, N.eqb_refl, orb_true_r. apply incl_refl.
  + destruct (hint_selector_state s) as [|c p] eqn:Ep.
    * rewrite (proj1 (@other_key_keeps_selection s event KEY_BackSpace
                        (f_equal chr Hlow) Ha (or_intror Ep))).
      apply incl_refl.
    * assert (Hne : c :: p <> []) by discriminate.
      destruct (Hrebuild event Hk Hx Hne) as (s'' & -> & Hh & _).
      cbn [state_of]. rewrite Hh. exact Hsub.
Qed.

End LiveLabelClaims.

(** C2, at a concrete input: with 197 elements the labels have three
    letters; after the keys S, S, BackSpace the prefix is S but all 197
    labels are live, ASS among them. *)
Lemma backspace_keeps_unmatched_labels :
  init 0 0 2100 100 sample_config crowd MouseAction.empty false
  = Ok (opened 2100 100 crowd)
  /\ ~ selection_claim (opened 2100 100 crowd)
         [key_press_event (plain_key 115); key_press_event (plain_key 115);
          key_press_event (plain_key KEY_BackSpace)].
Proof.
  split; [vm_compute; reflexivity|].
  unfold selection_claim. intros H.
  apply (f_equal (@List.length _)) in H. vm_compute in H. discriminate.
Qed.

(** C2, the amended statement at the same input: the keys S, S, BackSpace
    leave the live set stale; the letter A pressed next commits, and the
    live set is again the generated set filtered by the prefix, SA. *)
Lemma live_label_set_witness :
  let self0 := opened 2100 100 crowd in
  let signals :=
    map key_press_event
      [plain_key 115; plain_key 115; plain_key KEY_BackSpace; plain_key 97] in
  init 0 0 2100 100 sample_config crowd MouseAction.empty false = Ok self0
  /\ stale self0 (firstn 3 signals) false = true
  /\ stale self0 signals false = false
  /\ (state_of (run self0 signals)).(hint_selector_state) = pystr "SA"
  /\ (state_of (run self0 signals)).(hints)
     = narrowed (state_of (run self0 signals)).(hint_selector_state)
                self0.(hints).
Proof.
  intros self0 signals.
  assert (Hi : init 0 0 2100 100 sample_config crowd MouseAction.empty false
               = Ok self0) by (vm_compute; reflexivity).
  assert (Hst : stale self0 signals false = false) by (vm_compute; reflexivity).
  split; [exact Hi|]. split; [vm_compute; reflexivity|]. split; [exact Hst|].
  split; [vm_compute; reflexivity|].
  destruct (@live_label_set ascii_tables 0 0 2100 100 sample_config crowd
              MouseAction.empty false self0 Hi signals) as [H _].
  rewrite Hst in H. exact H.
Defined.

(** ** Narrowing commits on success only; backspace *)

Section KeyClaims.

Context {U : Unicode}.

Lemma update_hints_no_match (s : OverlayWindow) (next_char : str) :
  narrowed (s.(hint_selector_state) ++ normalize next_char) s.(hints) = [] ->
  update_hints s next_char = queue_draw s.
Proof.
  unfold update_hints, narrowed, normalize. cbn [hint_upercase].
  intros ->. reflexivity.
Qed.

(** C3. An alphabetic key whose candidate prefix (the prefix followed by
    the normalized character) is the start of no live label leaves the live
    label set and the prefix as they were: [update_hints] only asks for a
    redraw, and so does the key handler. *)
Theorem unmatched_key_ignored (s : OverlayWindow) (event : EventKey) (ch : N) :
  chr event.(key_lower) = Ok ch ->
  chr_isalpha ch = true ->
  event.(keyval) <> KEY_BackSpace ->
  narrowed (s.(hint_selector_state) ++ normalize [ch]) s.(hints) = [] ->
  update_hints s [ch] = queue_draw s
  /\ (state_of (on_key_press s event)).(hints) = s.(hints)
  /\ (state_of (on_key_press s event)).(hint_selector_state)
     = s.(hint_selector_state).
Proof.
  intros Hch Ha Hk Hnone.
  split; [apply update_hints_no_match, Hnone|].
  rewrite on_key_press_unfold.
  destruct (_ || _); [split; reflexivity|].
  destruct (N.eqb_spec (keyval event) KEY_BackSpace) as [|_]; [contradiction|].
  cbn [andb]. rewrite Hch.
  destruct (key_tail_state (set_mouse_action s (qualify s event)) ch) as [m ->].
  rewrite Ha, update_hints_no_match by exact Hnone. split; reflexivity.
Qed.



End KeyClaims.

(** The key Z on the three labels S, A, D. *)
Lemma unmatched_key_ignored_witness :
  let s := opened 200 90 column in
  chr (plain_key 122).(key_lower) = Ok 122%N
  /\ update_hints s [122%N] = queue_draw s.
Proof.
  split; [reflexivity|].
  apply (@unmatched_key_ignored ascii_tables (opened 200 90 column)
           (plain_key 122) 122%N).
  - reflexivity.
  - reflexivity.
  - discriminate.
  - vm_compute. reflexivity.
Defined.



(** ** Resolution *)

Lemma dict_get_set_same (V : Type) (d : dict str V) k v :
  dict_get str_eqb (dict_set str_eqb d k v) k = Some v.
Proof.
  induction d as [|[k' v'] d IH]; simpl.
  - rewrite str_eqb_refl. reflexivity.
  - destruct (str_eqb k' k) eqn:E; simpl; rewrite E; [reflexivity | exact IH].
Qed.

Lemma dict_get_set_other (V : Type) (d : dict str V) k k' v :
  k' <> k -> dict_get str_eqb (dict_set str_eqb d k' v) k = dict_get str_eqb d k.
Proof.
  intros Hne. induction d as [|[k0 v0] d IH]; simpl.
  - destruct (str_eqb_spec k' k); [contradiction | reflexivity].
  - destruct (str_eqb_spec k0 k') as [->|Hk0]; simpl.
    + destruct (str_eqb_spec k' k); [contradiction | reflexivity].
    + destruct (str_eqb k0 k); [reflexivity | exact IH].
Qed.

Section Resolution.

Context {U : Unicode}.

Lemma draw_body_snd (self : OverlayWindow) (cr : Context) drawn offsets key child :
  snd (draw_body self cr (drawn, offsets) (key, child))
  = dict_set str_eqb offsets key
      (centre_offset child (place self cr drawn key child)).
Proof.
  unfold draw_body, centre_offset.
  destruct (Child.relative_position child) as [x0 y0].
  destruct (place self cr drawn key child) as [[[x y] w] h]. reflexivity.
Qed.

(** Labels that are not drawn keep their cached offset. *)
Lemma draw_loop_keeps_other (self : OverlayWindow) (cr : Context)
  (items : dict str Child.t) (k : str) :
  ~ In k (keys items) ->
  forall acc,
    dict_get str_eqb (snd (fold_left (draw_body self cr) items acc)) k
    = dict_get str_eqb (snd acc) k.
Proof.
  induction items as [|[key child] rest IH]; intros Hk [drawn offsets];
    [reflexivity|].
  cbn [fold_left]. simpl in Hk. rewrite IH by tauto.
  rewrite draw_body_snd. apply dict_get_set_other. tauto.
Qed.

(** After a draw pass over labels that are pairwise distinct, the cache
    holds for each of them the offset of the rectangle it was just given. *)
Lemma draw_loop_caches (self : OverlayWindow) (cr : Context)
  (items : dict str Child.t) :
  NoDup (keys items) ->
  forall acc i key child,
    nth_error items i = Some (key, child) ->
    exists r,
      nth_error (fst (fold_left (draw_body self cr) items acc))
                (List.length (fst acc) + i) = Some r
      /\ dict_get str_eqb (snd (fold_left (draw_body self cr) items acc)) key
         = Some (centre_offset child r).
Proof.
  induction items as [|[k c] rest IH]; intros Hnd [drawn offsets] i key child Hi;
    [destruct i; discriminate|].
  inversion Hnd as [|? ? Hk Hrest]; subst. cbn [fold_left].
  destruct i as [|i].
  - inversion Hi; subst. exists (place self cr drawn key child).
    destruct (draw_loop_fst_app self cr [] rest
                (draw_body self cr (drawn, offsets) (key, child)))
      as (tail & E & _).
    cbn [app fold_left] in E. split.
    + rewrite E, draw_body_fst. cbn [fst]. rewrite Nat.add_0_r.
      rewrite <- app_assoc. rewrite nth_error_app2 by lia.
      rewrite Nat.sub_diag. reflexivity.
    + rewrite draw_loop_keeps_other by exact Hk.
      rewrite draw_body_snd. apply dict_get_set_same.
  - simpl in Hi.
    destruct (IH Hrest (draw_body self cr (drawn, offsets) (k, c)) i key child Hi)
      as (r & Hr & Hget).
    exists r. split; [|exact Hget].
    rewrite draw_body_fst, length_app in Hr. simpl in Hr. cbn [fst].
    replace (List.length drawn + S i) with (List.length drawn + 1 + i) by lia.
    exact Hr.
Qed.

Lemma on_draw_caches (s0 : OverlayWindow) (cr : Context) i key child :
  NoDup (keys s0.(hints)) ->
  nth_error s0.(hints) i = Some (key, child) ->
  exists r,
    nth_error (drawn_rects s0 cr) i = Some r
    /\ dict_get str_eqb (on_draw s0 cr).(hints_drawn_offsets) key
       = Some (centre_offset child r).
Proof.
  intros Hnd Hi.
  destruct (@draw_loop_caches s0 cr (hints s0) Hnd ([], hints_drawn_offsets s0)
              i key child Hi) as (r & Hr & Hget).
  exists r. split; [exact Hr | exact Hget].
Qed.

Lemma check_unique_resolved (s : OverlayWindow) hint child offset :
  s.(hints) = [(hint, child)] ->
  normalize hint = s.(hint_selector_state) ->
  dict_get str_eqb s.(hints_drawn_offsets) hint = Some offset ->
  check_unique s
  = Resolved (set_mouse_action s (resolved_action s.(mouse_action) child offset)).
Proof.
  intros Hh Hn Hget. unfold check_unique, resolve, normalize in *.
  rewrite Hh. cbn [hint_upercase andb orb negb] in *. rewrite Hn, str_eqb_refl.
  cbn [orb]. unfold resolved_action.
  destruct (Child.absolute_position child) as [x_abs y_abs].
  rewrite Hget. destruct offset as [x_off y_off]. reflexivity.
Qed.

Lemma check_unique_resolved_inv (s s' : OverlayWindow) :
  check_unique s = Resolved s' ->
  exists hint child offset,
    s.(hints) = [(hint, child)]
    /\ normalize hint = s.(hint_selector_state)
    /\ dict_get str_eqb s.(hints_drawn_offsets) hint = Some offset
    /\ s' = set_mouse_action s (resolved_action s.(mouse_action) child offset).
Proof.
  unfold check_unique, normalize.
  destruct (hints s) as [|[hint child] [|? ?]] eqn:Hh; try discriminate.
  cbn [hint_upercase andb orb negb]. rewrite orb_false_r.
  destruct (str_eqb_spec (str_upper hint) (hint_selector_state s)) as [E|_];
    [|discriminate].
  unfold resolve. destruct (Child.absolute_position child) as [x_abs y_abs] eqn:Ea.
  destruct (dict_get str_eqb (hints_drawn_offsets s) hint) as [[x_off y_off]|] eqn:Eg;
    [|discriminate].
  intros Heq. inversion Heq. exists hint, child, (x_off, y_off).
  repeat split; try assumption.
  unfold resolved_action. rewrite Ea. reflexivity.
Qed.

(** A key press that resolves reached the unique-match test with a live set
    taken from the live set before the key, the same offset cache, and the
    qualifiers of this key recorded. *)
Lemma on_key_press_resolved_inv (s s' : OverlayWindow) (event : EventKey) :
  on_key_press s event = Resolved s' ->
  exists s2,
    check_unique s2 = Resolved s'
    /\ incl s2.(hints) s.(hints)
    /\ s2.(hints_drawn_offsets) = s.(hints_drawn_offsets)
    /\ s2.(mouse_action) = pending_action s event.
Proof.
  rewrite on_key_press_unfold. unfold pending_action.
  destruct (_ || _); [discriminate|].
  destruct (_ && _).
  - cbv zeta. destruct (generate_hint_labels _); discriminate.
  - destruct (chr (key_lower event)) as [ch|e]; [|discriminate].
    unfold key_tail.
    set (s1 := set_mouse_action s (qualify s event)).
    set (sa := if chr_isalpha ch then update_hints s1 [ch] else s1).
    assert (Hsa : incl (hints sa) (hints s)
                  /\ hints_drawn_offsets sa = hints_drawn_offsets s
                  /\ mouse_action sa = qualify s event).
    { unfold sa. destruct (chr_isalpha ch).
      - destruct (update_hints_step s1 [ch] event) as (_ & Hs & Hm & Ho).
        split; [|split; [exact Ho | exact Hm]].
        destruct Hs as [H1 _|c H1 _ _|_ H2 _ _].
        + rewrite H1. apply incl_refl.
        + rewrite H1. apply narrowed_incl.
        + unfold update_hints. cbn [hint_upercase].
          destruct (nonempty _); cbn; [|apply incl_refl].
          intros kv Hin. apply filter_In in Hin. tauto.
      - split; [apply incl_refl | split; reflexivity]. }
    destruct Hsa as (Hi & Ho & Hm).
    destruct (chr_isdigit ch); [destruct (chr_digit ch) as [d|]|].
    + intros Hr. eexists. split; [exact Hr|].
      cbn [set_mouse_action hints hints_drawn_offsets mouse_action].
      rewrite Hm. repeat split; assumption.
    + discriminate.
    + intros Hr. exists sa. rewrite Hm. repeat split; assumption.
Qed.

(** C9. When the unique-match test finds exactly one live label whose
    normalized form equals the prefix, the overlay resolves: the mouse
    action gets x and y equal to the element's absolute position plus the
    offset cached for that label, the action "click" unless one is pending,
    the button LEFT unless one is pending and the repeat count 1 unless one
    was accumulated.  When the key press follows a draw, the offset is the
    one that draw computed for the label: from the element's relative
    position to the centre of the rectangle just drawn. *)
Theorem unique_match_resolves (s0 : OverlayWindow) (cr : Context) :
  (forall s hint child offset,
     s.(hints) = [(hint, child)] ->
     normalize hint = s.(hint_selector_state) ->
     dict_get str_eqb s.(hints_drawn_offsets) hint = Some offset ->
     check_unique s
     = Resolved (set_mouse_action s (resolved_action s.(mouse_action) child offset)))
  /\ (NoDup (keys s0.(hints)) ->
      forall event s',
        on_key_press (on_draw s0 cr) event = Resolved s' ->
        exists i hint child r,
          nth_error s0.(hints) i = Some (hint, child)
          /\ nth_error (drawn_rects s0 cr) i = Some r
          /\ s'.(hints) = [(hint, child)]
          /\ normalize hint = s'.(hint_selector_state)
          /\ s'.(mouse_action)
             = resolved_action (pending_action (on_draw s0 cr) event) child
                 (centre_offset child r)).
Proof.
  split; [intros s hint child offset; apply check_unique_resolved|].
  intros Hnd event s' Hres.
  destruct (on_key_press_resolved_inv Hres) as (s2 & Hcu & Hincl & Hoff & Hm).
  destruct (check_unique_resolved_inv Hcu)
    as (hint & child & offset & Hh & Hn & Hget & ->).
  assert (Hin : In (hint, child) (hints s0)).
  { apply Hincl. rewrite Hh. now left. }
  apply In_nth_error in Hin as [i Hi].
  destruct (on_draw_caches cr Hnd Hi) as (r & Hr & Hcache).
  rewrite Hoff, Hcache in Hget. inversion Hget; subst offset.
  exists i, hint, child, r. rewrite <- Hm.
  repeat split; assumption.
Qed.

End Resolution.

Lemma unique_match_resolves_witness :
  let s0 := opened 200 90 column in
  let s' := state_of (on_key_press (on_draw s0 fixed_pitch) (plain_key 97)) in
  NoDup (keys s0.(hints))
  /\ on_key_press (on_draw s0 fixed_pitch) (plain_key 97) = Resolved s'
  /\ exists i hint child r,
       nth_error s0.(hints) i = Some (hint, child)
       /\ nth_error (drawn_rects s0 fixed_pitch) i = Some r
       /\ s'.(hints) = [(hint, child)]
       /\ normalize hint = s'.(hint_selector_state)
       /\ s'.(mouse_action)
          = resolved_action
              (pending_action (on_draw s0 fixed_pitch) (plain_key 97)) child
              (centre_offset child r).
Proof.
  intros s0 s'.
  assert (Hnd : NoDup (keys s0.(hints)))
    by (apply nodupb_sound; vm_compute; reflexivity).
  assert (Hres : on_key_press (on_draw s0 fixed_pitch) (plain_key 97) = Resolved s')
    by (vm_compute; reflexivity).
  split; [exact Hnd|]. split; [exact Hres|].
  exact (proj2 (@unique_match_resolves ascii_tables s0 fixed_pitch) Hnd
           (plain_key 97) s' Hres).
Defined.

(** The key A on the column of three labels S, A, D, after a draw: the
    click lands at (152, 121.5), the centre of the label box of the second
    element, which sits at (150, 120) on the screen. *)
Example resolve_second_label :
  match on_key_press (on_draw (opened 200 90 column) fixed_pitch) (plain_key 97) with
  | Resolved s' =>
      match s'.(mouse_action).(MouseAction.x), s'.(mouse_action).(MouseAction.y) with
      | Some x, Some y =>
          (x == 152)%Q /\ (y == 243 # 2)%Q
          /\ s'.(mouse_action).(MouseAction.action) = Some click
          /\ s'.(mouse_action).(MouseAction.button) = Some LEFT
          /\ s'.(mouse_action).(MouseAction.repeat) = Some 1%N
      | _, _ => False
      end
  | _ => False
  end.
Proof. vm_compute. repeat split; reflexivity. Qed.

(** ** An overlay with nothing to label *)

Section Idle.

Context {U : Unicode}.

Lemma qualify_keeps_xy (s : OverlayWindow) (event : EventKey) :
  (qualify s event).(MouseAction.x) = s.(mouse_action).(MouseAction.x)
  /\ (qualify s event).(MouseAction.y) = s.(mouse_action).(MouseAction.y).
Proof.
  unfold qualify.
  destruct (mods event =? hover_modifier s)%N,
           (mods event =? grab_modifier s)%N,
           (negb (key_lower event =? keyval event)%N); split; reflexivity.
Qed.

Lemma on_key_press_idle (x y : option Q) (k : N) (s : OverlayWindow)
  (event : EventKey) :
  idle x y k s ->
  (on_key_press s event = Cancelled s
   /\ (event.(keyval) = KEY_Escape \/ event.(key_lower) = k))
  \/ (exists s',
        idle x y k s'
        /\ (on_key_press s event = Running s'
            \/ on_key_press s event = Raised ValueError s')).
Proof.
  intros (Hh & Hp & Hx & Hy & Hk). rewrite on_key_press_unfold.
  destruct (N.eqb_spec (keyval event) KEY_Escape) as [He|He];
    [left; split; [reflexivity | now left]|].
  destruct (N.eqb_spec (key_lower event) (exit_key s)) as [Hq|Hq];
    [left; split; [reflexivity | right; congruence]|].
  right. cbn [orb]. rewrite Hp. cbn [nonempty]. rewrite andb_false_r.
  destruct (qualify_keeps_xy s event) as [Qx Qy].
  set (s1 := set_mouse_action s (qualify s event)).
  assert (I1 : idle x y k s1).
  { unfold idle. cbn. rewrite Qx, Qy. repeat split; assumption. }
  unfold chr. destruct (key_lower event <=? 1114111)%N;
    [|exists s1; split; [exact I1 | now right]].
  unfold key_tail.
  set (sa := if chr_isalpha (key_lower event)
             then update_hints s1 [key_lower event] else s1).
  assert (Ia : idle x y k sa).
  { unfold sa. destruct (chr_isalpha (key_lower event)); [|exact I1].
    rewrite update_hints_no_match.
    - destruct I1 as (? & ? & ? & ? & ?). repeat split; assumption.
    - destruct I1 as (-> & _). reflexivity. }
  assert (Hrun : forall m,
            MouseAction.x m = x -> MouseAction.y m = y ->
            idle x y k (set_mouse_action sa m)
            /\ check_unique (set_mouse_action sa m)
               = Running (set_mouse_action sa m)).
  { intros m Hmx Hmy. destruct Ia as (Ha & Hb & _ & _ & Hc).
    split; [repeat split; assumption|].
    unfold check_unique. cbn [set_mouse_action hints]. rewrite Ha. reflexivity. }
  destruct (chr_isdigit (key_lower event));
    [destruct (chr_digit (key_lower event)) as [d|]|].
  - eexists. split; [|left; apply Hrun]; [apply Hrun|..];
      cbn; apply Ia.
  - exists sa. split; [exact Ia | now right].
  - exists sa. split; [exact Ia|]. left.
    destruct (Hrun (mouse_action sa)) as [_ Hc]; [apply Ia | apply Ia|].
    rewrite set_mouse_action_same in Hc. exact Hc.
Qed.

Lemma init_exit_key (x_pos y_pos w h : Q) (config : HintsConfig)
  (elements : dict str Child.t) (m : MouseAction.t) (wl : bool)
  (self0 : OverlayWindow) :
  init x_pos y_pos w h config elements m wl = Ok self0 ->
  self0.(exit_key) = config.(cfg_exit_key).
Proof.
  unfold init.
  match goal with
  | |- match ?g with _ => _ end = _ -> _ => destruct g as [labelled|e]
  end; [|discriminate].
  intros Heq. inversion Heq; subst self0. reflexivity.
Qed.

Lemma run_idle (x y : option Q) (k : N) (signals : list signal) :
  forall s,
    idle x y k s ->
    idle x y k (state_of (run s signals))
    /\ ((exists s', run s signals = Running s')
        \/ (exists s' event,
              run s signals = Cancelled s'
              /\ In (key_press_event event) signals
              /\ (event.(keyval) = KEY_Escape \/ event.(key_lower) = k))).
Proof.
  induction signals as [|sig rest IH]; intros s Hs.
  - split; [exact Hs | left; eexists; reflexivity].
  - destruct sig as [event|cr]; cbn [run].
    + destruct (on_key_press_idle event Hs) as [[-> Hkey]|(s' & Hs' & [-> | ->])].
      * split; [exact Hs|]. right. exists s, event.
        split; [reflexivity | split; [now left | exact Hkey]].
      * destruct (IH s' Hs') as [Hi [Hr|(s2 & ev & Hc & Hin & Hkey)]].
        -- split; [exact Hi | left; exact Hr].
        -- split; [exact Hi|]. right. exists s2, ev.
           split; [exact Hc | split; [now right | exact Hkey]].
      * destruct (IH s' Hs') as [Hi [Hr|(s2 & ev & Hc & Hin & Hkey)]].
        -- split; [exact Hi | left; exact Hr].
        -- split; [exact Hi|]. right. exists s2, ev.
           split; [exact Hc | split; [now right | exact Hkey]].
    + assert (Hd : idle x y k (on_draw s cr)).
      { destruct (on_draw_step s cr) as ((_ & _ & _ & He & _) & Hh & Hp & Hm & _).
        destruct Hs as (? & ? & ? & ? & ?).
        unfold idle. rewrite Hh, Hp, Hm, He. repeat split; assumption. }
      destruct (IH _ Hd) as [Hi [Hr|(s2 & ev & Hc & Hin & Hkey)]].
      * split; [exact Hi | left; exact Hr].
      * split; [exact Hi|]. right. exists s2, ev.
        split; [exact Hc | split; [now right | exact Hkey]].
Qed.

(** C10. When the filter keeps no element the generated label mapping is
    empty, and whatever signals follow, the live set stays empty, the
    overlay never resolves (nor reaches the offset lookup), the x and y of
    the mouse action stay as the caller passed them, and the overlay ends
    only on a key that is Escape or the configured exit key. *)
Theorem empty_overlay_never_resolves (x_pos y_pos w h : Q) (config : HintsConfig)
  (elements : dict str Child.t) (m : MouseAction.t) (wl : bool)
  (self0 : OverlayWindow) :
  init x_pos y_pos w h config elements m wl = Ok self0 ->
  filter_important_hints self0 elements = [] ->
  self0.(hints) = []
  /\ forall signals,
       let o := run self0 signals in
       (state_of o).(hints) = []
       /\ (state_of o).(mouse_action).(MouseAction.x) = m.(MouseAction.x)
       /\ (state_of o).(mouse_action).(MouseAction.y) = m.(MouseAction.y)
       /\ (forall s, o <> Resolved s)
       /\ (forall e s, o <> Raised e s)
       /\ ((exists s, o = Running s)
           \/ (exists s event,
                 o = Cancelled s
                 /\ In (key_press_event event) signals
                 /\ (event.(keyval) = KEY_Escape
                     \/ event.(key_lower) = config.(cfg_exit_key)))).
Proof.
  intros Hinit Hempty.
  destruct (init_state Hinit) as (Hp0 & Hall & _ & _ & Hm & _ & Hg).
  assert (Hh0 : hints self0 = []).
  { rewrite Hall, Hempty in Hg. rewrite generate_hint_labels_combine in Hg.
    change (values (@nil (list N * Child.t))) with (@nil Child.t) in Hg.
    rewrite combine_nil in Hg. congruence. }
  pose proof (init_exit_key Hinit) as Hk0.
  split; [exact Hh0|].
  intros signals o.
  assert (I0 : idle (MouseAction.x m) (MouseAction.y m) (cfg_exit_key config) self0).
  { unfold idle. rewrite Hm. repeat split; assumption. }
  destruct (run_idle signals I0) as [(Hh & _ & Hx & Hy & _) Hend]. fold o in Hh, Hx, Hy, Hend.
  repeat split; try assumption.
  - intros s Ho. destruct Hend as [[s' E]|(s' & ev & E & _)]; congruence.
  - intros e s Ho. destruct Hend as [[s' E]|(s' & ev & E & _)]; congruence.
Qed.

End Idle.

Lemma empty_overlay_never_resolves_witness :
  init 0 0 200 90 sample_config speck MouseAction.empty false
  = Ok (opened 200 90 speck)
  /\ filter_important_hints (opened 200 90 speck) speck = []
  /\ (opened 200 90 speck).(hints) = [].
Proof.
  assert (Hi : init 0 0 200 90 sample_config speck MouseAction.empty false
               = Ok (opened 200 90 speck)) by (vm_compute; reflexivity).
  assert (Hf : filter_important_hints (opened 200 90 speck) speck = [])
    by (vm_compute; reflexivity).
  split; [exact Hi|]. split; [exact Hf|].
  exact (proj1 (@empty_overlay_never_resolves ascii_tables 0 0 200 90 sample_config
                  speck MouseAction.empty false (opened 200 90 speck) Hi Hf)).
Defined.

(** ** The earlier variant kept in [test.py] *)

(** The filter of [test.py] keeps both elements of a bucket. *)
Example legacy_filter_keeps_stacked :
  keys (Legacy.filter_important_hints (blank 200 100 stacked) stacked)
  = [pystr "a"; pystr "b"; pystr "c"].
Proof. vm_compute. reflexivity. Qed.

(** The backspace of [test.py] leaves the narrowed set narrowed: AF does
    not come back. *)
Example legacy_backspace_keeps_narrowed :
  keys (Legacy.backspace after_s).(hints) = [pystr "SA"; pystr "SD"]
  /\ (Legacy.backspace after_s).(hint_selector_state) = [].
Proof. vm_compute. split; reflexivity. Qed.

(** ** The scenarios of the design document *)

(** Scenario 1: three elements with no role get the labels S, A, D. *)
Example scenario_three_elements :
  keys (opened 200 90 trio).(hints) = [pystr "S"; pystr "A"; pystr "D"]
  /\ values (opened 200 90 trio).(hints) = values trio.
Proof. vm_compute. split; reflexivity. Qed.

(** Scenario 3: fifteen elements get labels of two letters. *)
Example scenario_fifteen_elements :
  firstn 3 (keys (opened 2100 100 (row 15)).(hints))
  = [pystr "SS"; pystr "SA"; pystr "SD"]
  /\ last (keys (opened 2100 100 (row 15)).(hints)) [] = pystr "AS".
Proof. vm_compute. split; reflexivity. Qed.

(** Scenario 4: a backspace on the empty prefix leaves the overlay as it
    is. *)
Example scenario_backspace_on_empty :
  on_key_press (opened 200 90 trio) (plain_key KEY_BackSpace)
  = Running (opened 200 90 trio).
Proof. vm_compute. reflexivity. Qed.

(** A label box wider than the overlay ends past the right edge: in a
    window 10 wide the box of 14 starts at 0. *)
Example narrow_layout_out_of_bounds :
  let s := opened 10 90 [(pystr "a", element 5 20 10 10)] in
  exists r, nth_error (drawn_rects s fixed_pitch) 0 = Some r
            /\ (fst (fst (fst r)) + snd (fst r) > s.(width))%Q.
Proof. eexists. split; [vm_compute; reflexivity | vm_compute; reflexivity]. Qed.

Lemma generate_hint_labels_first_words_witness :
  List.length trio <= 14
  /\ label_length (List.length trio) 1 = 1
  /\ generate_hint_labels trio
     = Ok (combine (firstn 3 (words 1)) (values trio)).
Proof.
  destruct (generate_hint_labels_first_words trio)
    as (Hgen & _ & _ & _ & _ & _ & _ & _ & _ & Hone & _).
  split; [vm_compute; lia|]. split; [apply Hone; vm_compute; lia|].
  rewrite (Hone ltac:(vm_compute; lia)) in Hgen. exact Hgen.
Defined.

Lemma collision_pass_single_witness :
  let s := opened 200 90 column in
  s.(hints) = firstn 2 s.(hints) ++ (pystr "D", element 50 75 10 10) :: []
  /\ exists y',
       nth_error (drawn_rects s fixed_pitch) 2
       = Some (45%Q, y', 14%Q, hint_height)
       /\ resolved s.(height) 45 14 hint_height
            (firstn 2 (drawn_rects s fixed_pitch)) 70 y'.
Proof.
  intros s.
  assert (Hh : s.(hints)
               = firstn 2 s.(hints) ++ (pystr "D", element 50 75 10 10) :: [])
    by (vm_compute; reflexivity).
  split; [exact Hh|].
  exact (proj1 (proj2 (proj2 (@collision_pass_single ascii_tables s fixed_pitch)))
           (firstn 2 s.(hints)) (pystr "D") (element 50 75 10 10) [] Hh).
Defined.

(** * Further properties of the code *)

(** ** Labels *)

Lemma startswith_same_length (a p : str) :
  List.length a = List.length p -> startswith a p = true -> a = p.
Proof.
  revert a; induction p as [|y p IH]; intros [|x a] Hl H; try discriminate;
    [reflexivity|].
  simpl in *. apply andb_true_iff in H as [Hx Hp].
  apply N.eqb_eq in Hx. subst. f_equal. apply IH; [congruence | exact Hp].
Qed.

Lemma generated_keys (hints d : dict str Child.t) :
  generate_hint_labels hints = Ok d ->
  keys d = firstn (List.length hints) (words (label_length (List.length hints) 1))
  /\ values d = values hints.
Proof.
  rewrite generate_hint_labels_combine. intros Heq. inversion Heq; subst d.
  assert (Hl : List.length (hint_labels (List.length hints))
               = List.length (values hints)).
  { rewrite hint_labels_length. unfold values. rewrite length_map. reflexivity. }
  rewrite (keys_combine Hl), (values_combine Hl), hint_labels_spec.
  split; reflexivity.
Qed.

Lemma generated_key_length (hints d : dict str Child.t) (k : str) :
  generate_hint_labels hints = Ok d ->
  In k (keys d) ->
  List.length k = label_length (List.length hints) 1
  /\ Forall (fun c => In c chars) k.
Proof.
  intros Hg Hin. destruct (generated_keys Hg) as [Hk _]. rewrite Hk in Hin.
  apply words_complete.
  rewrite <- (firstn_skipn (List.length hints) (words _)).
  apply in_or_app. left. exact Hin.
Qed.

(** X1. No generated label is the start of another one: a prefix that equals a
    label matches that label alone. *)
Theorem labels_prefix_free (hints d : dict str Child.t) (k1 k2 : str) :
  generate_hint_labels hints = Ok d ->
  In k1 (keys d) -> In k2 (keys d) ->
  startswith k1 k2 = true ->
  k1 = k2.
Proof.
  intros Hg H1 H2 Hs.
  destruct (generated_key_length Hg H1) as [L1 _].
  destruct (generated_key_length Hg H2) as [L2 _].
  apply startswith_same_length; [congruence | exact Hs].
Qed.

Lemma labels_prefix_free_witness :
  generate_hint_labels trio = Ok (opened 200 90 trio).(hints)
  /\ In (pystr "A") (keys (opened 200 90 trio).(hints))
  /\ startswith (pystr "A") (pystr "A") = true
  /\ pystr "A" = pystr "A".
Proof.
  assert (Hg : generate_hint_labels trio = Ok (opened 200 90 trio).(hints))
    by (vm_compute; reflexivity).
  assert (Hin : In (pystr "A") (keys (opened 200 90 trio).(hints)))
    by (vm_compute; tauto).
  split; [exact Hg|]. split; [exact Hin|]. split; [reflexivity|].
  exact (labels_prefix_free Hg Hin Hin eq_refl).
Defined.

Lemma nth_error_blocks (A B : Type) (f : A -> list B) (m : nat) (cs : list A) :
  0 < m ->
  (forall c, In c cs -> List.length (f c) = m) ->
  forall i,
    nth_error (flat_map f cs) i
    = match nth_error cs (i / m) with
      | Some c => nth_error (f c) (i mod m)
      | None => None
      end.
Proof.
  intros Hm. induction cs as [|c cs IH]; intros Hlen i.
  - simpl. destruct (i / m), i; reflexivity.
  - cbn [flat_map].
    assert (Hc : List.length (f c) = m) by (apply Hlen; now left).
    destruct (Nat.lt_ge_cases i m) as [Hi|Hi].
    + rewrite nth_error_app1 by lia.
      rewrite Nat.div_small, Nat.mod_small by exact Hi. reflexivity.
    + rewrite nth_error_app2 by lia. rewrite Hc.
      rewrite IH by (intros c' Hc'; apply Hlen; now right).
      assert (E : i = (i - m) + 1 * m) by lia.
      assert (Hd : i / m = S ((i - m) / m)).
      { rewrite E at 1. rewrite Nat.div_add by lia. lia. }
      assert (Hmod : i mod m = (i - m) mod m).
      { rewrite E at 1. apply Nat.Div0.mod_add. }
      rewrite Hd, Hmod. reflexivity.
Qed.

(** The word at position [i] is [i] in base 14. *)
Lemma words_nth (l i : nat) :
  i < alphabet_size ^ l -> nth_error (words l) i = Some (digits_of l i).
Proof.
  revert i; induction l as [|l IH]; intros i Hi.
  - simpl in Hi. assert (i = 0) by lia. subst. reflexivity.
  - cbn [words digits_of].
    assert (Hm : 0 < alphabet_size ^ l)
      by (apply Nat.neq_0_lt_0, Nat.pow_nonzero; unfold alphabet_size; discriminate).
    rewrite (@nth_error_blocks _ _ _ (alphabet_size ^ l)); [|exact Hm|].
    + rewrite Nat.pow_succ_r' in Hi.
      assert (Hq : i / alphabet_size ^ l < alphabet_size)
        by (apply Nat.Div0.div_lt_upper_bound; rewrite Nat.mul_comm; exact Hi).
      destruct (nth_error chars (i / alphabet_size ^ l)) as [c|] eqn:Ec;
        [|apply nth_error_None in Ec; fold alphabet_size in Ec; lia].
      rewrite (nth_error_nth _ _ 0%N Ec).
      rewrite nth_error_map, IH by (apply Nat.mod_upper_bound; lia).
      reflexivity.
    + intros c _. rewrite length_map. apply words_length.
Qed.

(** X2. The label of the [i]-th element is [i] written in base 14 with the
    digits S A D F J K L E W C M P G H, on as many digits as the labels have;
    the element under it is the [i]-th element given. *)
Theorem label_is_index_in_base_14 (hints d : dict str Child.t) (i : nat)
  (key : str) (child : Child.t) :
  generate_hint_labels hints = Ok d ->
  nth_error d i = Some (key, child) ->
  key = digits_of (label_length (List.length hints) 1) i
  /\ nth_error (values hints) i = Some child.
Proof.
  intros Hg Hi. destruct (generated_keys Hg) as [Hk Hv].
  assert (Hki : nth_error (keys d) i = Some key)
    by (unfold keys; rewrite nth_error_map, Hi; reflexivity).
  assert (Hvi : nth_error (values d) i = Some child)
    by (unfold values; rewrite nth_error_map, Hi; reflexivity).
  split; [|rewrite <- Hv; exact Hvi].
  rewrite Hk in Hki.
  assert (Hlt : i < List.length hints).
  { assert (Hs : nth_error (firstn (List.length hints)
                              (words (label_length (List.length hints) 1))) i
                 <> None) by congruence.
    apply nth_error_Some in Hs. rewrite length_firstn in Hs. lia. }
  rewrite nth_error_firstn in Hki.
  destruct (Nat.ltb_spec i (List.length hints)) as [_|]; [|lia].
  rewrite words_nth in Hki.
  - congruence.
  - destruct (label_length_spec (List.length hints) 1) as (_ & H2 & _).
    cbv zeta in H2. lia.
Qed.

Lemma label_is_index_in_base_14_witness :
  generate_hint_labels (row 15) = Ok (opened 2100 100 (row 15)).(hints)
  /\ pystr "AS" = digits_of (label_length 15 1) 14.
Proof.
  assert (Hg : generate_hint_labels (row 15) = Ok (opened 2100 100 (row 15)).(hints))
    by (vm_compute; reflexivity).
  split; [exact Hg|].
  refine (proj1 (@label_is_index_in_base_14 (row 15) _ 14 (pystr "AS")
                   (element 140 20 10 10) Hg _)).
  vm_compute. reflexivity.
Defined.

(** ** Element filter *)

Lemma dict_get_In (V : Type) (d : dict str V) (k : str) (v : V) :
  NoDup (keys d) -> (dict_get str_eqb d k = Some v <-> In (k, v) d).
Proof.
  induction d as [|[k' v'] d IH]; intros Hnd; simpl.
  - split; [discriminate | tauto].
  - inversion Hnd as [|? ? Hk Hd]; subst.
    destruct (str_eqb_spec k' k) as [->|Hne].
    + split.
      * intros E. inversion E. now left.
      * intros [E|Hin]; [congruence|].
        exfalso. apply Hk. change k with (fst (k, v)). now apply in_map.
    + rewrite (IH Hd). split; [tauto|].
      intros [E|Hin]; [congruence | exact Hin].
Qed.

Lemma subseq_In (A : Type) (sub full : list A) (x : A) :
  subseq sub full -> In x sub -> In x full.
Proof.
  induction 1 as [|y sub full _ IH|y sub full _ IH]; simpl; intros Hin;
    [exact Hin | right; auto | destruct Hin; [now left | right; auto]].
Qed.

Lemma subseq_length (A : Type) (sub full : list A) :
  subseq sub full -> List.length sub <= List.length full.
Proof. induction 1; simpl; lia. Qed.

Section FilterMore.

Context {U : Unicode}.

Lemma survivors_subseq (self : OverlayWindow) (items : dict str Child.t) :
  forall seen, subseq (survivors self seen items) items.
Proof.
  induction items as [|[key child] rest IH]; intros seen; [constructor|].
  cbn [survivors]. destruct (_ && _); [apply subseq_keep | apply subseq_skip];
    apply IH.
Qed.

(** X3. The filter returns a sub-dictionary of its input: the entries it keeps
    are entries of the input, in the order of the input, under their keys; it
    adds nothing and changes no entry. *)
Theorem filter_important_hints_subdictionary (self : OverlayWindow)
  (hints : dict str Child.t) :
  NoDup (keys hints) ->
  subseq (filter_important_hints self hints) hints
  /\ NoDup (keys (filter_important_hints self hints))
  /\ List.length (filter_important_hints self hints) <= List.length hints
  /\ (forall key child,
        dict_get str_eqb (filter_important_hints self hints) key = Some child ->
        dict_get str_eqb hints key = Some child).
Proof.
  intros Hnd. rewrite (filter_important_hints_survivors self Hnd).
  assert (Hs : subseq (survivors self [] hints) hints) by apply survivors_subseq.
  assert (Hk : NoDup (keys (survivors self [] hints)))
    by (apply survivors_keys_NoDup; exact Hnd).
  split; [exact Hs|]. split; [exact Hk|].
  split; [exact (subseq_length Hs)|].
  intros key child Hget. apply (dict_get_In _ _ Hnd).
  apply (subseq_In Hs). apply (dict_get_In _ _ Hk). exact Hget.
Qed.

(** X4. Every element the filter keeps is at least 8 by 8, lies within the
    overlay widened by the element's own size, has no skip keyword in its
    lower-cased role, and is clickable (no role, or a click keyword in the
    role), named and larger than 20 by 15, or larger than 40 by 20. *)
Theorem filtered_elements_pass (self : OverlayWindow) (hints : dict str Child.t)
  (key : str) (child : Child.t) :
  NoDup (keys hints) ->
  In (key, child) (filter_important_hints self hints) ->
  let role := match child.(Child.role) with Some r => str_lower r | None => [] end in
  let name := match child.(Child.name) with Some n => str_strip n | None => [] end in
  (8 <= child.(Child.width) /\ 8 <= child.(Child.height))%Q
  /\ near_overlay self child
  /\ (forall k, In k skip_keywords -> str_contains role k = false)
  /\ (role = []
      \/ (exists k, In k click_keywords /\ str_contains role k = true)
      \/ (name <> [] /\ 20 < child.(Child.width) /\ 15 < child.(Child.height))%Q
      \/ (40 < child.(Child.width) /\ 20 < child.(Child.height))%Q).
Proof.
  intros Hnd Hin role name.
  rewrite (filter_important_hints_survivors self Hnd) in Hin.
  pose proof (survivors_eligible Hin) as He.
  unfold eligible, near_overlay in *. fold role name in He.
  destruct (Child.relative_position child) as [x y].
  apply andb_true_iff in He as [He Hinc].
  apply andb_true_iff in He as [He Hskip].
  apply andb_true_iff in He as [Hsize Hbounds].
  apply negb_true_iff, orb_false_iff in Hsize as [Hw Hh].
  apply negb_true_iff in Hbounds.
  apply orb_false_iff in Hbounds as [Hbounds Hb4].
  apply orb_false_iff in Hbounds as [Hbounds Hb3].
  apply orb_false_iff in Hbounds as [Hb1 Hb2].
  apply negb_true_iff in Hskip.
  repeat match goal with
         | H : Qltb ?a ?b = false |- _ =>
             destruct (Qltb_spec a b); [discriminate|]; clear H
         end.
  split; [split; lra|]. split; [repeat split; lra|]. split.
  - intros k Hk. destruct (str_contains role k) eqn:E; [|reflexivity].
    assert (existsb (fun k => str_contains role k) skip_keywords = true);
      [|congruence].
    apply existsb_exists. exists k. tauto.
  - apply orb_true_iff in Hinc as [Hinc|Hlarge].
    + apply orb_true_iff in Hinc as [Hclick|Hnamed].
      * destruct role as [|c r] eqn:Er; [now left|]. cbn [nonempty negb] in Hclick.
        right; left. apply existsb_exists in Hclick as (k & Hk & Hc).
        exists k. tauto.
      * right; right; left.
        apply andb_true_iff in Hnamed as [Hn H15].
        apply andb_true_iff in Hn as [Hn H20].
        destruct (Qltb_spec 20 (Child.width child)); [|discriminate].
        destruct (Qltb_spec 15 (Child.height child)); [|discriminate].
        destruct name; [discriminate|]. repeat split; [discriminate|lra|lra].
    + right; right; right.
      apply andb_true_iff in Hlarge as [H40 H20].
      destruct (Qltb_spec 40 (Child.width child)); [|discriminate].
      destruct (Qltb_spec 20 (Child.height child)); [|discriminate].
      split; lra.
Qed.

End FilterMore.

Lemma filter_important_hints_subdictionary_witness :
  let self := blank 200 100 stacked in
  NoDup (keys stacked)
  /\ subseq (filter_important_hints self stacked) stacked.
Proof.
  intros self.
  assert (Hnd : NoDup (keys stacked))
    by (apply nodupb_sound; vm_compute; reflexivity).
  split; [exact Hnd|].
  exact (proj1 (@filter_important_hints_subdictionary ascii_tables self stacked Hnd)).
Defined.

Lemma filtered_elements_pass_witness :
  let self := blank 200 100 stacked in
  NoDup (keys stacked)
  /\ In (pystr "c", element 80 20 50 30) (filter_important_hints self stacked)
  /\ (8 <= 50 /\ 8 <= 30)%Q.
Proof.
  intros self.
  assert (Hnd : NoDup (keys stacked))
    by (apply nodupb_sound; vm_compute; reflexivity).
  assert (Hin : In (pystr "c", element 80 20 50 30)
                   (filter_important_hints self stacked))
    by (vm_compute; tauto).
  split; [exact Hnd|]. split; [exact Hin|].
  exact (proj1 (@filtered_elements_pass ascii_tables self stacked (pystr "c")
                  (element 80 20 50 30) Hnd Hin)).
Defined.

(** ** Dedup buckets *)

Lemma py_round_near (q : Q) :
  (q - (1 # 2) <= inject_Z (py_round q) /\ inject_Z (py_round q) <= q + (1 # 2))%Q.
Proof.
  unfold py_round.
  pose proof (Qfloor_le q) as Hlo. pose proof (Qlt_floor q) as Hhi.
  rewrite inject_Z_plus in Hhi. change (inject_Z 1) with 1%Q in Hhi.
  destruct (Qltb_spec (q - inject_Z (Qfloor q)) (1 # 2)) as [H1|H1]; [lra|].
  destruct (Qltb_spec (1 # 2) (q - inject_Z (Qfloor q))) as [H2|H2].
  - rewrite inject_Z_plus. change (inject_Z 1) with 1%Q. lra.
  - destruct (Z.even (Qfloor q)); [lra|].
    rewrite inject_Z_plus. change (inject_Z 1) with 1%Q. lra.
Qed.

Lemma same_round_close (a b : Q) :
  py_round (a / 10) = py_round (b / 10) -> (-10 <= a - b /\ a - b <= 10)%Q.
Proof.
  intros E.
  destruct (py_round_near (a / 10)) as [A1 A2].
  destruct (py_round_near (b / 10)) as [B1 B2]. rewrite E in A1, A2.
  remember (inject_Z (py_round (b / 10))) as r eqn:Er. clear Er E.
  unfold Qdiv in *. change (/ 10)%Q with (1 # 10)%Q in *. split; lra.
Qed.

(** X5. Two elements of one dedup bucket lie within 10 units of each other in
    x and in y: the filter never drops an element for one that is farther
    away. *)
Theorem same_bucket_close (c1 c2 : Child.t) :
  bucket c1 = bucket c2 ->
  let '(x1, y1) := c1.(Child.relative_position) in
  let '(x2, y2) := c2.(Child.relative_position) in
  (-10 <= x1 - x2 /\ x1 - x2 <= 10 /\ -10 <= y1 - y2 /\ y1 - y2 <= 10)%Q.
Proof.
  unfold bucket.
  destruct (Child.relative_position c1) as [x1 y1].
  destruct (Child.relative_position c2) as [x2 y2].
  intros E. inversion E as [[Ex Ey]].
  destruct (same_round_close Ex), (same_round_close Ey). tauto.
Qed.

Lemma same_bucket_close_witness :
  bucket (element 12 20 30 20) = bucket (element 14 21 25 18)
  /\ (-10 <= 12 - 14 /\ 12 - 14 <= 10 /\ -10 <= 20 - 21 /\ 20 - 21 <= 10)%Q.
Proof.
  assert (E : bucket (element 12 20 30 20) = bucket (element 14 21 25 18))
    by (vm_compute; reflexivity).
  split; [exact E|].
  exact (same_bucket_close E).
Defined.

(** ** Layout *)

Lemma clamp_cases (v hi : Q) :
  (0 <= hi)%Q ->
  ((0 <= v /\ v <= hi -> py_max 0 (py_min v hi) == v)
   /\ (v < 0 -> py_max 0 (py_min v hi) == 0)
   /\ (hi < v -> py_max 0 (py_min v hi) == hi))%Q.
Proof.
  intros Hhi. unfold py_max, py_min.
  destruct (Qltb_spec hi v); destruct (Qltb_spec 0 hi);
    try destruct (Qltb_spec 0 v); repeat split; intros; lra.
Qed.

(** X6. When the label box fits the overlay, the label is anchored 5 units up
    and left of the element's corner if the box fits there, and otherwise
    moved to the nearest edge: to 0 when the anchor is negative, to the far
    edge minus the box when it would pass that edge. *)
Theorem label_anchored_at_corner (self : OverlayWindow) (child : Child.t) (w h : Q) :
  (w <= self.(width))%Q -> (h <= self.(height))%Q ->
  let x0 := fst child.(Child.relative_position) in
  let y0 := snd child.(Child.relative_position) in
  let x := fst (calculate_vimium_position self child w h) in
  let y := snd (calculate_vimium_position self child w h) in
  ((0 <= x0 - 5 /\ x0 - 5 <= self.(width) - w -> x == x0 - 5)
   /\ (x0 - 5 < 0 -> x == 0)
   /\ (self.(width) - w < x0 - 5 -> x == self.(width) - w)
   /\ (0 <= y0 - 5 /\ y0 - 5 <= self.(height) - h -> y == y0 - 5)
   /\ (y0 - 5 < 0 -> y == 0)
   /\ (self.(height) - h < y0 - 5 -> y == self.(height) - h))%Q.
Proof.
  intros Hw Hh. unfold calculate_vimium_position.
  destruct (Child.relative_position child) as [x0 y0]. cbn [fst snd].
  destruct (@clamp_cases (x0 - 5) (width self - w)) as (X1 & X2 & X3); [lra|].
  destruct (@clamp_cases (y0 - 5) (height self - h)) as (Y1 & Y2 & Y3); [lra|].
  repeat split; assumption.
Qed.

Lemma label_anchored_at_corner_witness :
  (14 <= (blank 200 90 column).(width))%Q
  /\ (13 <= (blank 200 90 column).(height))%Q
  /\ (fst (calculate_vimium_position (blank 200 90 column)
             (element 50 55 10 10) 14 13) == 50 - 5)%Q.
Proof.
  assert (Hw : (14 <= (blank 200 90 column).(width))%Q) by (vm_compute; discriminate).
  assert (Hh : (13 <= (blank 200 90 column).(height))%Q) by (vm_compute; discriminate).
  split; [exact Hw|]. split; [exact Hh|].
  apply (@label_anchored_at_corner (blank 200 90 column)
           (element 50 55 10 10) 14 13 Hw Hh).
  vm_compute. split; discriminate.
Defined.

Section LayoutMore.

Context {U : Unicode}.

(** One step of the collision loop leaves the candidate clear of the
    rectangle it was compared with. *)
Lemma avoid_clears (self : OverlayWindow) (x w h y : Q) (d : Rect) :
  ~ overlaps x (avoid self x w h y d) w h d.
Proof.
  destruct d as [[[dx dy] dw] dh]. unfold avoid.
  destruct (overlaps_spec x y w h dx dy dw dh) as [Ho|Ho]; [|exact Ho].
  unfold overlaps.
  destruct (Qltb_spec (height self) (dy + dh + 2 + h)); intros (_ & _ & A & B); lra.
Qed.

(** X8. A label never overlaps the label drawn just before it. *)
Theorem consecutive_labels_disjoint (self : OverlayWindow) (cr : Context)
  (i : nat) (r1 : Rect) (x y w h : Q) :
  nth_error (drawn_rects self cr) i = Some r1 ->
  nth_error (drawn_rects self cr) (S i) = Some (x, y, w, h) ->
  ~ overlaps x y w h r1.
Proof.
  intros H1 H2.
  assert (Hlen : S i < List.length self.(hints)).
  { assert (Hs : nth_error (drawn_rects self cr) (S i) <> None) by congruence.
    apply nth_error_Some in Hs. unfold drawn_rects in Hs.
    rewrite draw_loop_length in Hs. simpl in Hs. exact Hs. }
  destruct (nth_error (hints self) (S i)) as [[key child]|] eqn:Ek;
    [|apply nth_error_None in Ek; lia].
  apply nth_error_split in Ek as (pre & post & Hh & Hpre).
  destruct (drawn_rects_nth cr Hh) as [Hb Hn]. cbv zeta in Hb, Hn.
  rewrite Hpre in Hn, Hb. rewrite H2 in Hn.
  assert (Hlast : firstn (S i) (drawn_rects self cr)
                  = firstn i (drawn_rects self cr) ++ [r1]).
  { clear - H1. revert i H1. generalize (drawn_rects self cr) as l.
    induction l as [|a l IH]; intros [|i] H; try discriminate; simpl in *.
    - inversion H. reflexivity.
    - f_equal. apply IH. exact H. }
  rewrite Hlast in Hn. unfold place in Hn.
  destruct (calculate_vimium_position self child _ hint_height) as [bx by0].
  rewrite fold_left_app in Hn. cbn [fold_left] in Hn.
  inversion Hn; subst. apply avoid_clears.
Qed.

(** X9. A label whose base rectangle overlaps none of the rectangles drawn
    before it is drawn at its base position. *)
Theorem clear_label_keeps_base (self : OverlayWindow) (cr : Context)
  (drawn : list Rect) (key : str) (child : Child.t) :
  let w := ((cr.(text_extents) (normalize key)).(text_width)
            + 2 * hint_padding_x)%Q in
  let base := calculate_vimium_position self child w hint_height in
  Forall (fun d => ~ overlaps (fst base) (snd base) w hint_height d) drawn ->
  place self cr drawn key child = (fst base, snd base, w, hint_height).
Proof.
  intros w base Hclear. unfold place. fold (normalize key). fold w. fold base.
  destruct base as [x y]. cbn [fst snd] in *. do 3 f_equal.
  induction Hclear as [|[[[dx dy] dw] dh] ds Hd _ IH]; [reflexivity|].
  cbn [fold_left]. unfold avoid at 2.
  destruct (overlaps_spec x y w hint_height dx dy dw dh); [contradiction|].
  exact IH.
Qed.

End LayoutMore.

Lemma consecutive_labels_disjoint_witness :
  let s := opened 200 90 column in
  nth_error (drawn_rects s fixed_pitch) 1 = Some (45, 65, 14, 13)%Q
  /\ nth_error (drawn_rects s fixed_pitch) 2 = Some (45, 50, 14, 13)%Q
  /\ ~ overlaps 45 50 14 13 (45, 65, 14, 13)%Q.
Proof.
  intros s.
  assert (H1 : nth_error (drawn_rects s fixed_pitch) 1 = Some (45, 65, 14, 13)%Q)
    by (vm_compute; reflexivity).
  assert (H2 : nth_error (drawn_rects s fixed_pitch) 2 = Some (45, 50, 14, 13)%Q)
    by (vm_compute; reflexivity).
  split; [exact H1|]. split; [exact H2|].
  exact (@consecutive_labels_disjoint ascii_tables s fixed_pitch 1 _ _ _ _ _ H1 H2).
Defined.

Lemma clear_label_keeps_base_witness :
  let s := opened 200 90 column in
  Forall (fun d => ~ overlaps 45 65 14 13 d) [(45, 50, 14, 13)%Q]
  /\ place s fixed_pitch [(45, 50, 14, 13)%Q] (pystr "A") (element 50 70 10 10)
     = (fst (calculate_vimium_position s (element 50 70 10 10)
               ((fixed_pitch.(text_extents) (normalize (pystr "A"))).(text_width)
                + 2 * hint_padding_x) hint_height),
        snd (calculate_vimium_position s (element 50 70 10 10)
               ((fixed_pitch.(text_extents) (normalize (pystr "A"))).(text_width)
                + 2 * hint_padding_x) hint_height),
        ((fixed_pitch.(text_extents) (normalize (pystr "A"))).(text_width)
         + 2 * hint_padding_x)%Q,
        hint_height).
Proof.
  intros s.
  assert (Hc : Forall (fun d => ~ overlaps 45 65 14 13 d) [(45, 50, 14, 13)%Q]).
  { constructor; [|constructor]. vm_compute. intros (_ & _ & A & _). discriminate. }
  split; [exact Hc|].
  apply (@clear_label_keeps_base ascii_tables s fixed_pitch).
  exact Hc.
Defined.

(** ** The offset cache *)

Lemma dict_set_same (V : Type) (d : dict str V) k v :
  dict_get str_eqb d k = Some v -> dict_set str_eqb d k v = d.
Proof.
  induction d as [|[k' v'] d IH]; simpl; [discriminate|].
  destruct (str_eqb k' k) eqn:E.
  - intros H. inversion H. reflexivity.
  - intros H. rewrite (IH H). reflexivity.
Qed.

Lemma dict_get_set_some (V : Type) (d : dict str V) k k' v' :
  dict_get str_eqb d k <> None ->
  dict_get str_eqb (dict_set str_eqb d k' v') k <> None.
Proof.
  intros H. destruct (str_eqb_spec k' k) as [->|Hne].
  - rewrite dict_get_set_same. discriminate.
  - rewrite dict_get_set_other by exact Hne. exact H.
Qed.

Lemma set_all_present (V : Type) (kvs : dict str V) :
  forall o k,
    In k (keys kvs) \/ dict_get str_eqb o k <> None ->
    dict_get str_eqb (set_all o kvs) k <> None.
Proof.
  unfold set_all. induction kvs as [|[k' v'] kvs IH]; intros o k H.
  - simpl in *. tauto.
  - cbn [fold_left fst snd]. apply IH. simpl in H.
    destruct H as [[->|Hin]|Ho].
    + right. rewrite dict_get_set_same. discriminate.
    + now left.
    + right. apply dict_get_set_some, Ho.
Qed.

Lemma set_all_other (V : Type) (kvs : dict str V) :
  forall (o : dict str V) k,
    ~ In k (keys kvs) ->
    dict_get str_eqb (set_all o kvs) k = dict_get str_eqb o k.
Proof.
  unfold set_all. induction kvs as [|[k1 v1] kvs IH]; intros o k Hn;
    [reflexivity|].
  cbn [fold_left fst snd]. simpl in Hn. rewrite IH by tauto.
  apply dict_get_set_other. tauto.
Qed.

Lemma set_all_value (V : Type) (kvs : dict str V) :
  NoDup (keys kvs) ->
  forall (o : dict str V) k v,
    In (k, v) kvs -> dict_get str_eqb (set_all o kvs) k = Some v.
Proof.
  induction kvs as [|[k' v'] kvs IH]; intros Hnd o k v Hin; [destruct Hin|].
  inversion Hnd as [|? ? Hk Hrest]; subst.
  change (set_all o ((k', v') :: kvs))
    with (set_all (dict_set str_eqb o k' v') kvs).
  destruct Hin as [E|Hin].
  - inversion E; subst. rewrite set_all_other by exact Hk.
    apply dict_get_set_same.
  - apply IH; assumption.
Qed.

Lemma set_all_fixed (V : Type) (kvs : dict str V) (o : dict str V) :
  (forall k v, In (k, v) kvs -> dict_get str_eqb o k = Some v) ->
  set_all o kvs = o.
Proof.
  unfold set_all. induction kvs as [|[k v] kvs IH]; intros H; [reflexivity|].
  cbn [fold_left fst snd]. rewrite dict_set_same by (apply H; now left).
  apply IH. intros k' v' Hin. apply H. now right.
Qed.

Section Cache.

Context {U : Unicode}.

Lemma draw_body_eq (self : OverlayWindow) (cr : Context) drawn offsets key child :
  draw_body self cr (drawn, offsets) (key, child)
  = (drawn ++ [place self cr drawn key child],
     dict_set str_eqb offsets key
       (centre_offset child (place self cr drawn key child))).
Proof.
  rewrite (surjective_pairing (draw_body self cr (drawn, offsets) (key, child))).
  rewrite draw_body_fst, draw_body_snd. reflexivity.
Qed.

(** A draw pass writes the entries of [pass_writes] into the cache, and its
    rectangles do not depend on the cache. *)
Lemma draw_loop_writes (self : OverlayWindow) (cr : Context)
  (items : dict str Child.t) :
  forall drawn offsets,
    snd (fold_left (draw_body self cr) items (drawn, offsets))
    = set_all offsets (pass_writes self cr drawn items)
    /\ forall offsets',
         fst (fold_left (draw_body self cr) items (drawn, offsets))
         = fst (fold_left (draw_body self cr) items (drawn, offsets')).
Proof.
  induction items as [|[key child] rest IH]; intros drawn offsets;
    [split; reflexivity|].
  cbn [fold_left pass_writes]. rewrite draw_body_eq.
  destruct (IH (drawn ++ [place self cr drawn key child])
               (dict_set str_eqb offsets key
                  (centre_offset child (place self cr drawn key child))))
    as [Hs Hf].
  split; [rewrite Hs; reflexivity|].
  intros offsets'. rewrite draw_body_eq. apply Hf.
Qed.

Lemma pass_writes_keys (self : OverlayWindow) (cr : Context)
  (items : dict str Child.t) :
  forall drawn, keys (pass_writes self cr drawn items) = keys items.
Proof.
  induction items as [|[key child] rest IH]; intros drawn; [reflexivity|].
  cbn [pass_writes]. simpl. f_equal. apply IH.
Qed.

(** The placement reads the overlay's width and height only. *)
Lemma place_frame (s s' : OverlayWindow) (cr : Context) drawn key child :
  s'.(width) = s.(width) -> s'.(height) = s.(height) ->
  place s' cr drawn key child = place s cr drawn key child.
Proof.
  intros Hw Hh. unfold place, calculate_vimium_position, avoid.
  rewrite Hw, Hh. reflexivity.
Qed.

Lemma pass_writes_frame (s s' : OverlayWindow) (cr : Context)
  (items : dict str Child.t) :
  s'.(width) = s.(width) -> s'.(height) = s.(height) ->
  forall drawn, pass_writes s' cr drawn items = pass_writes s cr drawn items.
Proof.
  intros Hw Hh. induction items as [|[key child] rest IH]; intros drawn;
    [reflexivity|].
  cbn [pass_writes]. rewrite (place_frame cr drawn key child Hw Hh), IH.
  reflexivity.
Qed.

Lemma draw_loop_frame (s s' : OverlayWindow) (cr : Context)
  (items : dict str Child.t) :
  s'.(width) = s.(width) -> s'.(height) = s.(height) ->
  forall acc,
    fold_left (draw_body s' cr) items acc = fold_left (draw_body s cr) items acc.
Proof.
  intros Hw Hh. induction items as [|[key child] rest IH]; intros [drawn offsets];
    [reflexivity|].
  cbn [fold_left]. rewrite !draw_body_eq, (place_frame cr drawn key child Hw Hh).
  apply IH.
Qed.

Lemma on_draw_offsets (s : OverlayWindow) (cr : Context) :
  (on_draw s cr).(hints_drawn_offsets)
  = set_all s.(hints_drawn_offsets) (pass_writes s cr [] s.(hints)).
Proof.
  unfold on_draw. cbn [hints_drawn_offsets set_hints_drawn_offsets].
  apply draw_loop_writes.
Qed.

(** After a draw every live label has an offset in the cache. *)
Lemma on_draw_covers (s : OverlayWindow) (cr : Context) (k : str) :
  In k (keys s.(hints)) ->
  dict_get str_eqb (on_draw s cr).(hints_drawn_offsets) k <> None.
Proof.
  intros Hin. rewrite on_draw_offsets. apply set_all_present. left.
  rewrite pass_writes_keys. exact Hin.
Qed.

(** X10. Drawing again with nothing changed in between changes nothing: the
    same rectangles, and the overlay (its offset cache included) as the first
    draw left it. *)
Theorem on_draw_idempotent (s : OverlayWindow) (cr : Context) :
  NoDup (keys s.(hints)) ->
  on_draw (on_draw s cr) cr = on_draw s cr
  /\ drawn_rects (on_draw s cr) cr = drawn_rects s cr.
Proof.
  intros Hnd. split.
  - unfold on_draw at 1.
    replace (snd (fold_left (draw_body (on_draw s cr) cr) (hints (on_draw s cr))
                    ([], hints_drawn_offsets (on_draw s cr))))
      with (hints_drawn_offsets (on_draw s cr)); [reflexivity|].
    rewrite (proj1 (draw_loop_writes (on_draw s cr) cr (hints (on_draw s cr)) [] _)).
    symmetry. apply set_all_fixed. intros k v Hin.
    rewrite on_draw_offsets.
    rewrite (@pass_writes_frame s (on_draw s cr) cr _ eq_refl eq_refl) in Hin.
    apply set_all_value; [|exact Hin].
    rewrite pass_writes_keys. exact Hnd.
  - unfold drawn_rects.
    rewrite (@draw_loop_frame s (on_draw s cr) cr _ eq_refl eq_refl).
    apply draw_loop_writes.
Qed.

End Cache.

Lemma on_draw_idempotent_witness :
  let s := opened 200 90 column in
  NoDup (keys s.(hints))
  /\ on_draw (on_draw s fixed_pitch) fixed_pitch = on_draw s fixed_pitch.
Proof.
  intros s.
  assert (Hnd : NoDup (keys s.(hints)))
    by (apply nodupb_sound; vm_compute; reflexivity).
  split; [exact Hnd|].
  exact (proj1 (@on_draw_idempotent ascii_tables s fixed_pitch Hnd)).
Defined.

(** ** The key handler, case by case *)

Section KeyCases.

Context {U : Unicode}.

(** The unique-match test ends in one of three ways. *)
Lemma check_unique_cases (s : OverlayWindow) :
  check_unique s = Running s
  \/ exists hint child,
       s.(hints) = [(hint, child)]
       /\ normalize hint = s.(hint_selector_state)
       /\ ((exists offset,
              dict_get str_eqb s.(hints_drawn_offsets) hint = Some offset
              /\ check_unique s
                 = Resolved (set_mouse_action s
                               (resolved_action s.(mouse_action) child offset)))
           \/ (dict_get str_eqb s.(hints_drawn_offsets) hint = None
               /\ check_unique s = Raised KeyError s)).
Proof.
  destruct (hints s) as [|[hint child] [|? ?]] eqn:Hh;
    try (left; unfold check_unique; rewrite Hh; reflexivity).
  destruct (str_eqb_spec (str_upper hint) (hint_selector_state s)) as [E|Hne].
  - right. exists hint, child. split; [reflexivity|]. split; [exact E|].
    destruct (dict_get str_eqb (hints_drawn_offsets s) hint) as [offset|] eqn:Eg.
    + left. exists offset. split; [reflexivity|].
      exact (check_unique_resolved Hh E Eg).
    + right. split; [reflexivity|].
      unfold check_unique, resolve. rewrite Hh.
      cbn [hint_upercase andb orb negb]. rewrite orb_false_r, E, str_eqb_refl.
      destruct (Child.absolute_position child). rewrite Eg. reflexivity.
  - left. unfold check_unique. rewrite Hh.
    cbn [hint_upercase andb orb negb]. rewrite orb_false_r.
    destruct (str_eqb_spec (str_upper hint) (hint_selector_state s));
      [contradiction | reflexivity].
Qed.

Lemma before_check_facts (s : OverlayWindow) (event : EventKey) (ch : N) :
  incl (before_check s event ch).(hints) s.(hints)
  /\ (before_check s event ch).(hints_drawn_offsets) = s.(hints_drawn_offsets)
  /\ (before_check s event ch).(mouse_action) = pending_action s event
  /\ frame s (before_check s event ch).
Proof.
  unfold before_check.
  set (s1 := set_mouse_action s (qualify s event)).
  destruct (chr_isalpha ch).
  - destruct (update_hints_step s1 [ch] event) as (Hf & Hs & _ & Ho).
    repeat split; try apply Hf; [|exact Ho].
    cbn [set_mouse_action hints].
    destruct Hs as [H1 _|c H1 _ _|_ H2 _ _].
    + rewrite H1. apply incl_refl.
    + rewrite H1. apply narrowed_incl.
    + unfold update_hints. cbn [hint_upercase].
      destruct (nonempty _); cbn; [|apply incl_refl].
      intros kv Hin. apply filter_In in Hin. tauto.
  - repeat split. apply incl_refl.
Qed.

(** The five ways through [on_key_press]. *)
Lemma on_key_press_cases (s : OverlayWindow) (event : EventKey) :
  (on_key_press s event = Cancelled s
   /\ (event.(keyval) = KEY_Escape \/ event.(key_lower) = s.(exit_key)))
  \/ (event.(keyval) = KEY_BackSpace /\ s.(hint_selector_state) <> []
      /\ exists labelled,
           on_key_press s event
           = Running (queue_draw
                        (set_hints
                           (set_hint_selector_state s
                              (removelast s.(hint_selector_state)))
                           labelled)))
  \/ (on_key_press s event
      = Raised ValueError (set_mouse_action s (qualify s event))
      /\ (1114111 < event.(key_lower))%N)
  \/ (exists sa,
        on_key_press s event = Raised ValueError sa
        /\ chr_isdigit event.(key_lower) = true
        /\ chr_digit event.(key_lower) = None
        /\ sa.(hints_drawn_offsets) = s.(hints_drawn_offsets)
        /\ frame s sa)
  \/ (on_key_press s event = check_unique (before_check s event event.(key_lower))
      /\ (event.(key_lower) <= 1114111)%N
      /\ (chr_isdigit event.(key_lower) = true ->
          chr_digit event.(key_lower) <> None)).
Proof.
  rewrite on_key_press_unfold.
  destruct (N.eqb_spec (keyval event) KEY_Escape) as [He|He];
    [left; split; [reflexivity | now left]|].
  destruct (N.eqb_spec (key_lower event) (exit_key s)) as [Hq|Hq];
    [left; split; [reflexivity | now right]|].
  right. cbn [orb].
  destruct (N.eqb_spec (keyval event) KEY_BackSpace) as [Hb|Hb]; cbn [andb].
  1: destruct (nonempty_spec (hint_selector_state s)) as [Hp|Hp].
  1: { left. split; [exact Hb|]. split; [exact Hp|]. cbv zeta.
       rewrite generate_hint_labels_combine. eexists. reflexivity. }
  all: right.
  all: unfold before_check, pending_action, chr.
  all: destruct (N.leb_spec (key_lower event) 1114111) as [Hle|Hgt];
    [|left; split; [reflexivity | exact Hgt]].
  all: right; unfold key_tail.
  all: set (s1 := set_mouse_action s (qualify s event)).
  all: set (sa := if chr_isalpha (key_lower event)
                  then update_hints s1 [key_lower event] else s1).
  all: assert (Hsa : hints_drawn_offsets sa = hints_drawn_offsets s
                     /\ mouse_action sa = qualify s event /\ frame s sa)
    by (unfold sa; destruct (chr_isalpha (key_lower event));
        [destruct (update_hints_step s1 [key_lower event] event)
           as (Hf & _ & Hm & Ho); repeat split; try apply Hf; assumption
        | repeat split]).
  all: destruct Hsa as (Ho & Hm & Hf).
  all: destruct (chr_isdigit (key_lower event));
    [destruct (chr_digit (key_lower event)) as [d|]|].
  all: try (left; exists sa; repeat split; try apply Hf; assumption).
  all: right; split; [|split; [exact Hle | intros; discriminate]].
  all: try (rewrite Hm; reflexivity).
  all: rewrite <- Hm, set_mouse_action_same; reflexivity.
Qed.

Lemma on_key_press_keeps_offsets (s : OverlayWindow) (event : EventKey) :
  (state_of (on_key_press s event)).(hints_drawn_offsets)
  = s.(hints_drawn_offsets).
Proof.
  destruct (on_key_press_cases s event)
    as [[-> _]|[(_ & _ & l & ->)|[[-> _]|[(sa & -> & _ & _ & Ho & _)|[-> _]]]]];
    try reflexivity; try exact Ho.
  destruct (check_unique_state (before_check s event (key_lower event))) as [m ->].
  apply before_check_facts.
Qed.

End KeyCases.

(** ** Exceptions of the key handler *)

Section KeyErrors.

Context {U : Unicode}.



(** X12. A key press that follows a draw never fails on the offset lookup. *)
Theorem no_key_error_after_draw (s s' : OverlayWindow) (cr : Context)
  (event : EventKey) :
  on_key_press (on_draw s cr) event <> Raised KeyError s'.
Proof.
  intros Hr.
  destruct (on_key_press_cases (on_draw s cr) event)
    as [[Hc _]|[(_ & _ & l & Hc)|[[Hc Hgt]|[(sa & Hc & Hd & Hn & _)|[Hc _]]]]];
    rewrite Hc in Hr; try discriminate.
  set (s2 := before_check (on_draw s cr) event (key_lower event)) in *.
  destruct (before_check_facts (on_draw s cr) event (key_lower event))
    as (Hi & Ho & _). fold s2 in Hi, Ho.
  destruct (check_unique_cases s2)
    as [Hrun|(hint & child & Hh & Hn & [(off & _ & Hres)|[Hnone Hke]])];
    [rewrite Hrun in Hr; discriminate | rewrite Hres in Hr; discriminate |].
  rewrite Ho in Hnone. revert Hnone. apply on_draw_covers.
  assert (Hin : In (hint, child) (hints (on_draw s cr)))
    by (apply Hi; rewrite Hh; now left).
  change hint with (fst (hint, child)). apply in_map. exact Hin.
Qed.

(** With an empty offset cache a key press never resolves. *)
Lemma no_resolution_without_cache (s s' : OverlayWindow) (event : EventKey) :
  s.(hints_drawn_offsets) = [] ->
  on_key_press s event <> Resolved s'.
Proof.
  intros He Hr.
  destruct (on_key_press_cases s event)
    as [[Hc _]|[(_ & _ & l & Hc)|[[Hc Hgt]|[(sa & Hc & Hd & Hn & _)|[Hc _]]]]];
    rewrite Hc in Hr; try discriminate.
  set (s2 := before_check s event (key_lower event)) in *.
  destruct (before_check_facts s event (key_lower event)) as (_ & Ho & _).
  fold s2 in Ho.
  destruct (check_unique_cases s2)
    as [Hrun|(hint & child & Hh & Hn & [(off & Hsome & Hres)|[Hnone Hke]])];
    [rewrite Hrun in Hr; discriminate | | rewrite Hke in Hr; discriminate].
  rewrite Ho, He in Hsome. discriminate.
Qed.

(** X13. Before the first draw no sequence of key presses resolves: the offset
    cache is empty, so a key that completes a unique match ends in [KeyError]
    instead, and any other key leaves the cache empty. *)
Theorem no_resolution_before_first_draw (x_pos y_pos w h : Q)
  (config : HintsConfig) (elements : dict str Child.t) (m : MouseAction.t)
  (wl : bool) (self0 : OverlayWindow) (events : list EventKey) (s' : OverlayWindow) :
  init x_pos y_pos w h config elements m wl = Ok self0 ->
  run self0 (map key_press_event events) <> Resolved s'.
Proof.
  intros Hinit.
  destruct (init_state Hinit) as (_ & _ & _ & _ & _ & He & _).
  revert He. generalize self0 as s. clear Hinit.
  induction events as [|event rest IH]; intros s He; [discriminate|].
  cbn [map run].
  pose proof (on_key_press_keeps_offsets s event) as Hk.
  pose proof (@no_resolution_without_cache s s' event He) as Hn.
  destruct (on_key_press s event) as [s1|s1|s1|[] s1]; cbn [state_of] in Hk;
    try discriminate; try assumption; apply IH; congruence.
Qed.

End KeyErrors.


Lemma no_resolution_before_first_draw_witness :
  init 0 0 200 90 sample_config column MouseAction.empty false
  = Ok (opened 200 90 column)
  /\ run (opened 200 90 column) (map key_press_event [plain_key 97])
     <> Resolved (opened 200 90 column).
Proof.
  assert (Hi : init 0 0 200 90 sample_config column MouseAction.empty false
               = Ok (opened 200 90 column)) by (vm_compute; reflexivity).
  split; [exact Hi|].
  exact (@no_resolution_before_first_draw ascii_tables 0 0 200 90 sample_config
           column MouseAction.empty false (opened 200 90 column)
           [plain_key 97] (opened 200 90 column) Hi).
Defined.

(** ** Qualifiers and the repeat count *)

Section Qualifiers.

Context {U : Unicode}.

Lemma pending_action_qualifiers (s : OverlayWindow) (event : EventKey) :
  (pending_action s event).(MouseAction.action) = (qualify s event).(MouseAction.action)
  /\ (pending_action s event).(MouseAction.button)
     = (qualify s event).(MouseAction.button).
Proof.
  unfold pending_action.
  destruct (chr (key_lower event)) as [ch|e]; [|split; reflexivity].
  destruct (chr_isdigit ch); [destruct (chr_digit ch)|]; split; reflexivity.
Qed.

(** X14. The action of a key press that resolves. A shifted key (its
    lower-case form differs from the key value) gives a click with the RIGHT
    button, whatever modifier is held. Otherwise the grab modifier gives
    "grab", else the hover modifier gives "hover", else the action and the
    button are those pending from earlier keys, "click" and LEFT by default. *)
Theorem resolved_qualifiers (s s' : OverlayWindow) (event : EventKey) :
  on_key_press s event = Resolved s' ->
  let m := s.(mouse_action) in
  let m' := s'.(mouse_action) in
  (event.(key_lower) <> event.(keyval) ->
   m'.(MouseAction.action) = Some click /\ m'.(MouseAction.button) = Some RIGHT)
  /\ (event.(key_lower) = event.(keyval) ->
      m'.(MouseAction.button)
      = Some (match m.(MouseAction.button) with Some b => b | None => LEFT end)
      /\ (event.(mods) = s.(grab_modifier) ->
          m'.(MouseAction.action) = Some grab)
      /\ (event.(mods) <> s.(grab_modifier) ->
          event.(mods) = s.(hover_modifier) ->
          m'.(MouseAction.action) = Some hover)
      /\ (event.(mods) <> s.(grab_modifier) ->
          event.(mods) <> s.(hover_modifier) ->
          m'.(MouseAction.action)
          = Some (match m.(MouseAction.action) with Some a => a | None => click end))).
Proof.
  intros Hr m m'.
  destruct (on_key_press_resolved_inv Hr) as (s2 & Hcu & _ & _ & Hm).
  destruct (check_unique_resolved_inv Hcu) as (hint & child & offset & _ & _ & _ & ->).
  subst m'. cbn [set_mouse_action mouse_action resolved_action
                 MouseAction.action MouseAction.button].
  rewrite Hm. destruct (pending_action_qualifiers s event) as [-> ->].
  unfold qualify. fold m.
  destruct (N.eqb_spec (key_lower event) (keyval event)) as [Hk|Hk]; cbn [negb].
  - split; [intros; contradiction|]. intros _.
    destruct (N.eqb_spec (mods event) (hover_modifier s)),
             (N.eqb_spec (mods event) (grab_modifier s));
      cbn [MouseAction.action MouseAction.button];
      repeat split; intros; try reflexivity; try contradiction.
  - split; [intros; split; reflexivity | intros; contradiction].
Qed.





End Qualifiers.

Lemma resolved_qualifiers_witness :
  let s := on_draw (opened 200 90 column) fixed_pitch in
  let event := {| keyval := 65; key_lower := 97; mods := 4 |} in
  let s' := state_of (on_key_press s event) in
  on_key_press s event = Resolved s'
  /\ (event.(key_lower) <> event.(keyval) ->
      s'.(mouse_action).(MouseAction.action) = Some click
      /\ s'.(mouse_action).(MouseAction.button) = Some RIGHT).
Proof.
  intros s event s'.
  assert (Hr : on_key_press s event = Resolved s') by (vm_compute; reflexivity).
  split; [exact Hr|].
  exact (proj1 (@resolved_qualifiers ascii_tables s s' event Hr)).
Defined.


(** ** Invariants of a run *)

Lemma startswith_removelast (a p : str) :
  startswith a p = true -> startswith a (removelast p) = true.
Proof.
  intros H. destruct p as [|c p]; [exact H|].
  assert (Hne : c :: p <> []) by discriminate.
  rewrite (app_removelast_last 0%N Hne) in H.
  exact (startswith_app H).
Qed.

Section RunInvariants.

Context {U : Unicode}.

(** X16. Along every run from the constructed overlay, if the generator gave
    any label then the live set is never empty and the prefix is the start of
    at least one live label; the live labels are always among the generated
    ones. *)
Theorem prefix_matches_a_live_label (x_pos y_pos w h : Q) (config : HintsConfig)
  (elements : dict str Child.t) (m : MouseAction.t) (wl : bool)
  (self0 : OverlayWindow) (signals : list signal) :
  init x_pos y_pos w h config elements m wl = Ok self0 ->
  self0.(hints) <> [] ->
  let s := state_of (run self0 signals) in
  prefix_alive s /\ s.(hints) <> [] /\ incl s.(hints) self0.(hints).
Proof.
  intros Hinit Hne s.
  destruct (init_state Hinit) as (Hp0 & _ & _ & _ & _ & _ & Hg).
  pose (J := fun s => frame self0 s /\ prefix_alive s
                      /\ incl s.(hints) self0.(hints)).
  assert (HJ : J s).
  { apply (@run_invariant U J (fun _ => True)).
    - intros s1 cr (Hf & Ha & Hi) _.
      destruct (on_draw_step s1 cr) as (Hf' & Hh & Hp & _).
      split; [exact (frame_trans Hf Hf')|].
      unfold prefix_alive. rewrite Hh, Hp. split; assumption.
    - intros s1 event (Hf & (key & child & Hin & Hsw) & Hi) _.
      destruct (on_key_press_step s1 event) as [Hf' Hs].
      split; [exact (frame_trans Hf Hf')|].
      destruct Hs as [H1 H2|c H1 H2 H3|H1 H2 H3 H4].
      + unfold prefix_alive. rewrite H1, H2.
        split; [exists key, child; tauto | exact Hi].
      + split.
        * unfold prefix_alive. rewrite H3.
          remember (hints (state_of (on_key_press s1 event))) as live eqn:E.
          destruct live as [|[k1 c1] rest]; [contradiction|].
          exists k1, c1. split; [now left|].
          assert (Hin1 : In (k1, c1) (narrowed (hint_selector_state s1 ++ c)
                                        (hints s1)))
            by (rewrite <- H1; now left).
          apply filter_In in Hin1. exact (proj2 Hin1).
        * rewrite H1. intros kv Hkv. apply Hi. revert Hkv. apply narrowed_incl.
      + pose proof (rebuild_original Hf Hg H3) as Hall.
        split; [|rewrite Hall; apply incl_refl].
        unfold prefix_alive. exists key, child. rewrite Hall, H4.
        split; [apply Hi; exact Hin | apply startswith_removelast; exact Hsw].
    - apply Forall_forall. intros; exact I.
    - split; [apply frame_refl|]. split; [|apply incl_refl].
      unfold prefix_alive. rewrite Hp0.
      destruct (hints self0) as [|[k c] rest]; [contradiction|].
      exists k, c. split; [now left | apply startswith_nil]. }
  destruct HJ as (_ & Ha & Hi). split; [exact Ha|]. split; [|exact Hi].
  destruct Ha as (key & child & Hin & _). intros E. rewrite E in Hin. exact Hin.
Qed.

(** X17. No signal changes the element set, the size of the overlay, the exit
    key or the modifiers: they stay as the run found them. *)
Theorem run_keeps_frame (s : OverlayWindow) (signals : list signal) :
  frame s (state_of (run s signals)).
Proof.
  apply (@run_invariant U (frame s) (fun _ => True)).
  - intros s1 cr Hf _. exact (frame_trans Hf (proj1 (on_draw_step s1 cr))).
  - intros s1 event Hf _.
    exact (frame_trans Hf (proj1 (on_key_press_step s1 event))).
  - apply Forall_forall. intros; exact I.
  - apply frame_refl.
Qed.

End RunInvariants.

Lemma prefix_matches_a_live_label_witness :
  init 0 0 2100 100 sample_config crowd MouseAction.empty false
  = Ok (opened 2100 100 crowd)
  /\ (opened 2100 100 crowd).(hints) <> []
  /\ prefix_alive
       (state_of (run (opened 2100 100 crowd)
                    [key_press_event (plain_key 115);
                     key_press_event (plain_key 115);
                     key_press_event (plain_key KEY_BackSpace)])).
Proof.
  assert (Hi : init 0 0 2100 100 sample_config crowd MouseAction.empty false
               = Ok (opened 2100 100 crowd)) by (vm_compute; reflexivity).
  assert (Hne : (opened 2100 100 crowd).(hints) <> []).
  { intros E. apply (f_equal (@List.length _)) in E. vm_compute in E. discriminate. }
  split; [exact Hi|]. split; [exact Hne|].
  exact (proj1 (@prefix_matches_a_live_label ascii_tables 0 0 2100 100
                  sample_config crowd MouseAction.empty false
                  (opened 2100 100 crowd) _ Hi Hne)).
Defined.

(** ** The earlier variant *)

Lemma In_dict_set (V : Type) (d : dict str V) k v kv :
  In kv (dict_set str_eqb d k v) -> In kv d \/ kv = (k, v).
Proof.
  induction d as [|[k' v'] d IH]; simpl.
  - intros [E|[]]. right. congruence.
  - destruct (str_eqb_spec k' k) as [->|_]; simpl.
    + intros [E|Hin]; [right; congruence | left; now right].
    + intros [E|Hin]; [left; now left|].
      destruct (IH Hin); [left; now right | now right].
Qed.

Section LegacyFacts.

Context {U : Unicode}.

Lemma legacy_filter_body_eq (self : OverlayWindow) important_hints key child :
  Legacy.filter_body self important_hints (key, child)
  = if legacy_keeps self child
    then dict_set str_eqb important_hints key child
    else important_hints.
Proof.
  unfold Legacy.filter_body, legacy_keeps.
  destruct (Child.relative_position child) as [x y].
  destruct (Qltb (Child.width child) 5 || Qltb (Child.height child) 5);
    [reflexivity|].
  destruct (Qltb x (- Child.width child) || Qltb y (- Child.height child));
    [reflexivity|].
  destruct (Qltb (width self) x || Qltb (height self) y); [reflexivity|].
  cbn [negb andb].
  destruct (existsb _ Legacy.clickable_roles); [reflexivity|].
  destruct (existsb _ Legacy.skip_roles); [reflexivity|].
  cbn [negb andb orb].
  destruct (match Child.name child with
            | Some n => nonempty n && nonempty (str_strip n)
            | None => false
            end); [reflexivity|].
  cbn [orb]. destruct (_ && _); reflexivity.
Qed.

Lemma legacy_filter_fold (self : OverlayWindow) (items : dict str Child.t) :
  forall acc,
    NoDup (keys acc ++ keys items) ->
    fold_left (Legacy.filter_body self) items acc
    = acc ++ filter (fun kv => legacy_keeps self (snd kv)) items.
Proof.
  induction items as [|[key child] rest IH]; intros acc Hnd.
  - simpl. rewrite app_nil_r. reflexivity.
  - cbn [fold_left filter snd]. rewrite legacy_filter_body_eq. simpl in Hnd.
    destruct (legacy_keeps self child).
    + rewrite dict_set_fresh.
      * rewrite IH; [rewrite <- app_assoc; reflexivity|].
        unfold keys in *. rewrite map_app, <- app_assoc. exact Hnd.
      * apply NoDup_remove_2 in Hnd. intros Hin. apply Hnd, in_or_app. now left.
    + apply IH. apply NoDup_remove_1 in Hnd. exact Hnd.
Qed.

Lemma filter_keys_NoDup (f : list N * Child.t -> bool) (d : dict str Child.t) :
  NoDup (keys d) -> NoDup (keys (filter f d)).
Proof.
  induction d as [|kv d IH]; intros Hnd; [constructor|].
  inversion Hnd as [|? ? Hk Hd]; subst. simpl.
  destruct (f kv); [|auto]. simpl. constructor; [|auto].
  intros Hin. apply Hk. apply in_map_iff in Hin as (kv' & E & Hin).
  apply filter_In in Hin. apply in_map_iff. exists kv'. tauto.
Qed.

(** X18. The filter of [test.py] keeps exactly the entries whose element
    passes its tests, in the order of the input, and filtering its output
    again returns that output. *)
Theorem legacy_filter_is_plain_filter (self : OverlayWindow)
  (hints : dict str Child.t) :
  NoDup (keys hints) ->
  Legacy.filter_important_hints self hints
  = filter (fun kv => legacy_keeps self (snd kv)) hints
  /\ Legacy.filter_important_hints self (Legacy.filter_important_hints self hints)
     = Legacy.filter_important_hints self hints.
Proof.
  intros Hnd.
  assert (H1 : forall d, NoDup (keys d) ->
               Legacy.filter_important_hints self d
               = filter (fun kv => legacy_keeps self (snd kv)) d).
  { intros d Hd. unfold Legacy.filter_important_hints.
    rewrite legacy_filter_fold; [reflexivity | exact Hd]. }
  split; [exact (H1 hints Hnd)|].
  rewrite (H1 hints Hnd), H1 by (apply filter_keys_NoDup; exact Hnd).
  clear. induction hints as [|kv d IH]; [reflexivity|].
  simpl. destruct (legacy_keeps self (snd kv)) eqn:E; [|exact IH].
  simpl. rewrite E, IH. reflexivity.
Qed.

Lemma legacy_filter_incl (self : OverlayWindow) (items : dict str Child.t) :
  forall acc kv,
    In kv (fold_left (Legacy.filter_body self) items acc) ->
    In kv acc \/ In kv items.
Proof.
  induction items as [|[key child] rest IH]; intros acc kv Hin; [now left|].
  cbn [fold_left] in Hin. apply IH in Hin as [Hin|Hin]; [|right; now right].
  rewrite legacy_filter_body_eq in Hin.
  destruct (legacy_keeps self child); [|now left].
  apply In_dict_set in Hin as [Hin| ->]; [now left | right; now left].
Qed.

(** X19. The backspace of [test.py] never brings a label back: the live set
    after it holds only entries that were live before it, and the prefix loses
    its last character (an empty prefix leaves the overlay as it is). *)
Theorem legacy_backspace_never_restores (s : OverlayWindow) :
  incl (Legacy.backspace s).(hints) s.(hints)
  /\ (Legacy.backspace s).(hint_selector_state) = removelast s.(hint_selector_state)
  /\ (Legacy.backspace s).(all_hints) = s.(all_hints)
  /\ (s.(hint_selector_state) = [] -> Legacy.backspace s = s).
Proof.
  unfold Legacy.backspace.
  destruct (hint_selector_state s) as [|c p] eqn:Ep; cbn [nonempty].
  - repeat split; [apply incl_refl | rewrite Ep; reflexivity].
  - cbn [queue_draw set_hints set_hint_selector_state hints hint_selector_state
         all_hints].
    repeat split; [|discriminate].
    intros kv Hin. unfold Legacy.filter_important_hints in Hin.
    apply legacy_filter_incl in Hin as [[]|Hin]. exact Hin.
Qed.

End LegacyFacts.

Lemma legacy_filter_is_plain_filter_witness :
  let self := blank 200 100 stacked in
  NoDup (keys stacked)
  /\ Legacy.filter_important_hints self (Legacy.filter_important_hints self stacked)
     = Legacy.filter_important_hints self stacked.
Proof.
  intros self.
  assert (Hnd : NoDup (keys stacked))
    by (apply nodupb_sound; vm_compute; reflexivity).
  split; [exact Hnd|].
  exact (proj2 (@legacy_filter_is_plain_filter ascii_tables self stacked Hnd)).
Defined.

Lemma legacy_backspace_never_restores_witness :
  after_s.(hint_selector_state) <> []
  /\ incl (Legacy.backspace after_s).(hints) after_s.(hints).
Proof.
  split; [vm_compute; discriminate|].
  exact (proj1 (@legacy_backspace_never_restores ascii_tables after_s)).
Defined.

(** ** The text of a label *)

Lemma startswith_skipn (a p : str) :
  startswith a p = true -> p ++ skipn (List.length p) a = a.
Proof.
  revert a; induction p as [|y p IH]; intros a H; [reflexivity|].
  destruct a as [|x a]; [discriminate|]. simpl in *.
  apply andb_true_iff in H as [Hx Hp]. apply N.eqb_eq in Hx. subst.
  f_equal. apply IH, Hp.
Qed.

(** X20. The text calls for a label always spell the label: read in the order
    prefix part, rest, their texts make up the normalized label, all on one
    baseline; when the label starts with a non-empty prefix, the prefix part
    is the run in the pressed colour and is the normalized prefix itself, at
    the centred text origin, and the rest (if any) is set off from that origin
    by the x-bearing of the prefix. *)
Theorem on_draw_text_spells_label {U : Unicode} (self : OverlayWindow)
  (cr : Context) (key : str) (x y w h : Q) :
  let runs := on_draw_text self cr key (x, y, w, h) in
  let e := cr.(text_extents) (normalize key) in
  let tx := (x + (w / 2) - (e.(text_width) / 2 + e.(x_bearing)))%Q in
  let ty := (y + (h / 2) - (e.(text_height) / 2 + e.(y_bearing)))%Q in
  List.concat (map run_text (rev runs)) = normalize key
  /\ Forall (fun r => r.(run_y) = ty) runs
  /\ (normalize self.(hint_selector_state) <> [] ->
      startswith (normalize key) (normalize self.(hint_selector_state)) = true ->
      exists rest,
        runs = rest ++ [{| run_x := tx; run_y := ty; run_ink := hint_pressed_font;
                           run_text := normalize self.(hint_selector_state) |}]
        /\ Forall (fun r =>
                     r.(run_ink) = hint_font
                     /\ r.(run_x)
                        = (tx + (cr.(text_extents)
                                   (normalize self.(hint_selector_state))).(x_bearing))%Q)
                  rest)
  /\ (normalize self.(hint_selector_state) = []
      \/ startswith (normalize key) (normalize self.(hint_selector_state)) = false ->
      runs = [{| run_x := tx; run_y := ty; run_ink := hint_font;
                 run_text := normalize key |}]).
Proof.
  intros runs e tx ty. subst runs. unfold on_draw_text, normalize in *.
  cbn [hint_upercase]. fold e. fold tx. fold ty.
  set (txt := str_upper key). set (state := str_upper (hint_selector_state self)).
  destruct (nonempty_spec state) as [Hne|He]; cbn [andb].
  - destruct (startswith txt state) eqn:Hs.
    + pose proof (startswith_skipn Hs) as Hcat.
      destruct (skipn (List.length state) txt) as [|c rest] eqn:Er; cbn [nonempty].
      * rewrite app_nil_r in Hcat. simpl. rewrite app_nil_r.
        repeat split; try assumption.
        -- repeat constructor.
        -- intros _ _. exists []. split; [reflexivity | constructor].
        -- intros [E|E]; [contradiction | discriminate].
      * simpl. rewrite app_nil_r.
        repeat split; try assumption.
        -- repeat constructor.
        -- intros _ _.
           exists [{| run_x := (tx + x_bearing (text_extents cr state))%Q;
                      run_y := ty; run_ink := hint_font;
                      run_text := c :: rest |}].
           split; [reflexivity|]. repeat constructor.
        -- intros [E|E]; [contradiction | discriminate].
    + simpl. rewrite app_nil_r.
      repeat split; try reflexivity.
      * repeat constructor.
      * intros _ E. discriminate.
  - simpl. rewrite app_nil_r.
    repeat split; try reflexivity.
    + repeat constructor.
    + intros E. contradiction.
Qed.

(** ** The keyboard grab of [on_show] *)

Lemma on_show_from (grab : nat -> GrabStatus) (k : nat) :
  forall attempt fuel,
    (forall n, attempt <= n -> n < k -> is_success (grab n) = false) ->
    attempt <= k ->
    is_success (grab k) = true ->
    k - attempt < fuel ->
    on_show false grab attempt fuel = Some (S k).
Proof.
  intros attempt fuel; revert attempt.
  induction fuel as [|fuel IH]; intros attempt Hfail Hle Hok Hfuel; [lia|].
  cbn [on_show negb].
  destruct (Nat.eq_dec attempt k) as [->|Hne].
  - rewrite Hok. reflexivity.
  - rewrite Hfail by lia. cbn [negb]. apply IH; try assumption; try lia.
    intros n Hn Hk. apply Hfail; lia.
Qed.

Lemma on_show_starved (grab : nat -> GrabStatus) :
  forall fuel attempt,
    (forall n, attempt <= n -> n < attempt + fuel -> is_success (grab n) = false) ->
    on_show false grab attempt fuel = None.
Proof.
  induction fuel as [|fuel IH]; intros attempt Hfail; [reflexivity|].
  cbn [on_show negb]. rewrite Hfail by lia. cbn [negb].
  apply IH. intros n Hn Hk. apply Hfail; lia.
Qed.

(** X21. Under Wayland [on_show] grabs nothing. Otherwise it grabs again and
    again until the first grab that succeeds and stops right after it: with
    the first success at grab number [k] it makes [k + 1] grabs, and while
    every grab fails it does not come back. *)
Theorem on_show_grabs_until_success (grab : nat -> GrabStatus) :
  (forall fuel, on_show true grab 0 (S fuel) = Some 0)
  /\ (forall k fuel,
        (forall n, n < k -> is_success (grab n) = false) ->
        is_success (grab k) = true ->
        k < fuel ->
        on_show false grab 0 fuel = Some (S k))
  /\ (forall fuel,
        (forall n, n < fuel -> is_success (grab n) = false) ->
        on_show false grab 0 fuel = None).
Proof.
  split; [reflexivity|]. split.
  - intros k fuel Hfail Hok Hfuel.
    apply on_show_from; try assumption; try lia.
    intros n _ Hn. apply Hfail, Hn.
  - intros fuel Hfail. apply on_show_starved. intros n _ Hn. apply Hfail, Hn.
Qed.

Lemma on_show_grabs_until_success_witness :
  let grab := fun n => if n <? 2 then ALREADY_GRABBED else SUCCESS in
  (forall n, n < 2 -> is_success (grab n) = false)
  /\ is_success (grab 2) = true
  /\ on_show false grab 0 5 = Some 3.
Proof.
  intros grab.
  assert (Hf : forall n, n < 2 -> is_success (grab n) = false).
  { intros n Hn. unfold grab. destruct (Nat.ltb_spec n 2); [reflexivity | lia]. }
  split; [exact Hf|]. split; [reflexivity|].
  apply (proj1 (proj2 (on_show_grabs_until_success grab)) 2 5 Hf eq_refl).
  lia.
Defined.

(** ** Typing a label *)

Lemma startswith_app_self (q r : str) : startswith (q ++ r) q = true.
Proof.
  induction q as [|c q IH]; [apply startswith_nil|].
  simpl. rewrite N.eqb_refl. exact IH.
Qed.

Lemma filter_none (V : Type) (f : list N * V -> bool) (d : dict str V) k :
  (forall kv, In kv d -> f kv = true -> fst kv = k) ->
  ~ In k (keys d) -> filter f d = [].
Proof.
  induction d as [|kv d IH]; intros H1 H2; [reflexivity|].
  simpl. destruct (f kv) eqn:E.
  - exfalso. apply H2. left. apply H1; [now left | exact E].
  - apply IH; [intros kv' Hkv'; apply H1; now right|].
    intros Hin. apply H2. now right.
Qed.

Lemma filter_unique_key (V : Type) (f : list N * V -> bool) (d : dict str V) k v :
  NoDup (keys d) ->
  In (k, v) d ->
  (forall kv, In kv d -> (f kv = true <-> fst kv = k)) ->
  filter f d = [(k, v)].
Proof.
  induction d as [|[k' v'] d IH]; intros Hnd Hin Hf; [destruct Hin|].
  inversion Hnd as [|? ? Hk Hd]; subst. simpl.
  destruct Hin as [E|Hin].
  - inversion E; subst.
    rewrite (proj2 (Hf (k, v) (or_introl eq_refl)) eq_refl).
    f_equal. apply filter_none with (k := k); [|exact Hk].
    intros kv Hkv Hfk. apply (Hf kv); [now right | exact Hfk].
  - destruct (f (k', v')) eqn:E.
    + exfalso. apply Hk.
      assert (k' = k) by (apply (Hf (k', v')); [now left | exact E]).
      subst. change k with (fst (k, v)). now apply in_map.
    + apply IH; [exact Hd | exact Hin|].
      intros kv Hkv. apply Hf. now right.
Qed.

Section Typing.

Context {U : Unicode}.

Lemma narrowed_exact (orig : dict str Child.t) (label : str) (child : Child.t) :
  fixed_labels orig label ->
  In (label, child) orig ->
  narrowed label orig = [(label, child)].
Proof.
  intros (Hnd & Hnorm & Hlen) Hin. unfold narrowed.
  apply filter_unique_key; [exact Hnd | exact Hin|].
  intros [k v] Hkv. cbn [fst].
  assert (Hk : In k (keys orig))
    by (change k with (fst (k, v)); now apply in_map).
  rewrite (Hnorm k Hk). split.
  - intros Hs. apply startswith_same_length; [apply Hlen, Hk | exact Hs].
  - intros ->. rewrite <- (app_nil_r label) at 1. apply startswith_app_self.
Qed.

(** A letter that keeps some label alive commits: the live set is narrowed
    by the longer prefix. *)
Lemma letter_key_commits (s : OverlayWindow) (event : EventKey) (c : N)
  (orig : dict str Child.t) (p : str) :
  letter_key s.(exit_key) event c ->
  s.(hints) = narrowed p orig ->
  s.(hint_selector_state) = p ->
  narrowed (p ++ [c]) orig <> [] ->
  exists s2,
    on_key_press s event = check_unique s2
    /\ s2.(hints) = narrowed (p ++ [c]) orig
    /\ s2.(hint_selector_state) = p ++ [c]
    /\ s2.(exit_key) = s.(exit_key)
    /\ s2.(hints_drawn_offsets) = s.(hints_drawn_offsets).
Proof.
  intros (He & Hb & Hq & Hle & Ha & Hd & Hc) Hh Hp Hne.
  rewrite on_key_press_unfold.
  destruct (N.eqb_spec (keyval event) KEY_Escape) as [|_]; [contradiction|].
  destruct (N.eqb_spec (key_lower event) (exit_key s)) as [|_]; [contradiction|].
  destruct (N.eqb_spec (keyval event) KEY_BackSpace) as [|_]; [contradiction|].
  cbn [orb andb]. unfold chr.
  destruct (N.leb_spec (key_lower event) 1114111) as [_|]; [|lia].
  unfold key_tail. rewrite Ha, Hd.
  eexists. split; [reflexivity|].
  unfold update_hints. cbn [set_mouse_action hints hint_selector_state].
  change (if hint_upercase then str_upper [key_lower event] else [key_lower event])
    with (normalize [key_lower event]).
  rewrite Hc, Hh, Hp.
  change (filter (fun kv => startswith (normalize (fst kv)) (p ++ [c]))
            (narrowed p orig))
    with (narrowed (p ++ [c]) (narrowed p orig)).
  rewrite narrowed_narrowed.
  destruct (nonempty_spec (narrowed (p ++ [c]) orig)) as [_|Hn];
    [|contradiction].
  repeat split.
Qed.

Lemma typing_lemma (orig : dict str Child.t) (label : str) (child : Child.t)
  (offset : Q * Q) :
  fixed_labels orig label ->
  In (label, child) orig ->
  forall events rest p s,
    Forall2 (letter_key s.(exit_key)) events rest ->
    rest <> [] ->
    p ++ rest = label ->
    s.(hints) = narrowed p orig ->
    s.(hint_selector_state) = p ->
    dict_get str_eqb s.(hints_drawn_offsets) label = Some offset ->
    exists s',
      run s (map key_press_event events) = Resolved s'
      /\ s'.(hints) = [(label, child)]
      /\ s'.(hint_selector_state) = label
      /\ s'.(mouse_action).(MouseAction.x)
         = Some (fst child.(Child.absolute_position) + fst offset)%Q
      /\ s'.(mouse_action).(MouseAction.y)
         = Some (snd child.(Child.absolute_position) + snd offset)%Q.
Proof.
  intros Hfix Hin.
  assert (Hnorm : normalize label = label).
  { destruct Hfix as (_ & Hn & _). apply Hn.
    change label with (fst (label, child)). now apply in_map. }
  induction events as [|event events IH]; intros rest p s Hall Hne Hcat Hh Hp Hoff;
    [inversion Hall; subst; contradiction|].
  inversion Hall as [|? c ? rest' Hk Hrest]; subst rest.
  assert (Halive : In (label, child) (narrowed (p ++ [c]) orig)).
  { apply filter_In. split; [exact Hin|]. cbn [fst]. rewrite Hnorm.
    rewrite <- Hcat at 1.
    replace (p ++ c :: rest') with ((p ++ [c]) ++ rest')
      by (rewrite <- app_assoc; reflexivity).
    apply startswith_app_self. }
  destruct (@letter_key_commits s event c orig p Hk Hh Hp)
    as (s2 & Hrun & Hh2 & Hp2 & Hk2 & Ho2).
  { intros E. rewrite E in Halive. exact Halive. }
  cbn [map run]. rewrite Hrun.
  destruct rest' as [|c' rest''].
  - inversion Hrest; subst events.
    assert (Hl : p ++ [c] = label) by exact Hcat.
    rewrite Hl in Hh2, Hp2. rewrite (narrowed_exact Hfix Hin) in Hh2.
    rewrite (@check_unique_resolved U s2 label child offset Hh2);
      [| rewrite Hnorm; symmetry; exact Hp2 | rewrite Ho2; exact Hoff].
    cbn [map run]. eexists. split; [reflexivity|].
    cbn [set_mouse_action hints hint_selector_state mouse_action resolved_action
         MouseAction.x MouseAction.y].
    repeat split; assumption.
  - assert (Hcu : check_unique s2 = Running s2).
    { destruct (check_unique_cases s2)
        as [Hr|(hint & ch & Hs & Hn & _)]; [exact Hr|].
      exfalso. rewrite Hh2 in Hs. rewrite Hs in Halive.
      destruct Halive as [E|[]]. inversion E; subst hint ch.
      rewrite Hnorm, Hp2 in Hn. rewrite Hn in Hcat.
      apply (f_equal (@List.length _)) in Hcat.
      rewrite !length_app in Hcat. simpl in Hcat. lia. }
    rewrite Hcu.
    apply (IH (c' :: rest'') (p ++ [c]) s2).
    + rewrite Hk2. exact Hrest.
    + discriminate.
    + rewrite <- app_assoc. exact Hcat.
    + exact Hh2.
    + exact Hp2.
    + rewrite Ho2. exact Hoff.
Qed.

(** X23. Typing a label selects its element. After the overlay is constructed
    and drawn, typing the letters of a live label one after the other (keys
    whose characters normalize to the characters of the label) resolves at the
    last letter: the live set is then that label alone, and the x and y of the
    mouse action are the absolute position of the label's element moved by the
    offset of the centre of the rectangle the draw gave to the label. *)
Theorem typing_a_label_selects_its_element (x_pos y_pos w h : Q)
  (config : HintsConfig) (elements : dict str Child.t) (m : MouseAction.t)
  (wl : bool) (self0 : OverlayWindow) (cr : Context)
  (i : nat) (label : str) (child : Child.t) (events : list EventKey) :
  init x_pos y_pos w h config elements m wl = Ok self0 ->
  (forall k, In k (keys self0.(hints)) -> normalize k = k) ->
  nth_error self0.(hints) i = Some (label, child) ->
  Forall2 (letter_key self0.(exit_key)) events label ->
  exists s' r,
    run self0 (draw cr :: map key_press_event events) = Resolved s'
    /\ nth_error (drawn_rects self0 cr) i = Some r
    /\ s'.(hints) = [(label, child)]
    /\ s'.(mouse_action).(MouseAction.x)
       = Some (fst child.(Child.absolute_position)
               + fst (centre_offset child r))%Q
    /\ s'.(mouse_action).(MouseAction.y)
       = Some (snd child.(Child.absolute_position)
               + snd (centre_offset child r))%Q.
Proof.
  intros Hinit Hnorm Hi Hkeys.
  destruct (init_state Hinit) as (Hp0 & _ & _ & _ & _ & _ & Hg).
  destruct (generated_keys Hg) as [Hk _].
  assert (Hnd : NoDup (keys (hints self0)))
    by (rewrite Hk; apply NoDup_firstn, words_NoDup).
  assert (Hin : In (label, child) (hints self0)) by (eapply nth_error_In; exact Hi).
  assert (Hlk : In label (keys (hints self0)))
    by (change label with (fst (label, child)); now apply in_map).
  assert (Hfix : fixed_labels (hints self0) label).
  { split; [exact Hnd|]. split; [exact Hnorm|].
    intros k Hkin.
    destruct (generated_key_length Hg Hkin) as [-> _].
    destruct (generated_key_length Hg Hlk) as [-> _]. reflexivity. }
  assert (Hne : label <> []).
  { destruct (generated_key_length Hg Hlk) as [Hl _].
    destruct (label_length_spec
                (List.length (filter_important_hints self0 (all_hints self0))) 1)
      as (H1 & _).
    intros E. rewrite E in Hl. simpl in Hl. lia. }
  destruct (on_draw_caches cr Hnd Hi) as (r & Hr & Hcache).
  destruct (@typing_lemma (hints self0) label child (centre_offset child r)
              Hfix Hin events label [] (on_draw self0 cr))
    as (s' & Hrun & Hh & _ & Hx & Hy); try assumption; try reflexivity.
  - cbn [on_draw set_hints_drawn_offsets hints]. rewrite narrowed_nil. reflexivity.
  - exists s', r. cbn [run]. repeat split; assumption.
Qed.

End Typing.

Lemma typing_a_label_selects_its_element_witness :
  let self0 := opened 2100 100 (row 15) in
  init 0 0 2100 100 sample_config (row 15) MouseAction.empty false = Ok self0
  /\ nth_error self0.(hints) 14 = Some (pystr "AS", element 140 20 10 10)
  /\ Forall2 (letter_key self0.(exit_key)) [plain_key 97; plain_key 115] (pystr "AS")
  /\ exists s' r,
       run self0 (draw fixed_pitch
                  :: map key_press_event [plain_key 97; plain_key 115])
       = Resolved s'
       /\ nth_error (drawn_rects self0 fixed_pitch) 14 = Some r
       /\ s'.(hints) = [(pystr "AS", element 140 20 10 10)]
       /\ s'.(mouse_action).(MouseAction.x)
          = Some (fst (element 140 20 10 10).(Child.absolute_position)
                  + fst (centre_offset (element 140 20 10 10) r))%Q
       /\ s'.(mouse_action).(MouseAction.y)
          = Some (snd (element 140 20 10 10).(Child.absolute_position)
                  + snd (centre_offset (element 140 20 10 10) r))%Q.
Proof.
  intros self0.
  assert (Hi : init 0 0 2100 100 sample_config (row 15) MouseAction.empty false
               = Ok self0) by (vm_compute; reflexivity).
  assert (Hn : nth_error self0.(hints) 14 = Some (pystr "AS", element 140 20 10 10))
    by (vm_compute; reflexivity).
  assert (Hk : Forall2 (letter_key self0.(exit_key))
                 [plain_key 97; plain_key 115] (pystr "AS")).
  { repeat constructor; vm_compute; try discriminate; reflexivity. }
  split; [exact Hi|]. split; [exact Hn|]. split; [exact Hk|].
  apply (@typing_a_label_selects_its_element ascii_tables 0 0 2100 100
           sample_config (row 15) MouseAction.empty false self0 fixed_pitch 14
           (pystr "AS") (element 140 20 10 10) [plain_key 97; plain_key 115] Hi);
    [|exact Hn | exact Hk].
  intros k Hin.
  assert (Hall : forallb (fun k => str_eqb (normalize k) k) (keys self0.(hints)) = true)
    by (vm_compute; reflexivity).
  rewrite forallb_forall in Hall. specialize (Hall k Hin).
  destruct (str_eqb_spec (normalize k) k); [assumption | discriminate].
Defined.

(** ** The draw pass of [test.py] *)

Lemma dict_get_set_iff (V : Type) (d : dict str V) k k' v' :
  dict_get str_eqb (dict_set str_eqb d k' v') k <> None
  <-> k = k' \/ dict_get str_eqb d k <> None.
Proof.
  destruct (str_eqb_spec k' k) as [->|Hne].
  - rewrite dict_get_set_same. split; [intros _; now left | discriminate].
  - rewrite dict_get_set_other by exact Hne.
    split; [intros H; now right | intros [E|H]; [congruence | exact H]].
Qed.

Section LegacyDraw.

Context {U : Unicode}.

Lemma legacy_draw_body_cases (self : OverlayWindow) (cr : Context)
  (drawn : list Rect) (offsets : dict str (Q * Q)) (key : str) (child : Child.t) :
  (Legacy.visible self child = false
   /\ Legacy.draw_body self cr (drawn, offsets) (key, child) = (drawn, offsets))
  \/ (Legacy.visible self child = true
      /\ exists r o,
           Legacy.draw_body self cr (drawn, offsets) (key, child)
           = (drawn ++ [r], dict_set str_eqb offsets key o)).
Proof.
  unfold Legacy.draw_body.
  destruct (Child.relative_position child) as [x_loc y_loc].
  destruct (Legacy.visible self child); [right|left]; split; try reflexivity.
  destruct (Legacy.calculate_vimium_position _ _ _ _) as [hx hy].
  eexists. eexists. reflexivity.
Qed.

Lemma legacy_draw_loop (self : OverlayWindow) (cr : Context)
  (items : dict str Child.t) :
  forall acc key,
    (dict_get str_eqb (snd (fold_left (Legacy.draw_body self cr) items acc)) key
     <> None
     <-> dict_get str_eqb (snd acc) key <> None
         \/ exists child, In (key, child) items /\ Legacy.visible self child = true)
    /\ List.length (fst (fold_left (Legacy.draw_body self cr) items acc))
       = List.length (fst acc)
         + List.length (filter (fun kv => Legacy.visible self (snd kv)) items).
Proof.
  induction items as [|[k c] rest IH]; intros [drawn offsets] key.
  - simpl. split; [|lia].
    split; [intros H; now left | intros [H|(child & [] & _)]; exact H].
  - cbn [fold_left filter snd].
    destruct (legacy_draw_body_cases self cr drawn offsets k c)
      as [[Hv ->]|[Hv (r & o & ->)]]; rewrite Hv.
    + destruct (IH (drawn, offsets) key) as [H1 H2]. split; [|exact H2].
      rewrite H1. cbn [snd]. split.
      * intros [H|(child & Hin & Hc)]; [now left|].
        right. exists child. split; [now right | exact Hc].
      * intros [H|(child & [E|Hin] & Hc)]; [now left | |].
        -- inversion E; subst. congruence.
        -- right. exists child. tauto.
    + destruct (IH (drawn ++ [r], dict_set str_eqb offsets k o) key) as [H1 H2].
      split.
      * rewrite H1. cbn [snd]. rewrite dict_get_set_iff. split.
        -- intros [[->|H]|(child & Hin & Hc)].
           ++ right. exists c. split; [now left | exact Hv].
           ++ now left.
           ++ right. exists child. split; [now right | exact Hc].
        -- intros [H|(child & [E|Hin] & Hc)].
           ++ left. now right.
           ++ inversion E; subst. left. now left.
           ++ right. exists child. tauto.
      * rewrite H2. cbn [fst length]. rewrite length_app. simpl. lia.
Qed.

(** X24. In [test.py] a draw pass gives a rectangle and a cached offset to the
    live labels whose element is in the visible area, and to no other: a label
    has an offset after the pass exactly when it had one before or is the
    label of a visible live element, and the pass draws as many rectangles as
    there are visible live elements. *)
Theorem legacy_draw_caches_visible_only (s : OverlayWindow) (cr : Context)
  (key : str) :
  (dict_get str_eqb (Legacy.on_draw s cr).(hints_drawn_offsets) key <> None
   <-> dict_get str_eqb s.(hints_drawn_offsets) key <> None
       \/ exists child, In (key, child) s.(hints) /\ Legacy.visible s child = true)
  /\ List.length (Legacy.drawn_rects s cr)
     = List.length (filter (fun kv => Legacy.visible s (snd kv)) s.(hints))
  /\ (Legacy.on_draw s cr).(hints) = s.(hints).
Proof.
  destruct (legacy_draw_loop s cr (hints s) ([], hints_drawn_offsets s) key)
    as [H1 H2].
  split; [exact H1|]. split; [exact H2 | reflexivity].
Qed.

(** X25. The filter of [test.py] lets through elements that its draw pass does
    not show: an element the filter keeps is outside the visible area exactly
    when it starts on the right or on the bottom edge of the overlay (x equal
    to the width, or y equal to the height). *)
Theorem legacy_filter_keeps_edge_elements (self : OverlayWindow)
  (hints : dict str Child.t) (key : str) (child : Child.t) :
  NoDup (keys hints) ->
  In (key, child) (Legacy.filter_important_hints self hints) ->
  (Legacy.visible self child = false
   <-> (fst child.(Child.relative_position) == self.(width)
        \/ snd child.(Child.relative_position) == self.(height))%Q).
Proof.
  intros Hnd Hin. unfold Legacy.filter_important_hints in Hin.
  rewrite legacy_filter_fold in Hin by exact Hnd.
  apply filter_In in Hin as [_ Hk]. cbn [snd] in Hk.
  unfold legacy_keeps in Hk. unfold Legacy.visible.
  destruct (Child.relative_position child) as [x y]. cbn [fst snd].
  rewrite !andb_true_iff in Hk. destruct Hk as [[[_ Hb] Hc] _].
  destruct (Qltb_spec x (- Child.width child));
    destruct (Qltb_spec y (- Child.height child));
    destruct (Qltb_spec (width self) x);
    destruct (Qltb_spec (height self) y); try discriminate.
  cbn [negb andb].
  destruct (Qltb_spec x (width self)); destruct (Qltb_spec y (height self));
    cbn [andb]; split; intros H;
    first [ discriminate | reflexivity | left; lra | right; lra
          | destruct H; lra ].
Qed.

End LegacyDraw.

Lemma legacy_filter_keeps_edge_elements_witness :
  let d := [(pystr "e0", element 100 20 30 30)] in
  NoDup (keys d)
  /\ In (pystr "e0", element 100 20 30 30)
        (Legacy.filter_important_hints (blank 100 100 d) d)
  /\ (Legacy.visible (blank 100 100 d) (element 100 20 30 30) = false
      <-> (fst (element 100 20 30 30).(Child.relative_position) == 100
           \/ snd (element 100 20 30 30).(Child.relative_position) == 100)%Q).
Proof.
  intros d.
  assert (Hnd : NoDup (keys d)) by (repeat constructor; intros []).
  assert (Hin : In (pystr "e0", element 100 20 30 30)
                   (Legacy.filter_important_hints (blank 100 100 d) d))
    by (vm_compute; left; reflexivity).
  split; [exact Hnd|]. split; [exact Hin|].
  exact (@legacy_filter_keeps_edge_elements ascii_tables (blank 100 100 d) d
           (pystr "e0") (element 100 20 30 30) Hnd Hin).
Defined.
